(** * The agent execution engine of sales-agent-framework

    A shallow embedding of [BaseAgent] (packages/core/src/BaseAgent.ts) and
    [AgentWorkflow] (packages/core/src/AgentWorkflow.ts), with the types of
    packages/core/src/types.ts they use.

    Asynchronous TypeScript is rendered as state passing over a [world]:
    the JavaScript heap, a virtual clock in milliseconds, the deadline of
    the pending [Promise.race] timer, and a log of the observable actions
    (events emitted, callbacks invoked, timers armed, console output).
    User code (the work function [run], step handlers, conditions, error
    hooks, event listeners) is a parameter: a function on the heap that
    says how long it took and whether it returned or threw. *)

From Stdlib Require Import ZArith Lia FunctionalExtensionality.
From stdpp Require Import base strings gmap list list_numbers pretty.

Local Open Scope Z_scope.

(** ** JavaScript values *)

Definition addr := nat.

(** The values the engine can tell apart.  Numbers are integers (delays,
    attempts and time stamps are; NaN and fractions are not modelled).
    [VRef a] is a reference to the plain object stored at [a] in the heap.
    [VError m] is [new Error(m)], [VAgentError m c d] is
    [new AgentError(m, c, d)] and [VOriginal e] is the literal
    [{ originalError: e }] that normalizeError builds. *)
Inductive value : Type :=
| VUndefined
| VNull
| VBool (b : bool)
| VNum (n : Z)
| VStr (s : string)
| VRef (a : addr)
| VError (message : string)
| VAgentError (message code : string) (details : value)
| VOriginal (originalError : value).

Abbreviation store := (gmap addr (gmap string value)).

(** [v === null || v === undefined] *)
Definition nullish (v : value) : bool :=
  match v with
  | VUndefined | VNull => true
  | _ => false
  end.

(** ToBoolean: what [||] and [if] test. *)
Definition truthy (v : value) : bool :=
  match v with
  | VUndefined | VNull => false
  | VBool b => b
  | VNum n => negb (n =? 0)
  | VStr s => negb (String.eqb s "")
  | _ => true
  end.

(** [v instanceof Error]; AgentError extends Error. *)
Definition instanceof_Error (v : value) : bool :=
  match v with
  | VError _ | VAgentError _ _ _ => true
  | _ => false
  end.

Definition instanceof_AgentError (v : value) : bool :=
  match v with
  | VAgentError _ _ _ => true
  | _ => false
  end.

(** [error.message] of an Error instance. *)
Definition message_of (v : value) : string :=
  match v with
  | VError m | VAgentError m _ _ => m
  | _ => ""
  end.

(** [error.code] of an AgentError. *)
Definition code_of (v : value) : option string :=
  match v with
  | VAgentError _ c _ => Some c
  | _ => None
  end.

(** [String(v)] *)
Definition String_of (v : value) : string :=
  match v with
  | VUndefined => "undefined"
  | VNull => "null"
  | VBool true => "true"
  | VBool false => "false"
  | VNum n => pretty n
  | VStr s => s
  | VRef _ | VOriginal _ => "[object Object]"
  | VError m => "Error: " +:+ m
  | VAgentError m _ _ => "AgentError: " +:+ m
  end.

(** ** Types of types.ts *)

Record StepResult := {
  sr_step : string;
  sr_success : bool;
  sr_data : option value;      (* [None]: the key is absent *)
  sr_error : option value;
  sr_startedAt : Z;
  sr_completedAt : Z;
  sr_duration : Z
}.

Record AgentContext := {
  ctx_id : string;
  ctx_data : value;
  ctx_metadata : gmap string value;
  ctx_history : list StepResult;
  ctx_timestamp : Z
}.

(** The two keys of [Partial<AgentContext>] that execute reads. *)
Record PartialContext := {
  p_metadata : option (gmap string value);
  p_history : option (list StepResult)
}.

Record AgentResult := {
  ar_success : bool;
  ar_data : option value;
  ar_error : option value;
  ar_metadata : gmap string value;
  ar_executionTime : Z
}.

Inductive Backoff := Linear | Exponential.   (* 'linear' | 'exponential' *)

Record RetryConfig := {
  maxAttempts : Z;
  delay : Z;
  backoff : option Backoff;
  maxDelay : option Z
}.

(** The configuration a caller passes: optional keys may be absent. *)
Record AgentConfig := {
  name : string;
  timeout : option Z;
  retry : option RetryConfig
}.

Inductive ErrorStrategy := Stop | Continue | Rollback.   (* 'stop' | 'continue' | 'rollback' *)

Record WorkflowConfig := {
  wname : string;
  wtimeout : option Z;
  onError : option ErrorStrategy
}.

(** WorkflowResult is declared in AgentWorkflow.ts. *)
Record WorkflowResult := {
  wr_success : bool;
  wr_data : option value;
  wr_steps : list StepResult;
  wr_error : option value;
  wr_executionTime : Z
}.

Inductive AgentEventType :=
| agent_start | agent_complete | agent_error
| step_start | step_complete | step_error
| workflow_start | workflow_complete | workflow_error.

Global Instance AgentEventType_eq_dec : EqDecision AgentEventType.
Proof. solve_decision. Defined.

(** The payloads the engine puts in [event.data]. *)
Inductive EventData :=
| DAgent (agent : string)                          (* { agent } *)
| DAgentResult (r : AgentResult)
| DWorkflow (workflow : string) (steps : nat)      (* { workflow, steps } *)
| DStep (step : string)                            (* { step } *)
| DStepResult (r : StepResult)
| DWorkflowResult (r : WorkflowResult).

Record AgentEvent := {
  ev_type : AgentEventType;
  ev_timestamp : Z;
  ev_data : option EventData;
  ev_error : option value
}.

(** ** User code *)

(** How a call into user code ends. *)
Inductive completion (A : Type) :=
| Normal (a : A)
| Throw (e : value).
Arguments Normal {A} a.
Arguments Throw {A} e.

(** An awaited callback: from the heap it is started on, the heap it leaves
    when it settles, the milliseconds it takes, and how it settles. *)
Definition async (A : Type) : Type := store → store * Z * completion A.

(** A synchronous callback takes no time. *)
Definition sync (A : Type) : Type := store → store * completion A.

Definition EventListener : Type := AgentEvent → sync unit.
Definition StepHandler : Type := AgentContext → async value.

Record WorkflowStep := {
  step_name : string;
  handler : StepHandler;
  condition : option (AgentContext → async bool);
  step_onError : option (value → AgentContext → async unit)
}.

(** ** The world and the engine monad *)

(** What the log records.  It is the observer of the embedding: every call
    the engine makes into user code, every event, every timer, and every
    console line leaves an entry, in order. *)
Inductive LogEntry :=
| LEmit (ev : AgentEvent)            (* emitEvent(ev) *)
| LRun (ctx : AgentContext)          (* this.run(ctx) is called *)
| LRunSettled (c : completion value) (* ... and settles *)
| LCondition (step : string)         (* step.condition(context) *)
| LHandler (step : string)           (* step.handler(context) *)
| LStepOnError (step : string)       (* step.onError(error, context) *)
| LSleep (ms : Z)                    (* sleep(ms): setTimeout(resolve, ms) *)
| LRace (ms : Z)                     (* Promise.race against setTimeout(reject, ms) *)
| LConsoleWarn (msg : string)
| LConsoleError (msg : string).

(** [obj] is the mutable state of the engine object itself.  [deadline] is
    the instant at which the timer of the enclosing Promise.race fires;
    [work_wins_ties] is the scheduler's choice when the work settles at that
    very instant.  [random k] is the suffix derived from the k-th call of
    Math.random. *)
Record world (O : Type) := World {
  obj : O;
  heap : store;
  clock : Z;
  deadline : option Z;
  work_wins_ties : bool;
  random : nat → string;
  draws : nat;
  trace : list LogEntry
}.
Arguments World {O}.
Arguments obj {O}.
Arguments heap {O}.
Arguments clock {O}.
Arguments deadline {O}.
Arguments work_wins_ties {O}.
Arguments random {O}.
Arguments draws {O}.
Arguments trace {O}.

(** How a computation of the engine ends: with a value, with a thrown
    value, or still pending when the race timer fired. *)
Inductive outcome (A : Type) :=
| Res (a : A)
| Exn (e : value)
| Preempted.
Arguments Res {A} a.
Arguments Exn {A} e.
Arguments Preempted {A}.

Definition M (O A : Type) : Type := world O → world O * outcome A.

(** A call into user code that returned or threw, seen from the engine. *)
Definition settle {A} (c : completion A) : outcome A :=
  match c with
  | Normal a => Res a
  | Throw e => Exn e
  end.

Section Monad.
Context {O : Type}.

Definition ret {A} (a : A) : M O A := λ w, (w, Res a).

Definition bind {A B} (m : M O A) (k : A → M O B) : M O B :=
  λ w, match m w with
       | (w', Res a) => k a w'
       | (w', Exn e) => (w', Exn e)
       | (w', Preempted) => (w', Preempted)
       end.

Definition throw {A} (e : value) : M O A := λ w, (w, Exn e).

(** [try { body } catch (error) { handle error }]: a pending body is not
    an exception. *)
Definition try_catch {A} (body : M O A) (handle : value → M O A) : M O A :=
  λ w, match body w with
       | (w', Exn e) => handle e w'
       | r => r
       end.

Definition get_obj : M O O := λ w, (w, Res (obj w)).

Definition set_obj (o : O) : M O unit :=
  λ w, (World o (heap w) (clock w) (deadline w) (work_wins_ties w)
              (random w) (draws w) (trace w), Res tt).

Definition set_heap (h : store) (w : world O) : world O :=
  World (obj w) h (clock w) (deadline w) (work_wins_ties w)
        (random w) (draws w) (trace w).

Definition set_clock (t : Z) (w : world O) : world O :=
  World (obj w) (heap w) t (deadline w) (work_wins_ties w)
        (random w) (draws w) (trace w).

Definition set_deadline (d : option Z) (w : world O) : world O :=
  World (obj w) (heap w) (clock w) d (work_wins_ties w)
        (random w) (draws w) (trace w).

Definition log (e : LogEntry) : M O unit :=
  λ w, (World (obj w) (heap w) (clock w) (deadline w) (work_wins_ties w)
              (random w) (draws w) (trace w ++ [e]), Res tt).

(** [Date.now()], and [new Date()] as its time stamp. *)
Definition Date_now : M O Z := λ w, (w, Res (clock w)).

(** [Math.random().toString(36).substr(2, 9)] *)
Definition Math_random : M O string :=
  λ w, (World (obj w) (heap w) (clock w) (deadline w) (work_wins_ties w)
              (random w) (S (draws w)) (trace w), Res (random w (draws w))).

(** Does something that settles at [t] settle before the race timer? *)
Definition in_time (w : world O) (t : Z) : bool :=
  match deadline w with
  | None => true
  | Some d => (t <? d) || ((t =? d) && work_wins_ties w)
  end.

(** Suspend for [ms] milliseconds (a negative wait is no wait).  If the
    race timer fires first the computation is left pending at the
    deadline. *)
Definition wait (ms : Z) : M O unit :=
  λ w, let t := clock w + Z.max 0 ms in
       if in_time w t then (set_clock t w, Res tt)
       else (set_clock (default t (deadline w)) w, Preempted).

(** [await f(...)] for user code [f]: its effects on the heap land when
    it settles; a call that is still pending at the deadline has left
    none. *)
Definition await {A} (f : async A) : M O A :=
  λ w, let '(h, ms, c) := f (heap w) in
       match wait ms w with
       | (w', Res _) =>
           (set_heap h w', settle c)
       | (w', Exn e) => (w', Exn e)
       | (w', Preempted) => (w', Preempted)
       end.

(** A synchronous call into user code. *)
Definition call {A} (f : sync A) : M O A :=
  λ w, let '(h, c) := f (heap w) in
       (set_heap h w, settle c).
End Monad.

Global Instance M_ret {O} : MRet (M O) := @ret O.
Global Instance M_bind {O} : MBind (M O) := λ A B k m, bind m k.

(** ** EventEmitter (eventemitter3) *)

(** The names listeners register under: ['event'] and the event types. *)
Inductive Channel :=
| ChEvent
| ChType (t : AgentEventType).

Global Instance Channel_eq_dec : EqDecision Channel.
Proof. solve_decision. Defined.

Abbreviation Listeners := (list (Channel * EventListener)).

Section Emitter.
Context {O : Type}.

(** [emitter.on(name, fn)]: listeners are kept in registration order. *)
Definition on (ls : Listeners) (ch : Channel) (fn : EventListener) : Listeners :=
  ls ++ [(ch, fn)].

Definition onEvent (ls : Listeners) (listener : EventListener) : Listeners :=
  on ls ChEvent listener.

(** The listeners of one name are called in order, with no handler
    around the calls: the first one that throws ends the emission. *)
Fixpoint call_listeners (fns : list EventListener) (ev : AgentEvent) : M O unit :=
  match fns with
  | [] => mret tt
  | fn :: rest => call (fn ev) ;; call_listeners rest ev
  end.

Definition emit (ls : Listeners) (ch : Channel) (ev : AgentEvent) : M O unit :=
  call_listeners (snd <$> filter (λ p, fst p = ch) ls) ev.

(** emitEvent of both classes:
    [this.emit('event', event); this.emit(event.type, event);] *)
Definition emitEvent (ls : Listeners) (event : AgentEvent) : M O unit :=
  log (LEmit event) ;;
  emit ls ChEvent event ;;
  emit ls (ChType (ev_type event)) event.
End Emitter.

(** ** Promise.race against a timer *)

Section Race.
Context {O : Type}.

(** executeWithTimeout of both classes, which differ in the message:
    [Promise.race([fn(), new Promise((_, reject) => setTimeout(() =>
    reject(new AgentError(message, 'TIMEOUT')), timeout))])].
    The work runs with the timer's deadline in force.  If the work
    settles first its outcome is the outcome of the race; otherwise the
    race rejects at the deadline and the work is abandoned where it was.
    The timer of an enclosing race, if there is one, is put back on
    leaving. *)
Definition race {A} (message : string) (fn : M O A) (timeout : Z) : M O A :=
  λ w, let outer := deadline w in
       let w0 := set_deadline (Some (clock w + Z.max 0 timeout)) w in
       match (log (LRace timeout) ;; fn) w0 with
       | (w', Res a) => (set_deadline outer w', Res a)
       | (w', Exn e) => (set_deadline outer w', Exn e)
       | (w', Preempted) =>
           (set_deadline outer w', Exn (VAgentError message "TIMEOUT" VUndefined))
       end.
End Race.

(** ** BaseAgent *)

Module BaseAgent.

(** An agent: its resolved configuration, its listeners, and the
    abstract method [run] a subclass supplies.  The mutable field
    [initialized] is the [obj] of the world. *)
Record t := {
  config_name : string;
  config_timeout : Z;
  config_retry : RetryConfig;
  listeners : Listeners;
  run : AgentContext → async value
}.

Definition default_retry : RetryConfig :=
  {| maxAttempts := 3; delay := 1000;
     backoff := Some Exponential; maxDelay := None |}.

(** The constructor:
    [{ timeout: 30000, retry: { ... }, ...config }]. *)
Definition new (config : AgentConfig) (run : AgentContext → async value) : t :=
  {| config_name := name config;
     config_timeout := default 30000 (timeout config);
     config_retry := default default_retry (retry config);
     listeners := [];
     run := run |}.

Definition with_listeners (self : t) (ls : Listeners) : t :=
  {| config_name := config_name self;
     config_timeout := config_timeout self;
     config_retry := config_retry self;
     listeners := ls;
     run := run self |}.

(** [retry.maxDelay || delay] *)
Definition maxDelay_or (retry : RetryConfig) (delay : Z) : Z :=
  match maxDelay retry with
  | Some m => if truthy (VNum m) then m else delay
  | None => delay
  end.

(** [Math.pow(2, attempt - 1)] is [2 ^ (attempt - 1)]: the loop calls this
    with attempt ≥ 1 only. *)
Definition calculateRetryDelay (attempt : Z) (retry : RetryConfig) : Z :=
  match backoff retry with
  | Some Exponential =>
      let delay := delay retry * 2 ^ (attempt - 1) in
      Z.min delay (maxDelay_or retry delay)
  | _ => delay retry
  end.

Definition sleep (ms : Z) : M bool unit :=
  log (LSleep ms) ;; wait ms.

Definition validateInput (input : value) : M bool unit :=
  if nullish input
  then throw (VAgentError "Input cannot be null or undefined" "INVALID_INPUT" VUndefined)
  else mret tt.

Definition normalizeError (error : value) : value :=
  if instanceof_AgentError error then error
  else if instanceof_Error error
       then VAgentError (message_of error) "UNKNOWN_ERROR" (VOriginal error)
       else VAgentError (String_of error) "UNKNOWN_ERROR" (VOriginal error).

Definition generateContextId (self : t) : M bool string :=
  now ← Date_now;
  r ← Math_random;
  mret (config_name self +:+ "-" +:+ pretty now +:+ "-" +:+ r).

Definition emitEvent (self : t) (event : AgentEvent) : M bool unit :=
  emitEvent (listeners self) event.

Definition initialize (self : t) : M bool unit :=
  set_obj true ;;
  now ← Date_now;
  emitEvent self {| ev_type := agent_start; ev_timestamp := now;
                    ev_data := Some (DAgent (config_name self));
                    ev_error := None |}.

(** One call of the work function, with its entries in the log. *)
Definition call_run (self : t) (context : AgentContext) : M bool value :=
  log (LRun context) ;;
  try_catch
    (v ← await (run self context); log (LRunSettled (Normal v)) ;; mret v)
    (λ e, log (LRunSettled (Throw e)) ;; throw e).

(** The body of [for (let attempt = 1; attempt <= retry.maxAttempts;
    attempt++)], over the attempts still to make, and the [throw] after
    the loop. *)
Fixpoint retry_loop (self : t) (context : AgentContext)
    (attempts : list Z) (lastError : value) : M bool value :=
  match attempts with
  | [] =>
      throw (if truthy lastError then lastError
             else VAgentError "Execution failed" "EXECUTION_FAILED" VUndefined)
  | attempt :: rest =>
      let retry := config_retry self in
      try_catch
        (call_run self context)
        (λ error,
           (if attempt <? maxAttempts retry
            then sleep (calculateRetryDelay attempt retry)
            else mret tt) ;;
           retry_loop self context rest error)
  end.

Definition executeWithRetry (self : t) (context : AgentContext) : M bool value :=
  retry_loop self context (seqZ 1 (maxAttempts (config_retry self))) VUndefined.

Definition executeWithTimeout {A} (fn : M bool A) (timeout : Z) : M bool A :=
  race "Execution timeout" fn timeout.

(** The try block of execute. *)
Definition execute_try (self : t) (input : value)
    (executionContext : AgentContext) (startTime : Z) : M bool AgentResult :=
  validateInput input ;;
  result ← executeWithTimeout (executeWithRetry self executionContext)
                              (config_timeout self);
  now ← Date_now;
  let agentResult :=
    {| ar_success := true;
       ar_data := Some result;
       ar_error := None;
       ar_metadata := ctx_metadata executionContext;
       ar_executionTime := now - startTime |} in
  emitEvent self {| ev_type := agent_complete; ev_timestamp := now;
                    ev_data := Some (DAgentResult agentResult);
                    ev_error := None |} ;;
  mret agentResult.

(** The catch block of execute. *)
Definition execute_catch (self : t) (executionContext : AgentContext)
    (startTime : Z) (error : value) : M bool AgentResult :=
  now ← Date_now;
  let agentError := normalizeError error in
  let agentResult :=
    {| ar_success := false;
       ar_data := None;
       ar_error := Some agentError;
       ar_metadata := ctx_metadata executionContext;
       ar_executionTime := now - startTime |} in
  emitEvent self {| ev_type := agent_error; ev_timestamp := now;
                    ev_data := Some (DAgentResult agentResult);
                    ev_error := Some agentError |} ;;
  mret agentResult.

Definition execute (self : t) (input : value) (context : option PartialContext)
    : M bool AgentResult :=
  initialized ← get_obj;
  (if negb initialized then initialize self else mret tt) ;;
  id ← generateContextId self;
  timestamp ← Date_now;
  let executionContext :=
    {| ctx_id := id;
       ctx_data := input;
       ctx_metadata := default ∅ (context ≫= p_metadata);
       ctx_history := default [] (context ≫= p_history);
       ctx_timestamp := timestamp |} in
  startTime ← Date_now;
  try_catch (execute_try self input executionContext startTime)
            (execute_catch self executionContext startTime).

(** [close()]: [this.removeAllListeners(); this.initialized = false;].
    The object it leaves, and what it does to the field. *)
Definition close (self : t) : t * M bool unit :=
  (with_listeners self [], set_obj false).

(** [getConfig()]: [{ ...this.config }]. *)
Definition getConfig (self : t) : AgentConfig :=
  {| name := config_name self;
     timeout := Some (config_timeout self);
     retry := Some (config_retry self) |}.

(** The keys of a [Partial<AgentConfig>] that the engine reads; [None] is
    an absent key. *)
Record PartialAgentConfig := {
  new_name : option string;
  new_timeout : option Z;
  new_retry : option RetryConfig
}.

(** [updateConfig(config)]: [{ ...this.config, ...config }]. *)
Definition updateConfig (self : t) (config : PartialAgentConfig) : t :=
  {| config_name := default (config_name self) (new_name config);
     config_timeout := default (config_timeout self) (new_timeout config);
     config_retry := default (config_retry self) (new_retry config);
     listeners := listeners self;
     run := run self |}.

End BaseAgent.

(** ** AgentWorkflow *)

Module AgentWorkflow.

(** A workflow: its resolved configuration, the registered steps and the
    listeners. *)
Record t := {
  config_name : string;
  config_timeout : Z;
  config_onError : ErrorStrategy;
  steps : list WorkflowStep;
  listeners : Listeners
}.

(** What a run mutates: the field [this.context], and the array
    [stepResults] that execute shares with the closure it races. *)
Record state := {
  context : option AgentContext;
  stepResults : list StepResult
}.

(** The constructor: [{ timeout: 300000, onError: 'stop', ...config }]. *)
Definition new (config : WorkflowConfig) : t :=
  {| config_name := wname config;
     config_timeout := default 300000 (wtimeout config);
     config_onError := default Stop (onError config);
     steps := [];
     listeners := [] |}.

Definition with_steps (self : t) (ss : list WorkflowStep) : t :=
  {| config_name := config_name self;
     config_timeout := config_timeout self;
     config_onError := config_onError self;
     steps := ss;
     listeners := listeners self |}.

Definition with_listeners (self : t) (ls : Listeners) : t :=
  {| config_name := config_name self;
     config_timeout := config_timeout self;
     config_onError := config_onError self;
     steps := steps self;
     listeners := ls |}.

Definition with_onError (self : t) (s : ErrorStrategy) : t :=
  {| config_name := config_name self;
     config_timeout := config_timeout self;
     config_onError := s;
     steps := steps self;
     listeners := listeners self |}.

(** [step(name, handler, options?)] *)
Definition step (self : t) (name : string) (handler : StepHandler)
    (condition : option (AgentContext → async bool))
    (onError : option (value → AgentContext → async unit)) : t :=
  with_steps self
    (steps self ++ [ {| step_name := name; handler := handler;
                        condition := condition; step_onError := onError |} ]).

(** [when(condition, name, handler)] *)
Definition when (self : t) (condition : AgentContext → async bool)
    (name : string) (handler : StepHandler) : t :=
  step self name handler (Some condition) None.

(** [this.context!]: execute sets the field before any step runs; a
    dereference of null raises a TypeError. *)
Definition the_context : M state AgentContext :=
  s ← get_obj;
  match context s with
  | Some c => mret c
  | None => throw (VError "Cannot read properties of null")
  end.

(** [this.context!.data = result] *)
Definition set_context_data (result : value) : M state unit :=
  c ← the_context;
  s ← get_obj;
  set_obj {| context := Some {| ctx_id := ctx_id c;
                                ctx_data := result;
                                ctx_metadata := ctx_metadata c;
                                ctx_history := ctx_history c;
                                ctx_timestamp := ctx_timestamp c |};
             stepResults := stepResults s |}.

(** [this.context!.history.push(stepResult)] *)
Definition push_history (stepResult : StepResult) : M state unit :=
  c ← the_context;
  s ← get_obj;
  set_obj {| context := Some {| ctx_id := ctx_id c;
                                ctx_data := ctx_data c;
                                ctx_metadata := ctx_metadata c;
                                ctx_history := ctx_history c ++ [stepResult];
                                ctx_timestamp := ctx_timestamp c |};
             stepResults := stepResults s |}.

(** [stepResults.push(stepResult)] *)
Definition push_stepResult (stepResult : StepResult) : M state unit :=
  s ← get_obj;
  set_obj {| context := context s;
             stepResults := stepResults s ++ [stepResult] |}.

Definition emitEvent (self : t) (event : AgentEvent) : M state unit :=
  emitEvent (listeners self) event.

Definition generateWorkflowId (self : t) : M state string :=
  now ← Date_now;
  r ← Math_random;
  mret (config_name self +:+ "-" +:+ pretty now +:+ "-" +:+ r).

(** [new Error(String(error))] unless [error instanceof Error]. *)
Definition as_Error (error : value) : value :=
  if instanceof_Error error then error else VError (String_of error).

(** The rest of the try block of executeStep once the condition, if
    any, let the step through. *)
Definition run_handler (self : t) (step : WorkflowStep) (startTime : Z)
    : M state StepResult :=
  context ← the_context;
  log (LHandler (step_name step)) ;;
  result ← await (handler step context);
  (if negb (nullish result) then set_context_data result else mret tt) ;;
  now ← Date_now;
  let stepResult :=
    {| sr_step := step_name step;
       sr_success := true;
       sr_data := Some result;
       sr_error := None;
       sr_startedAt := startTime;
       sr_completedAt := now;
       sr_duration := now - startTime |} in
  emitEvent self {| ev_type := step_complete; ev_timestamp := now;
                    ev_data := Some (DStepResult stepResult);
                    ev_error := None |} ;;
  mret stepResult.

(** The try block of executeStep. *)
Definition executeStep_try (self : t) (step : WorkflowStep) (startTime : Z)
    : M state StepResult :=
  match condition step with
  | Some condition =>
      context ← the_context;
      log (LCondition (step_name step)) ;;
      shouldExecute ← await (condition context);
      if negb shouldExecute
      then
        now ← Date_now;
        mret {| sr_step := step_name step;
                sr_success := true;
                sr_data := Some VNull;
                sr_error := None;
                sr_startedAt := startTime;
                sr_completedAt := now;
                sr_duration := now - startTime |}
      else run_handler self step startTime
  | None => run_handler self step startTime
  end.

(** The catch block of executeStep. *)
Definition executeStep_catch (self : t) (step : WorkflowStep) (startTime : Z)
    (error : value) : M state StepResult :=
  let stepError := as_Error error in
  match step_onError step with
  | Some onError =>
      try_catch
        (context ← the_context;
         log (LStepOnError (step_name step)) ;;
         await (onError stepError context))
        (λ handlerError, log (LConsoleError "Error handler failed:"))
  | None => mret tt
  end ;;
  now ← Date_now;
  let stepResult :=
    {| sr_step := step_name step;
       sr_success := false;
       sr_data := None;
       sr_error := Some stepError;
       sr_startedAt := startTime;
       sr_completedAt := now;
       sr_duration := now - startTime |} in
  emitEvent self {| ev_type := step_error; ev_timestamp := now;
                    ev_data := Some (DStepResult stepResult);
                    ev_error := Some stepError |} ;;
  mret stepResult.

Definition executeStep (self : t) (step : WorkflowStep) : M state StepResult :=
  startTime ← Date_now;
  emitEvent self {| ev_type := step_start; ev_timestamp := startTime;
                    ev_data := Some (DStep (step_name step));
                    ev_error := None |} ;;
  try_catch (executeStep_try self step startTime)
            (executeStep_catch self step startTime).

Definition rollback (_steps : list StepResult) : M state unit :=
  log (LConsoleWarn "Rollback not implemented yet").

(** [throw stepResult.error] *)
Definition throw_error {A} (stepResult : StepResult) : M state A :=
  throw (default VUndefined (sr_error stepResult)).

(** [for (const step of this.steps) { ... }], the closure execute
    races against the timer. *)
Fixpoint run_steps (self : t) (todo : list WorkflowStep) : M state unit :=
  match todo with
  | [] => mret tt
  | step :: rest =>
      stepResult ← executeStep self step;
      push_stepResult stepResult ;;
      push_history stepResult ;;
      (if negb (sr_success stepResult)
       then match config_onError self with
            | Stop => throw_error stepResult
            | Rollback =>
                s ← get_obj;
                rollback (stepResults s) ;;
                throw_error stepResult
            | Continue => mret tt
            end
       else mret tt) ;;
      run_steps self rest
  end.

Definition executeWithTimeout {A} (fn : M state A) (timeout : Z) : M state A :=
  race "Workflow timeout" fn timeout.

(** The try block of execute. *)
Definition execute_try (self : t) (startTime : Z) : M state WorkflowResult :=
  executeWithTimeout (run_steps self (steps self)) (config_timeout self) ;;
  now ← Date_now;
  context ← the_context;
  s ← get_obj;
  let result :=
    {| wr_success := true;
       wr_data := Some (ctx_data context);
       wr_steps := stepResults s;
       wr_error := None;
       wr_executionTime := now - startTime |} in
  emitEvent self {| ev_type := workflow_complete; ev_timestamp := now;
                    ev_data := Some (DWorkflowResult result);
                    ev_error := None |} ;;
  mret result.

(** The catch block of execute. *)
Definition execute_catch (self : t) (startTime : Z) (error : value)
    : M state WorkflowResult :=
  now ← Date_now;
  let workflowError := as_Error error in
  s ← get_obj;
  let result :=
    {| wr_success := false;
       wr_data := None;
       wr_steps := stepResults s;
       wr_error := Some workflowError;
       wr_executionTime := now - startTime |} in
  emitEvent self {| ev_type := workflow_error; ev_timestamp := now;
                    ev_data := Some (DWorkflowResult result);
                    ev_error := Some workflowError |} ;;
  mret result.

Definition execute (self : t) (input : value)
    (initialContext : option PartialContext) : M state WorkflowResult :=
  startTime ← Date_now;
  id ← generateWorkflowId self;
  timestamp ← Date_now;
  set_obj {| context := Some {| ctx_id := id;
                                ctx_data := input;
                                ctx_metadata := default ∅ (initialContext ≫= p_metadata);
                                ctx_history := [];
                                ctx_timestamp := timestamp |};
             stepResults := [] |} ;;
  now ← Date_now;
  emitEvent self {| ev_type := workflow_start; ev_timestamp := now;
                    ev_data := Some (DWorkflow (config_name self)
                                               (length (steps self)));
                    ev_error := None |} ;;
  try_catch (execute_try self startTime) (execute_catch self startTime).

(** [getConfig()]: [{ ...this.config }]. *)
Definition getConfig (self : t) : WorkflowConfig :=
  {| wname := config_name self;
     wtimeout := Some (config_timeout self);
     onError := Some (config_onError self) |}.

(** [getContext()]: [this.context ? { ...this.context } : null]. *)
Definition getContext : M state (option AgentContext) :=
  s ← get_obj;
  mret (context s).

(** [clear()]: [this.steps = []; this.context = null;].  The object it
    leaves, and what it does to the field. *)
Definition clear (self : t) : t * M state unit :=
  (with_steps self [],
   s ← get_obj;
   set_obj {| context := None; stepResults := stepResults s |}).

End AgentWorkflow.

(** ** CRMAgent *)

(** CRMAgent (packages/crm/src/CRMAgent.ts) extends BaseAgent: it
    overrides initialize and close to bring its provider up and down, and
    wraps execute in one method per operation. *)
Module CRMAgent.

(** A CRM agent: its BaseAgent part (configuration, listeners and the
    method [run], which is where the other methods of the provider are
    called), and the two methods of [this.provider] that the agent calls
    outside [run]. *)
Record t := {
  agent : BaseAgent.t;
  provider_initialize : async unit;   (* this.provider.initialize() *)
  provider_close : async unit         (* this.provider.close() *)
}.

(** [await this.provider.initialize(); await super.initialize();] *)
Definition initialize (self : t) : M bool unit :=
  await (provider_initialize self) ;;
  BaseAgent.initialize (agent self).

(** execute is the method of BaseAgent; the [this.initialize()] in it is
    the override. *)
Definition execute (self : t) (input : value) (context : option PartialContext)
    : M bool AgentResult :=
  initialized ← get_obj;
  (if negb initialized then initialize self else mret tt) ;;
  id ← BaseAgent.generateContextId (agent self);
  timestamp ← Date_now;
  let executionContext :=
    {| ctx_id := id;
       ctx_data := input;
       ctx_metadata := default ∅ (context ≫= p_metadata);
       ctx_history := default [] (context ≫= p_history);
       ctx_timestamp := timestamp |} in
  startTime ← Date_now;
  try_catch (BaseAgent.execute_try (agent self) input executionContext startTime)
            (BaseAgent.execute_catch (agent self) executionContext startTime).

(** An object literal [{ ... }]: a new object in the heap. *)
Definition object (fields : gmap string value) : M bool value :=
  λ w, let a := fresh (dom (heap w)) in
       (set_heap (<[a := fields]> (heap w)) w, Res (VRef a)).

(** What the convenience methods do with the result of execute:
    [if (!result.success) { throw result.error; } return result.data;] *)
Definition unwrap (result : AgentResult) : M bool value :=
  if negb (ar_success result)
  then throw (default VUndefined (ar_error result))
  else mret (default VUndefined (ar_data result)).

(** [const result = await this.execute({ operation, data });] and the
    unwrapping, the body the convenience methods share. *)
Definition operation (self : t) (operation : string) (data : value) : M bool value :=
  input ← object {[ "operation" := VStr operation; "data" := data ]};
  result ← execute self input None;
  unwrap result.

Definition createLead (self : t) (lead : value) : M bool value :=
  operation self "createLead" lead.

Definition getLead (self : t) (id : value) : M bool value :=
  data ← object {[ "id" := id ]};
  operation self "getLead" data.

Definition updateLead (self : t) (id updates : value) : M bool value :=
  data ← object {[ "id" := id; "updates" := updates ]};
  operation self "updateLead" data.

(** deleteLead returns nothing. *)
Definition deleteLead (self : t) (id : value) : M bool unit :=
  data ← object {[ "id" := id ]};
  operation self "deleteLead" data ;;
  mret tt.

Definition searchLeads (self : t) (criteria : value) : M bool value :=
  operation self "searchLeads" criteria.

Definition createContact (self : t) (contact : value) : M bool value :=
  operation self "createContact" contact.

Definition getContact (self : t) (id : value) : M bool value :=
  data ← object {[ "id" := id ]};
  operation self "getContact" data.

Definition updateContact (self : t) (id updates : value) : M bool value :=
  data ← object {[ "id" := id; "updates" := updates ]};
  operation self "updateContact" data.

Definition createOpportunity (self : t) (opportunity : value) : M bool value :=
  operation self "createOpportunity" opportunity.

Definition getOpportunity (self : t) (id : value) : M bool value :=
  data ← object {[ "id" := id ]};
  operation self "getOpportunity" data.

Definition createAccount (self : t) (account : value) : M bool value :=
  operation self "createAccount" account.

Definition getAccount (self : t) (id : value) : M bool value :=
  data ← object {[ "id" := id ]};
  operation self "getAccount" data.

(** [await this.provider.close(); await super.close();], with the agent
    it leaves. *)
Definition close (self : t) : M bool t :=
  await (provider_close self) ;;
  (BaseAgent.close (agent self)).2 ;;
  mret {| agent := (BaseAgent.close (agent self)).1;
          provider_initialize := provider_initialize self;
          provider_close := provider_close self |}.

End CRMAgent.

(** ** Observations on a run *)

(** Listeners that never throw, and listeners that leave the heap alone. *)
Definition quiet (ls : Listeners) : Prop :=
  Forall (λ p : Channel * EventListener, ∀ ev h, (p.2 ev h).2 = Normal tt) ls.

Definition passive (ls : Listeners) : Prop :=
  Forall (λ p : Channel * EventListener, ∀ ev h, (p.2 ev h).1 = h) ls.

(** The heap the listeners of one name leave when none of them throws. *)
Fixpoint heap_after_calls (fns : list EventListener) (ev : AgentEvent) (h : store) : store :=
  match fns with
  | [] => h
  | fn :: rest => heap_after_calls rest ev ((fn ev h).1)
  end.

Definition heap_after_emit (ls : Listeners) (ch : Channel) (ev : AgentEvent) (h : store) : store :=
  heap_after_calls (snd <$> filter (λ p, fst p = ch) ls) ev h.

Definition heap_after_emitEvent (ls : Listeners) (ev : AgentEvent) (h : store) : store :=
  heap_after_emit ls (ChType (ev_type ev)) ev (heap_after_emit ls ChEvent ev h).

Definition add_log {O} (δ : list LogEntry) (w : world O) : world O :=
  World (obj w) (heap w) (clock w) (deadline w) (work_wins_ties w)
        (random w) (draws w) (trace w ++ δ).

(** The events of a log, in order of emission. *)
Definition events (tr : list LogEntry) : list AgentEvent :=
  omap (λ e, match e with LEmit ev => Some ev | _ => None end) tr.

(** The step an event is about, for the events of a step. *)
Definition event_step (ev : AgentEvent) : option (AgentEventType * string) :=
  match ev_data ev with
  | Some (DStep name) => Some (ev_type ev, name)
  | Some (DStepResult sr) => Some (ev_type ev, sr_step sr)
  | _ => None
  end.

Definition step_events (tr : list LogEntry) : list (AgentEventType * string) :=
  omap event_step (events tr).

(** The waits between retries. *)
Definition sleeps (tr : list LogEntry) : list Z :=
  omap (λ e, match e with LSleep ms => Some ms | _ => None end) tr.

(** How the calls of the work function settled, in order. *)
Definition run_outcomes (tr : list LogEntry) : list (completion value) :=
  omap (λ e, match e with LRunSettled c => Some c | _ => None end) tr.

(** The contexts the work function was called with. *)
Definition run_calls (tr : list LogEntry) : list AgentContext :=
  omap (λ e, match e with LRun c => Some c | _ => None end) tr.

(** The steps whose handler was called. *)
Definition handler_calls (tr : list LogEntry) : list string :=
  omap (λ e, match e with LHandler s => Some s | _ => None end) tr.

Definition is_warning (e : LogEntry) : bool :=
  match e with LConsoleWarn _ => true | _ => false end.

(** The error thrown when the retry loop is exhausted:
    [lastError || new AgentError('Execution failed', 'EXECUTION_FAILED')]. *)
Definition exhausted (lastError : value) : value :=
  if truthy lastError then lastError
  else VAgentError "Execution failed" "EXECUTION_FAILED" VUndefined.

(** [context.data] after a step that produced [sr]: a successful step
    that returned something other than null or undefined replaces it. *)
Definition data_step (d : value) (sr : StepResult) : value :=
  match sr_data sr with
  | Some v => if sr_success sr && negb (nullish v) then v else d
  | None => d
  end.

Definition data_after (input : value) (rs : list StepResult) : value :=
  foldl data_step input rs.

Definition with_data (c : AgentContext) (d : value) : AgentContext :=
  {| ctx_id := ctx_id c; ctx_data := d; ctx_metadata := ctx_metadata c;
     ctx_history := ctx_history c; ctx_timestamp := ctx_timestamp c |}.

(** A computation keeps an invariant of the heap and logs only entries of
    a given kind. *)
Definition keeps {O A} (P : store → Prop) (G : LogEntry → Prop) (m : M O A) : Prop :=
  ∀ w, P (heap w) → Forall G (trace w) →
       P (heap (m w).1) ∧ Forall G (trace (m w).1).

(** User code that keeps an invariant of the heap. *)
Definition async_keeps {A} (P : store → Prop) (f : async A) : Prop :=
  ∀ h, P h → P (f h).1.1.

Definition listeners_keep (P : store → Prop) (ls : Listeners) : Prop :=
  Forall (λ p : Channel * EventListener, ∀ ev h, P h → P (p.2 ev h).1) ls.

Definition succeeded (sr : StepResult) : Prop := sr_success sr = true.

(** The error of the race timer of a workflow. *)
Definition timeout_error : value :=
  VAgentError "Workflow timeout" "TIMEOUT" VUndefined.

Definition set_trace {O} (tr : list LogEntry) (w : world O) : world O :=
  World (obj w) (heap w) (clock w) (deadline w) (work_wins_ties w)
        (random w) (draws w) tr.

(** The line the rollback hook writes to the console. *)
Definition rollback_warning : LogEntry :=
  LConsoleWarn "Rollback not implemented yet".

(** Two ends of a computation that differ at most by a rollback warning
    logged just before the computation threw. *)
Definition same_or_warned {O A} (r s : world O * outcome A) : Prop :=
  r = s ∨ ∃ w e, s = (w, Exn e) ∧ r = (add_log [rollback_warning] w, Exn e).

(** The result and the event that the catch block of a workflow's execute
    builds in a world. *)
Definition catch_result (startTime : Z) (error : value)
    (w : world AgentWorkflow.state) : WorkflowResult :=
  {| wr_success := false; wr_data := None;
     wr_steps := AgentWorkflow.stepResults (obj w);
     wr_error := Some (AgentWorkflow.as_Error error);
     wr_executionTime := clock w - startTime |}.

Definition catch_event (startTime : Z) (error : value)
    (w : world AgentWorkflow.state) : AgentEvent :=
  {| ev_type := workflow_error; ev_timestamp := clock w;
     ev_data := Some (DWorkflowResult (catch_result startTime error w));
     ev_error := Some (AgentWorkflow.as_Error error) |}.

(** ** More observations *)

(** The steps whose error hook was called, and the lines written with
    console.error. *)
Definition hook_calls (tr : list LogEntry) : list string :=
  omap (λ e, match e with LStepOnError s => Some s | _ => None end) tr.

Definition console_errors (tr : list LogEntry) : list string :=
  omap (λ e, match e with LConsoleError m => Some m | _ => None end) tr.

(** The same world around another state of the engine object. *)
Definition with_obj {O} (o : O) (w : world O) : world O :=
  World o (heap w) (clock w) (deadline w) (work_wins_ties w)
        (random w) (draws w) (trace w).

(** The context execute of BaseAgent builds in a world. *)
Definition execution_context (self : BaseAgent.t) (input : value)
    (context : option PartialContext) (w : world bool) : AgentContext :=
  {| ctx_id := BaseAgent.config_name self +:+ "-" +:+ pretty (clock w) +:+ "-"
                 +:+ random w (draws w);
     ctx_data := input;
     ctx_metadata := default ∅ (context ≫= p_metadata);
     ctx_history := default [] (context ≫= p_history);
     ctx_timestamp := clock w |}.

(** The errors of validateInput and of the race timer of an agent. *)
Definition invalid_input_error : value :=
  VAgentError "Input cannot be null or undefined" "INVALID_INPUT" VUndefined.

Definition execution_timeout_error : value :=
  VAgentError "Execution timeout" "TIMEOUT" VUndefined.

Definition execution_failed_error : value :=
  VAgentError "Execution failed" "EXECUTION_FAILED" VUndefined.

(** The delays of the retry loop for the attempts 1 to [n]. *)
Definition retry_delays (retry : RetryConfig) (n : Z) : list Z :=
  (λ attempt, BaseAgent.calculateRetryDelay attempt retry) <$> seqZ 1 n.

(** What the catch block of executeStep logs for the error hook of a step:
    the call, and the console line if the hook itself throws. *)
Definition hook_log (step : WorkflowStep) (stepError : value) (c : AgentContext)
    (h : store) : list LogEntry :=
  match step_onError step with
  | Some onError =>
      LStepOnError (step_name step) ::
      match (onError stepError c h).2 with
      | Throw _ => [LConsoleError "Error handler failed:"]
      | Normal _ => []
      end
  | None => []
  end.

(** The StepResult and the events of a failed step. *)
Definition failed_result (step : WorkflowStep) (error : value)
    (startTime now : Z) : StepResult :=
  {| sr_step := step_name step; sr_success := false; sr_data := None;
     sr_error := Some (AgentWorkflow.as_Error error);
     sr_startedAt := startTime; sr_completedAt := now;
     sr_duration := now - startTime |}.

Definition step_start_event (step : WorkflowStep) (now : Z) : AgentEvent :=
  {| ev_type := step_start; ev_timestamp := now;
     ev_data := Some (DStep (step_name step)); ev_error := None |}.

Definition step_error_event (sr : StepResult) : AgentEvent :=
  {| ev_type := step_error; ev_timestamp := sr_completedAt sr;
     ev_data := Some (DStepResult sr); ev_error := sr_error sr |}.

Definition step_complete_event (sr : StepResult) : AgentEvent :=
  {| ev_type := step_complete; ev_timestamp := sr_completedAt sr;
     ev_data := Some (DStepResult sr); ev_error := None |}.

(** The step:start event of the step that left the result [sr]. *)
Definition step_started_event (sr : StepResult) : AgentEvent :=
  {| ev_type := step_start; ev_timestamp := sr_startedAt sr;
     ev_data := Some (DStep (sr_step sr)); ev_error := None |}.

(** The events of a step that left the result [sr]: step:start, and then
    step:error with the result for a failure; for a success step:complete
    with the result, or nothing, and then the data of the result is
    null. *)
Definition events_of_step (sr : StepResult) (evs : list AgentEvent) : Prop :=
  if sr_success sr
  then evs = [step_started_event sr; step_complete_event sr] ∨
       (evs = [step_started_event sr] ∧ sr_data sr = Some VNull)
  else evs = [step_started_event sr; step_error_event sr].

(** The user code of a step (handler, condition and error hook) keeps an
    invariant of the heap. *)
Definition step_keeps (P : store → Prop) (step : WorkflowStep) : Prop :=
  (∀ c, async_keeps P (handler step c)) ∧
  (∀ cond, condition step = Some cond → ∀ c, async_keeps P (cond c)) ∧
  (∀ hook, step_onError step = Some hook → ∀ e c, async_keeps P (hook e c)).

(** No restriction on what is logged. *)
Definition any_entry (e : LogEntry) : Prop := True.

(** ** Example agents and workflows *)

(** A world before anything ran: empty heap and log, clock at 0, no race
    pending. *)
Definition fresh {O} (o : O) : world O :=
  World o ∅ 0 None false (λ _, "k3x9p2q1z") 0%nat [].

Definition fresh_workflow : world AgentWorkflow.state :=
  fresh {| AgentWorkflow.context := None; AgentWorkflow.stepResults := [] |}.

(** A listener that returns, and one that throws on every event. *)
Definition silent_listener : EventListener := λ _ h, (h, Normal tt).
Definition throwing_listener : EventListener :=
  λ _ h, (h, Throw (VError "listener failed")).

(** A work function that counts its calls in the object at address 0,
    fails on the first two and succeeds on the third; each call takes 5ms. *)
Definition flaky_run : AgentContext → async value := λ _ h,
  match h !! 0%nat ≫= (.!! "calls") with
  | Some (VNum n) =>
      if n <? 2
      then (<[0%nat := {["calls" := VNum (n + 1)]}]> h, 5, Throw (VError "unavailable"))
      else (<[0%nat := {["calls" := VNum (n + 1)]}]> h, 5, Normal (VStr "done"))
  | _ => (<[0%nat := {["calls" := VNum 1]}]> h, 5, Throw (VError "unavailable"))
  end.

Definition flaky_agent : BaseAgent.t :=
  BaseAgent.with_listeners
    (BaseAgent.new
       {| name := "flaky"; timeout := None;
          retry := Some {| maxAttempts := 3; delay := 100;
                           backoff := Some Exponential; maxDelay := None |} |}
       flaky_run)
    (onEvent [] silent_listener).

Definition flaky_context : AgentContext :=
  {| ctx_id := "flaky-0-k3x9p2q1z"; ctx_data := VStr "lead"; ctx_metadata := ∅;
     ctx_history := []; ctx_timestamp := 0 |}.

(** A retry configuration capped at 0ms. *)
Definition capped_at_zero : RetryConfig :=
  {| maxAttempts := 3; delay := 1000; backoff := Some Exponential;
     maxDelay := Some 0 |}.

(** A work function that takes 1ms, returns "ok" and leaves the heap as it
    found it. *)
Definition steady_agent : BaseAgent.t :=
  BaseAgent.with_listeners
    (BaseAgent.new {| name := "steady"; timeout := None; retry := None |}
                   (λ _ h, (h, 1, Normal (VStr "ok"))))
    (onEvent [] silent_listener).

(** A work function that marks the lead it is given:
    [context.data.status = 'contacted'; return context.data]. *)
Definition tagging_run : AgentContext → async value := λ ctx h,
  match ctx_data ctx with
  | VRef a =>
      (<[a := <["status" := VStr "contacted"]> (default ∅ (h !! a))]> h, 1,
       Normal (VRef a))
  | _ => (h, 1, Normal VNull)
  end.

Definition tagging_agent : BaseAgent.t :=
  BaseAgent.new {| name := "tagger"; timeout := None; retry := None |} tagging_run.

(** A caller's lead object, stored at address 7. *)
Definition lead : gmap string value := {[ "email" := VStr "a@b.com" ]}.

Definition world_with_lead : world bool :=
  World false {[ 7%nat := lead ]} 0 None false (λ _, "k3x9p2q1z") 0%nat [].

(** The lead qualification pipeline of the example script, in small:
    a validation that wants a lead with a company, a score, and a step
    that runs only for a score of 60 or more. *)
Definition validate_lead : StepHandler := λ ctx h,
  match ctx_data ctx with
  | VRef a =>
      match h !! a ≫= (.!! "company") with
      | Some _ => (h, 2, Normal (ctx_data ctx))
      | None => (h, 2, Throw (VError "Email and company are required"))
      end
  | _ => (h, 2, Throw (VError "Email and company are required"))
  end.

Definition calculate_score : StepHandler := λ _ h, (h, 3, Normal (VNum 65)).

Definition score_at_least (n : Z) : AgentContext → async bool := λ ctx h,
  (h, 0, Normal (match ctx_data ctx with VNum s => n <=? s | _ => false end)).

Definition qualify : StepHandler := λ _ h, (h, 1, Normal (VStr "Qualified")).

(** Score first, then validate (which fails on a score), then qualify. *)
Definition scoring_pipeline (strategy : option ErrorStrategy) : AgentWorkflow.t :=
  AgentWorkflow.when
    (AgentWorkflow.step
       (AgentWorkflow.step
          (AgentWorkflow.with_listeners
             (AgentWorkflow.new {| wname := "lead-qualification";
                                   wtimeout := None; onError := strategy |})
             (onEvent [] silent_listener))
          "calculate-score" calculate_score None None)
       "validate-lead" validate_lead None None)
    (score_at_least 60) "qualify" qualify.

(** A score, and a step for scores of 100 or more. *)
Definition escalation_workflow : AgentWorkflow.t :=
  AgentWorkflow.when
    (AgentWorkflow.step
       (AgentWorkflow.new {| wname := "escalation"; wtimeout := None;
                             onError := None |})
       "calculate-score" calculate_score None None)
    (score_at_least 100) "escalate" qualify.

(** A listener that throws on step:complete only. *)
Definition strict_listener : EventListener := λ ev h,
  (h, if decide (ev_type ev = step_complete)
      then Throw (VError "listener failed") else Normal tt).

Definition scoring_workflow (ls : Listeners) : AgentWorkflow.t :=
  AgentWorkflow.step
    (AgentWorkflow.with_listeners
       (AgentWorkflow.new {| wname := "scoring"; wtimeout := None; onError := None |})
       ls)
    "calculate-score" calculate_score None None.

Definition noisy_agent : BaseAgent.t :=
  BaseAgent.with_listeners steady_agent (onEvent [] throwing_listener).

(** ** More example agents and workflows *)

(** A work function that is down: every call throws after 5ms.  Three
    attempts, exponential backoff from 100ms capped at 150ms. *)
Definition broken_agent : BaseAgent.t :=
  BaseAgent.with_listeners
    (BaseAgent.new
       {| name := "broken"; timeout := None;
          retry := Some {| maxAttempts := 3; delay := 100;
                           backoff := Some Exponential; maxDelay := Some 150 |} |}
       (λ _ h, (h, 5, Throw (VError "down"))))
    (onEvent [] silent_listener).

(** An agent configured to make no attempt at all. *)
Definition idle_agent : BaseAgent.t :=
  BaseAgent.with_listeners
    (BaseAgent.new
       {| name := "idle"; timeout := None;
          retry := Some {| maxAttempts := 0; delay := 100;
                           backoff := None; maxDelay := None |} |}
       (λ _ h, (h, 1, Normal (VStr "ok"))))
    (onEvent [] silent_listener).

(** A work function that takes 50ms under a timeout of 10ms. *)
Definition slow_agent : BaseAgent.t :=
  BaseAgent.with_listeners
    (BaseAgent.new {| name := "slow"; timeout := Some 10; retry := None |}
                   (λ _ h, (h, 50, Normal (VStr "late"))))
    (onEvent [] silent_listener).

(** Retry configurations: a cap of 2500ms, and one that names no backoff. *)
Definition capped_retry : RetryConfig :=
  {| maxAttempts := 5; delay := 1000; backoff := Some Exponential;
     maxDelay := Some 2500 |}.

Definition plain_retry : RetryConfig :=
  {| maxAttempts := 5; delay := 500; backoff := None; maxDelay := None |}.

(** A step whose handler throws a string and whose error hook throws
    too; a step whose condition throws. *)
Definition failing_hook : value → AgentContext → async unit :=
  λ _ _ h, (h, 1, Throw (VError "hook failed")).

Definition hooked_step : WorkflowStep :=
  {| step_name := "create-in-crm";
     handler := λ _ h, (h, 2, Throw (VStr "no such lead"));
     condition := None;
     step_onError := Some failing_hook |}.

Definition guarded_step : WorkflowStep :=
  {| step_name := "mark-as-qualified";
     handler := qualify;
     condition := Some (λ _ h, (h, 0, Throw (VError "no score")));
     step_onError := None |}.

(** A world in the middle of a run, outside any race. *)
Definition world_in_step : world AgentWorkflow.state :=
  fresh {| AgentWorkflow.context := Some flaky_context;
           AgentWorkflow.stepResults := [] |}.

(** A workflow without steps, and one whose first step takes 50ms under a
    timeout of 10ms. *)
Definition empty_workflow : AgentWorkflow.t :=
  AgentWorkflow.new {| wname := "empty"; wtimeout := None; onError := None |}.

Definition enrich : StepHandler := λ _ h, (h, 50, Normal (VStr "enriched")).

Definition slow_workflow : AgentWorkflow.t :=
  AgentWorkflow.step
    (AgentWorkflow.step
       (AgentWorkflow.new {| wname := "slow"; wtimeout := Some 10;
                             onError := None |})
       "enrich" enrich None None)
    "calculate-score" calculate_score None None.

(** CRM agents over the flaky work function: one whose provider cannot be
    brought up, and one whose provider comes up in 20ms and cannot be
    closed. *)
Definition provider_down : async unit :=
  λ h, (h, 20, Throw (VError "Failed to initialize Salesforce")).

Definition provider_up : async unit := λ h, (h, 20, Normal tt).

Definition unreachable_crm : CRMAgent.t :=
  {| CRMAgent.agent := flaky_agent;
     CRMAgent.provider_initialize := provider_down;
     CRMAgent.provider_close := λ h, (h, 0, Normal tt) |}.

Definition sticky_crm : CRMAgent.t :=
  {| CRMAgent.agent := flaky_agent;
     CRMAgent.provider_initialize := provider_up;
     CRMAgent.provider_close := λ h, (h, 5, Throw (VError "logout failed")) |}.

(** A workflow's world with the caller's lead in the heap. *)
Definition workflow_with_lead : world AgentWorkflow.state :=
  World {| AgentWorkflow.context := None; AgentWorkflow.stepResults := [] |}
        {[ 7%nat := lead ]} 0 None false (λ _, "k3x9p2q1z") 0%nat [].

(** * Properties *)

(** ** The monad *)

Ltac unfold_M := unfold mbind, M_bind, mret, M_ret in *.

Section MonadFacts.
Context {O : Type}.
Implicit Types w : world O.

Lemma bind_Res {A B} (m : M O A) (k : A → M O B) w w' a :
  m w = (w', Res a) → bind m k w = k a w'.
Proof. unfold bind. by intros ->. Qed.

Lemma bind_Exn {A B} (m : M O A) (k : A → M O B) w w' e :
  m w = (w', Exn e) → bind m k w = (w', Exn e).
Proof. unfold bind. by intros ->. Qed.

Lemma bind_Preempted {A B} (m : M O A) (k : A → M O B) w w' :
  m w = (w', Preempted) → bind m k w = (w', Preempted).
Proof. unfold bind. by intros ->. Qed.

Lemma try_catch_Res {A} (m : M O A) h w w' a :
  m w = (w', Res a) → try_catch m h w = (w', Res a).
Proof. unfold try_catch. by intros ->. Qed.

Lemma try_catch_Exn {A} (m : M O A) h w w' e :
  m w = (w', Exn e) → try_catch m h w = h e w'.
Proof. unfold try_catch. by intros ->. Qed.

Lemma try_catch_Preempted {A} (m : M O A) h w w' :
  m w = (w', Preempted) → try_catch m h w = (w', Preempted).
Proof. unfold try_catch. by intros ->. Qed.

Lemma await_eq {A} (f : async A) w :
  await f w =
    let '(h, ms, c) := f (heap w) in
    let t := clock w + Z.max 0 ms in
    if in_time w t
    then (set_heap h (set_clock t w), settle c)
    else (set_clock (default t (deadline w)) w, Preempted).
Proof.
  unfold await, wait. destruct (f (heap w)) as [[h ms] c]. simpl.
  by destruct (in_time w _).
Qed.

(** *** Listeners that do not throw *)

Lemma call_listeners_quiet (fns : list EventListener) ev w :
  Forall (λ fn : EventListener, ∀ ev h, (fn ev h).2 = Normal tt) fns →
  call_listeners fns ev w = (set_heap (heap_after_calls fns ev (heap w)) w, Res tt).
Proof.
  revert w. induction fns as [|fn fns IH]; intros w Hq.
  - by destruct w.
  - inversion_clear Hq as [|?? Hfn Hrest]. cbn [call_listeners heap_after_calls].
    unfold_M. unfold bind, call. specialize (Hfn ev (heap w)).
    destruct (fn ev (heap w)) as [h c]; simpl in *; subst c.
    rewrite IH by done. by destruct w.
Qed.

Lemma quiet_on (ls : Listeners) ch :
  quiet ls →
  Forall (λ fn : EventListener, ∀ ev h, (fn ev h).2 = Normal tt)
         (snd <$> filter (λ p, fst p = ch) ls).
Proof.
  intros Hq. apply Forall_fmap, Forall_forall. intros p Hp.
  apply list_elem_of_filter in Hp as [_ Hp].
  by eapply Forall_forall in Hq.
Qed.

Lemma emitEvent_quiet (ls : Listeners) ev w :
  quiet ls →
  emitEvent ls ev w =
    (set_heap (heap_after_emitEvent ls ev (heap w)) (add_log [LEmit ev] w), Res tt).
Proof.
  intros Hq. unfold emitEvent, emit. unfold_M. unfold bind at 1. simpl.
  unfold bind. rewrite !call_listeners_quiet by by apply quiet_on.
  by destruct w.
Qed.
End MonadFacts.

Section RaceFacts.
Context {O : Type}.

Lemma race_eq {A} message (fn : M O A) timeout (w : world O) :
  race message fn timeout w =
    match fn (add_log [LRace timeout]
               (set_deadline (Some (clock w + Z.max 0 timeout)) w)) with
    | (w', Res a) => (set_deadline (deadline w) w', Res a)
    | (w', Exn e) => (set_deadline (deadline w) w', Exn e)
    | (w', Preempted) =>
        (set_deadline (deadline w) w', Exn (VAgentError message "TIMEOUT" VUndefined))
    end.
Proof. by destruct w. Qed.

(** A race always settles: the timer sees to it. *)
Lemma race_settles {A} message (fn : M O A) timeout (w : world O) :
  (race message fn timeout w).2 ≠ Preempted.
Proof. rewrite race_eq. by destruct (fn _) as [w' [a|e|]]. Qed.
End RaceFacts.

(** ** Invariants of the heap and of the log *)

Section Keeps.
Context {O : Type}.
Variable P : store → Prop.
Variable G : LogEntry → Prop.

Local Abbreviation keeps := (keeps (O := O) P G).

Lemma keeps_ret {A} (a : A) : keeps (ret a).
Proof. by intros w. Qed.

Lemma keeps_mret {A} (a : A) : keeps (mret a).
Proof. by intros w. Qed.

Lemma keeps_throw {A} e : keeps (throw (A := A) e).
Proof. by intros w. Qed.

Lemma keeps_bind {A B} (m : M O A) (k : A → M O B) :
  keeps m → (∀ a, keeps (k a)) → keeps (bind m k).
Proof.
  intros Hm Hk w HP HG. unfold bind.
  destruct (Hm w HP HG) as [HP' HG'].
  destruct (m w) as [w' [a|e|]]; simpl in *; [by apply Hk|done|done].
Qed.

Lemma keeps_mbind {A B} (m : M O A) (k : A → M O B) :
  keeps m → (∀ a, keeps (k a)) → keeps (m ≫= k).
Proof. apply keeps_bind. Qed.

Lemma keeps_try_catch {A} (m : M O A) (h : value → M O A) :
  keeps m → (∀ e, keeps (h e)) → keeps (try_catch m h).
Proof.
  intros Hm Hh w HP HG. unfold try_catch.
  destruct (Hm w HP HG) as [HP' HG'].
  destruct (m w) as [w' [a|e|]]; simpl in *; [done|by apply Hh|done].
Qed.

Lemma keeps_get_obj : keeps get_obj.
Proof. by intros w. Qed.

Lemma keeps_set_obj o : keeps (set_obj o).
Proof. by intros w. Qed.

Lemma keeps_Date_now : keeps Date_now.
Proof. by intros w. Qed.

Lemma keeps_Math_random : keeps Math_random.
Proof. by intros w. Qed.

Lemma keeps_log e : G e → keeps (log e).
Proof.
  intros He w HP HG. simpl. split; [done|].
  apply Forall_app. split; [done|]. by constructor.
Qed.

Lemma keeps_wait ms : keeps (wait ms).
Proof. intros w HP HG. unfold wait. by destruct (in_time w _). Qed.

Lemma keeps_await {A} (f : async A) : async_keeps P f → keeps (await f).
Proof.
  intros Hf w HP HG. rewrite await_eq. specialize (Hf (heap w) HP).
  destruct (f (heap w)) as [[h ms] c]. simpl in *.
  by destruct (in_time w _).
Qed.

Lemma keeps_call {A} (f : sync A) : (∀ h, P h → P (f h).1) → keeps (call f).
Proof.
  intros Hf w HP HG. unfold call. specialize (Hf (heap w) HP).
  by destruct (f (heap w)) as [h c].
Qed.

Lemma keeps_call_listeners (fns : list EventListener) ev :
  Forall (λ fn : EventListener, ∀ ev h, P h → P (fn ev h).1) fns →
  keeps (call_listeners fns ev).
Proof.
  induction 1 as [|fn fns Hfn _ IH]; simpl.
  - apply keeps_mret.
  - apply keeps_mbind; [apply keeps_call, Hfn|]. by intros _.
Qed.

Lemma keeps_emit (ls : Listeners) ch ev :
  listeners_keep P ls → keeps (emit ls ch ev).
Proof.
  intros Hls. apply keeps_call_listeners, Forall_fmap, Forall_forall.
  intros p Hp. apply list_elem_of_filter in Hp as [_ Hp].
  by eapply Forall_forall in Hls.
Qed.

Lemma keeps_emitEvent (ls : Listeners) ev :
  listeners_keep P ls → G (LEmit ev) → keeps (emitEvent ls ev).
Proof.
  intros Hls Hev. unfold emitEvent.
  apply keeps_mbind; [by apply keeps_log|]. intros _.
  apply keeps_mbind; [by apply keeps_emit|]. intros _.
  by apply keeps_emit.
Qed.

Lemma keeps_race {A} message (fn : M O A) timeout :
  G (LRace timeout) → keeps fn → keeps (race message fn timeout).
Proof.
  intros Hrace Hfn w HP HG. rewrite race_eq.
  destruct (Hfn (add_log [LRace timeout]
                   (set_deadline (Some (clock w + Z.max 0 timeout)) w)))
    as [HP' HG'].
  - done.
  - simpl. apply Forall_app. split; [done|]. by constructor.
  - by destruct (fn _) as [w' [a|e|]].
Qed.
End Keeps.

Create HintDb keeps.
#[export] Hint Resolve keeps_ret keeps_mret keeps_throw keeps_get_obj keeps_set_obj
  keeps_Date_now keeps_Math_random keeps_wait keeps_log keeps_await
  keeps_emitEvent keeps_race : keeps.

Ltac keeps_step :=
  first
    [ solve [eauto with keeps]
    | apply keeps_mbind; [|intros ?]
    | apply keeps_try_catch; [|intros ?]
    | match goal with
      | |- keeps _ _ (if ?b then _ else _) => destruct b
      end ].

(** ** The retry delay *)

Lemma calculateRetryDelay_linear attempt retry :
  backoff retry = Some Linear →
  BaseAgent.calculateRetryDelay attempt retry = delay retry.
Proof. unfold BaseAgent.calculateRetryDelay. by intros ->. Qed.

Lemma calculateRetryDelay_uncapped attempt retry :
  backoff retry = Some Exponential → maxDelay retry = None →
  BaseAgent.calculateRetryDelay attempt retry = delay retry * 2 ^ (attempt - 1).
Proof.
  unfold BaseAgent.calculateRetryDelay, BaseAgent.maxDelay_or.
  intros -> ->. lia.
Qed.

Lemma calculateRetryDelay_capped attempt retry m :
  backoff retry = Some Exponential → maxDelay retry = Some m → m ≠ 0 →
  BaseAgent.calculateRetryDelay attempt retry
  = Z.min (delay retry * 2 ^ (attempt - 1)) m.
Proof.
  unfold BaseAgent.calculateRetryDelay, BaseAgent.maxDelay_or.
  intros -> -> Hm. simpl. by destruct (Z.eqb_spec m 0).
Qed.

Lemma calculateRetryDelay_cap_zero attempt retry :
  backoff retry = Some Exponential → maxDelay retry = Some 0 →
  BaseAgent.calculateRetryDelay attempt retry = delay retry * 2 ^ (attempt - 1).
Proof.
  unfold BaseAgent.calculateRetryDelay, BaseAgent.maxDelay_or.
  intros -> ->. simpl. lia.
Qed.

(** ** The retry loop *)

Section Retry.
Variable self : BaseAgent.t.
Variable ctx : AgentContext.

Lemma call_run_eq (w : world bool) :
  BaseAgent.call_run self ctx w =
    let '(h, ms, c) := BaseAgent.run self ctx (heap w) in
    let t := clock w + Z.max 0 ms in
    if in_time w t
    then (add_log [LRun ctx; LRunSettled c] (set_heap h (set_clock t w)), settle c)
    else (add_log [LRun ctx] (set_clock (default t (deadline w)) w), Preempted).
Proof.
  destruct w as [o h t d tie rnd k tr].
  unfold BaseAgent.call_run. unfold_M.
  unfold bind at 1. simpl. unfold try_catch, bind at 1. rewrite await_eq. simpl.
  destruct (BaseAgent.run self ctx h) as [[h' ms] c]. simpl.
  change (in_time (World o h t d tie rnd k (tr ++ [LRun ctx])) (t + 0 `max` ms))
    with (in_time (World o h t d tie rnd k tr) (t + 0 `max` ms)).
  destruct (in_time _ _) eqn:Hin; [|done].
  destruct c; simpl; unfold bind, log, throw, add_log, set_heap, set_clock; simpl;
    by rewrite <- app_assoc.
Qed.

Lemma sleep_eq ms (w : world bool) :
  BaseAgent.sleep ms w =
    let t := clock w + Z.max 0 ms in
    if in_time w t
    then (add_log [LSleep ms] (set_clock t w), Res tt)
    else (add_log [LSleep ms] (set_clock (default t (deadline w)) w), Preempted).
Proof.
  destruct w as [o h t d tie rnd k tr].
  unfold BaseAgent.sleep. unfold_M. unfold bind, wait, in_time. simpl.
  by destruct d as [d|]; simpl; [destruct (_ || _)|].
Qed.

Lemma last_cons_default {A} (x d : A) l : List.last (x :: l) d = List.last l x.
Proof.
  revert x d. induction l as [|y l IH]; intros x d; [done|].
  change (List.last (x :: y :: l) d) with (List.last (y :: l) d).
  by rewrite (IH y d), (IH y x).
Qed.

(** What the loop leaves in the log and how it ends, for any list of
    attempts still to make. *)
Lemma retry_loop_spec attempts : ∀ lastError (w w' : world bool) o,
  BaseAgent.retry_loop self ctx attempts lastError w = (w', o) →
  ∃ fails : list value,
    run_outcomes (trace w') =
      run_outcomes (trace w) ++ (Throw <$> fails)
        ++ match o with Res v => [Normal v] | _ => [] end ∧
    match o with
    | Res v =>
        (length fails < length attempts)%nat ∧
        run_calls (trace w') = run_calls (trace w) ++ replicate (S (length fails)) ctx
    | Exn e =>
        length fails = length attempts ∧
        run_calls (trace w') = run_calls (trace w) ++ replicate (length fails) ctx ∧
        e = exhausted (List.last fails lastError)
    | Preempted =>
        ∃ n, (1 ≤ n ≤ length attempts)%nat ∧
             (length fails ≤ n ≤ S (length fails))%nat ∧
             run_calls (trace w') = run_calls (trace w) ++ replicate n ctx
    end.
Proof.
  induction attempts as [|attempt rest IH]; intros lastError w w' o Hrun.
  - simpl in Hrun. unfold throw in Hrun. injection Hrun as <- <-.
    exists []. simpl. rewrite !app_nil_r. done.
  - cbn [BaseAgent.retry_loop] in Hrun. unfold try_catch in Hrun.
    rewrite call_run_eq in Hrun.
    destruct (BaseAgent.run self ctx (heap w)) as [[h ms] c].
    cbv zeta in Hrun.
    destruct (in_time w _) eqn:Hin.
    + destruct c as [v|e]; simpl in Hrun.
      * injection Hrun as <- <-. exists []. simpl.
        unfold run_outcomes, run_calls. rewrite !omap_app. simpl.
        split; [done|]. split; [lia|done].
      * unfold_M. unfold bind in Hrun.
        set (w1 := add_log _ _) in Hrun.
        assert (Hout1 : run_outcomes (trace w1) = run_outcomes (trace w) ++ [Throw e]).
        { unfold w1, run_outcomes. simpl. by rewrite omap_app. }
        assert (Hcall1 : run_calls (trace w1) = run_calls (trace w) ++ [ctx]).
        { unfold w1, run_calls. simpl. by rewrite omap_app. }
        clearbody w1.
        assert (Hnext : ∀ w2,
                   run_outcomes (trace w2) = run_outcomes (trace w1) →
                   run_calls (trace w2) = run_calls (trace w1) →
                   BaseAgent.retry_loop self ctx rest e w2 = (w', o) →
                   ∃ fails : list value,
                     run_outcomes (trace w') =
                       run_outcomes (trace w) ++ (Throw <$> fails)
                         ++ match o with Res v => [Normal v] | _ => [] end ∧
                     match o with
                     | Res v =>
                         (length fails < length (attempt :: rest))%nat ∧
                         run_calls (trace w') =
                           run_calls (trace w) ++ replicate (S (length fails)) ctx
                     | Exn e =>
                         length fails = length (attempt :: rest) ∧
                         run_calls (trace w') =
                           run_calls (trace w) ++ replicate (length fails) ctx ∧
                         e = exhausted (List.last fails lastError)
                     | Preempted =>
                         ∃ n, (1 ≤ n ≤ length (attempt :: rest))%nat ∧
                              (length fails ≤ n ≤ S (length fails))%nat ∧
                              run_calls (trace w') =
                                run_calls (trace w) ++ replicate n ctx
                     end).
        { intros w2 Hout2 Hcall2 Hloop.
          apply IH in Hloop as (fails & Ho & Hrest).
          exists (e :: fails). rewrite Ho, Hout2, Hout1, <- !app_assoc. simpl.
          split; [done|].
          destruct o as [v|e'|].
          - destruct Hrest as [Hlen Hc]. split; [lia|].
            by rewrite Hc, Hcall2, Hcall1, <- app_assoc.
          - destruct Hrest as (Hlen & Hc & ->). split; [lia|].
            split; [by rewrite Hc, Hcall2, Hcall1, <- app_assoc|].
            by rewrite <- (last_cons_default e lastError).
          - destruct Hrest as (n & Hn & Hlen & Hc).
            exists (S n). split; [simpl; lia|]. split; [simpl; lia|].
            by rewrite Hc, Hcall2, Hcall1, <- app_assoc. }
        destruct (attempt <? maxAttempts (BaseAgent.config_retry self)).
        -- rewrite sleep_eq in Hrun. cbv zeta in Hrun.
           destruct (in_time w1 _).
           ++ eapply Hnext; [| |exact Hrun];
                unfold run_outcomes, run_calls; simpl; rewrite omap_app;
                simpl; by rewrite app_nil_r.
           ++ injection Hrun as <- <-. exists [e]. simpl.
              unfold run_outcomes, run_calls in *. simpl.
              rewrite !omap_app. simpl. rewrite !app_nil_r.
              split; [done|]. exists 1%nat.
              split; [lia|]. split; [lia|done].
        -- simpl in Hrun. eapply Hnext; [done|done|exact Hrun].
    + injection Hrun as <- <-. exists []. simpl. rewrite !app_nil_r.
      split; [unfold run_outcomes; simpl; rewrite omap_app; simpl; by rewrite app_nil_r|].
      exists 1%nat. split; [simpl; lia|]. split; [simpl; lia|].
      unfold run_calls. simpl. by rewrite omap_app.
Qed.

(** Without a race timer, nothing leaves the loop pending. *)
Lemma in_time_no_deadline {O} (w : world O) t : deadline w = None → in_time w t = true.
Proof. unfold in_time. by intros ->. Qed.

Lemma retry_loop_no_deadline attempts : ∀ lastError (w : world bool),
  deadline w = None →
  (BaseAgent.retry_loop self ctx attempts lastError w).2 ≠ Preempted.
Proof.
  induction attempts as [|attempt rest IH]; intros lastError w Hnone; [done|].
  cbn [BaseAgent.retry_loop]. unfold try_catch. rewrite call_run_eq.
  destruct (BaseAgent.run self ctx (heap w)) as [[h ms] c]. cbv zeta.
  rewrite in_time_no_deadline by done.
  destruct c as [v|e]; simpl; [done|].
  unfold_M. unfold bind.
  destruct (attempt <? maxAttempts (BaseAgent.config_retry self)).
  - rewrite sleep_eq. cbv zeta. rewrite in_time_no_deadline by done.
    by apply IH.
  - simpl. by apply IH.
Qed.
End Retry.

(** ** execute of BaseAgent *)

Section AgentExecute.
Variable self : BaseAgent.t.
Hypothesis Hquiet : quiet (BaseAgent.listeners self).

Lemma agent_emitEvent_quiet ev (w : world bool) :
  BaseAgent.emitEvent self ev w =
    (set_heap (heap_after_emitEvent (BaseAgent.listeners self) ev (heap w))
              (add_log [LEmit ev] w), Res tt).
Proof. unfold BaseAgent.emitEvent. by apply emitEvent_quiet. Qed.

Lemma execute_catch_eq ectx startTime error (w : world bool) :
  let agentResult :=
    {| ar_success := false; ar_data := None;
       ar_error := Some (BaseAgent.normalizeError error);
       ar_metadata := ctx_metadata ectx;
       ar_executionTime := clock w - startTime |} in
  let event :=
    {| ev_type := agent_error; ev_timestamp := clock w;
       ev_data := Some (DAgentResult agentResult);
       ev_error := Some (BaseAgent.normalizeError error) |} in
  BaseAgent.execute_catch self ectx startTime error w =
    (set_heap (heap_after_emitEvent (BaseAgent.listeners self) event (heap w))
              (add_log [LEmit event] w), Res agentResult).
Proof.
  intros r ev. unfold BaseAgent.execute_catch. unfold_M.
  unfold bind at 1. simpl. unfold bind. fold r. fold ev.
  by rewrite agent_emitEvent_quiet.
Qed.

(** The try block ends with a successful result or with an exception.
    It succeeds only with the value the last call of the work function
    returned. *)
Lemma execute_try_cases input ectx startTime (w w' : world bool) o :
  BaseAgent.execute_try self input ectx startTime w = (w', o) →
  match o with
  | Res r => nullish input = false ∧ ar_success r = true ∧ ar_error r = None ∧
             ∃ v, ar_data r = Some v ∧
                  last (run_outcomes (trace w')) = Some (Normal v)
  | Exn e => True
  | Preempted => False
  end.
Proof.
  unfold BaseAgent.execute_try, BaseAgent.validateInput. unfold_M.
  destruct (nullish input).
  - unfold bind at 1, throw. by intros [= <- <-].
  - unfold bind at 1, ret. unfold bind at 1.
    unfold BaseAgent.executeWithTimeout. rewrite race_eq.
    destruct (BaseAgent.executeWithRetry self ectx _) as [w1 [v|e|]] eqn:Hretry.
    + unfold bind at 1. simpl. unfold bind.
      rewrite agent_emitEvent_quiet. intros [= <- <-].
      repeat split; try done. exists v. split; [done|].
      apply retry_loop_spec in Hretry as (fails & Hout & _).
      simpl. unfold run_outcomes in *. rewrite omap_app. simpl.
      rewrite app_nil_r, Hout, !app_assoc. apply last_snoc.
    + by intros [= <- <-].
    + by intros [= <- <-].
Qed.

Lemma execute_try_invalid input ectx startTime (w : world bool) :
  nullish input = true →
  BaseAgent.execute_try self input ectx startTime w =
    (w, Exn (VAgentError "Input cannot be null or undefined" "INVALID_INPUT" VUndefined)).
Proof.
  intros Hnull. unfold BaseAgent.execute_try, BaseAgent.validateInput.
  by rewrite Hnull.
Qed.

(** What execute does before its try block. *)
Lemma execute_prologue input pc (w : world bool) :
  ∃ (w1 : world bool) ectx,
    BaseAgent.execute self input pc w =
      try_catch (BaseAgent.execute_try self input ectx (clock w))
                (BaseAgent.execute_catch self ectx (clock w)) w1 ∧
    ctx_data ectx = input ∧
    clock w1 = clock w ∧
    ∃ evs, trace w1 = trace w ++ (LEmit <$> evs) ∧
           ev_type <$> evs = if obj w then [] else [agent_start].
Proof.
  destruct w as [init h t d tie rnd k tr].
  unfold BaseAgent.execute. unfold_M. unfold bind at 1. simpl.
  destruct init; simpl.
  - unfold bind at 1. simpl. unfold bind at 1. simpl. unfold bind at 1. simpl.
    unfold bind at 1. simpl.
    eexists _, _. split; [reflexivity|]. simpl. split; [done|]. split; [done|].
    exists []. by rewrite app_nil_r.
  - unfold bind at 1, BaseAgent.initialize. unfold_M.
    unfold bind at 1. simpl. unfold bind at 1. simpl.
    rewrite agent_emitEvent_quiet. simpl.
    unfold bind at 1. simpl. unfold bind at 1. simpl. unfold bind at 1. simpl.
    eexists _, _. split; [reflexivity|]. simpl. split; [done|]. split; [done|].
    by eexists [_].
Qed.
End AgentExecute.

Section AgentResults.
Variable self : BaseAgent.t.
Hypothesis Hquiet : quiet (BaseAgent.listeners self).

Lemma normalizeError_AgentError error :
  ∃ m c d, BaseAgent.normalizeError error = VAgentError m c d.
Proof.
  unfold BaseAgent.normalizeError.
  destruct error; simpl; eauto.
Qed.

(** execute always hands back a result; a successful one carries the
    value of the last call of the work function. *)
Lemma agent_execute_returns input pc (w : world bool) :
  ∃ w' r,
    BaseAgent.execute self input pc w = (w', Res r) ∧
    if ar_success r
    then nullish input = false ∧ ar_error r = None ∧
         ∃ v, ar_data r = Some v ∧
              last (run_outcomes (trace w')) = Some (Normal v)
    else ar_data r = None ∧ ∃ m c d, ar_error r = Some (VAgentError m c d).
Proof.
  destruct (execute_prologue self Hquiet input pc w)
    as (w1 & ectx & -> & _).
  unfold try_catch.
  destruct (BaseAgent.execute_try self input ectx (clock w) w1)
    as [w2 [r|e|]] eqn:Htry;
    pose proof (execute_try_cases self Hquiet _ _ _ _ _ _ Htry) as Hcases.
  - destruct Hcases as (Hin & Hs & He & v & Hv & Hlast).
    exists w2, r. split; [done|]. rewrite Hs. eauto.
  - rewrite (execute_catch_eq self Hquiet). eexists _, _. split; [done|].
    simpl. split; [done|].
    destruct (normalizeError_AgentError e) as (m & c & d & ->). eauto.
  - done.
Qed.
End AgentResults.

(** ** What execute of BaseAgent leaves alone *)

Section AgentKeeps.
Variable self : BaseAgent.t.
Variable P : store → Prop.
Variable G : LogEntry → Prop.
Variable input : value.

Hypothesis Hrun : ∀ ctx, async_keeps P (BaseAgent.run self ctx).
Hypothesis Hlisteners : listeners_keep P (BaseAgent.listeners self).
Hypothesis Hother : ∀ e, (∀ ctx, e ≠ LRun ctx) → G e.
Hypothesis Hcall : ∀ ctx, ctx_data ctx = input → G (LRun ctx).

Local Hint Extern 1 (G _) => (apply Hother; intros ?; discriminate) : keeps.
Local Hint Resolve Hrun Hlisteners Hcall : keeps.

Lemma keeps_agent_emitEvent ev : keeps P G (BaseAgent.emitEvent self ev).
Proof. unfold BaseAgent.emitEvent. eauto with keeps. Qed.

Local Hint Resolve keeps_agent_emitEvent : keeps.

Lemma keeps_call_run ctx :
  ctx_data ctx = input → keeps P G (BaseAgent.call_run self ctx).
Proof. intros Hctx. unfold BaseAgent.call_run. repeat keeps_step. Qed.

Lemma keeps_sleep ms : keeps P G (BaseAgent.sleep ms).
Proof. unfold BaseAgent.sleep. repeat keeps_step. Qed.

Lemma keeps_retry_loop ctx attempts :
  ctx_data ctx = input →
  ∀ lastError, keeps P G (BaseAgent.retry_loop self ctx attempts lastError).
Proof.
  intros Hctx. induction attempts as [|attempt rest IH]; intros lastError; simpl.
  - eauto with keeps.
  - apply keeps_try_catch; [by apply keeps_call_run|]. intros e.
    apply keeps_mbind; [|by intros _].
    destruct (_ <? _); [apply keeps_sleep | eauto with keeps].
Qed.

Lemma keeps_execute pc : keeps P G (BaseAgent.execute self input pc).
Proof.
  unfold BaseAgent.execute, BaseAgent.initialize, BaseAgent.generateContextId,
    BaseAgent.execute_try, BaseAgent.execute_catch, BaseAgent.validateInput,
    BaseAgent.executeWithTimeout, BaseAgent.executeWithRetry.
  repeat keeps_step.
  apply keeps_race; [eauto with keeps|]. by apply keeps_retry_loop.
Qed.
End AgentKeeps.

(** ** Steps of a workflow *)

Lemma with_data_id c : with_data c (ctx_data c) = c.
Proof. by destruct c. Qed.

Lemma data_step_failed d sr : sr_data sr = None → data_step d sr = d.
Proof. unfold data_step. by intros ->. Qed.

Lemma handler_calls_app δ1 δ2 :
  handler_calls (δ1 ++ δ2) = handler_calls δ1 ++ handler_calls δ2.
Proof. apply omap_app. Qed.

Section WorkflowSteps.
Variable self : AgentWorkflow.t.
Hypothesis Hquiet : quiet (AgentWorkflow.listeners self).

Implicit Types w : world AgentWorkflow.state.

Lemma workflow_emitEvent_quiet ev w :
  AgentWorkflow.emitEvent self ev w =
    (set_heap (heap_after_emitEvent (AgentWorkflow.listeners self) ev (heap w))
              (add_log [LEmit ev] w), Res tt).
Proof. unfold AgentWorkflow.emitEvent. by apply emitEvent_quiet. Qed.

Lemma run_handler_spec step startTime w w' o c :
  AgentWorkflow.context (obj w) = Some c →
  AgentWorkflow.run_handler self step startTime w = (w', o) →
  ∃ δ, trace w' = trace w ++ δ ∧
       AgentWorkflow.stepResults (obj w') = AgentWorkflow.stepResults (obj w) ∧
       handler_calls δ = [step_name step] ∧
       match o with
       | Res sr =>
           AgentWorkflow.context (obj w') =
             Some (with_data c (data_step (ctx_data c) sr)) ∧
           sr_step sr = step_name step ∧ sr_success sr = true ∧
           sr_error sr = None ∧
           last δ = Some (LEmit {| ev_type := step_complete;
                                   ev_timestamp := sr_completedAt sr;
                                   ev_data := Some (DStepResult sr);
                                   ev_error := None |})
       | _ => AgentWorkflow.context (obj w') = Some c
       end.
Proof.
  destruct w as [[octx ors] h t d tie rnd k tr]. simpl. intros ->.
  unfold AgentWorkflow.run_handler. unfold_M.
  unfold bind at 1. simpl. unfold bind at 1. simpl.
  unfold bind at 1. rewrite await_eq. simpl.
  destruct (handler step c h) as [[h' ms] [v|e]]; simpl.
  - destruct (in_time _ _); simpl.
    + unfold bind at 1.
      destruct (nullish v) eqn:Hnull; simpl.
      * unfold bind at 1. simpl. unfold bind at 1.
        rewrite workflow_emitEvent_quiet. simpl.
        intros [= <- <-]. simpl. eexists. split; [by rewrite <- !app_assoc|].
        simpl. unfold data_step. simpl. rewrite Hnull. simpl.
        by rewrite with_data_id.
      * unfold bind at 1. simpl. unfold bind at 1.
        rewrite workflow_emitEvent_quiet. simpl.
        intros [= <- <-]. simpl. eexists. split; [by rewrite <- !app_assoc|].
        simpl. unfold data_step. simpl. by rewrite Hnull.
    + intros [= <- <-]. simpl. by eexists.
  - destruct (in_time _ _); simpl; intros [= <- <-]; simpl; by eexists.
Qed.

Lemma executeStep_try_spec step startTime w w' o c :
  AgentWorkflow.context (obj w) = Some c →
  AgentWorkflow.executeStep_try self step startTime w = (w', o) →
  ∃ δ, trace w' = trace w ++ δ ∧
       AgentWorkflow.stepResults (obj w') = AgentWorkflow.stepResults (obj w) ∧
       handler_calls δ `sublist_of` [step_name step] ∧
       match o with
       | Res sr =>
           AgentWorkflow.context (obj w') =
             Some (with_data c (data_step (ctx_data c) sr)) ∧
           sr_step sr = step_name step ∧ sr_success sr = true ∧
           sr_error sr = None
       | _ => AgentWorkflow.context (obj w') = Some c
       end.
Proof.
  intros Hctx. unfold AgentWorkflow.executeStep_try.
  assert (∀ w1 δ1, trace w1 = trace w ++ δ1 → handler_calls δ1 = [] →
            AgentWorkflow.context (obj w1) = Some c →
            AgentWorkflow.stepResults (obj w1) = AgentWorkflow.stepResults (obj w) →
            AgentWorkflow.run_handler self step startTime w1 = (w', o) →
            ∃ δ, trace w' = trace w ++ δ ∧
                 AgentWorkflow.stepResults (obj w') = AgentWorkflow.stepResults (obj w) ∧
                 handler_calls δ `sublist_of` [step_name step] ∧
                 match o with
                 | Res sr =>
                     AgentWorkflow.context (obj w') =
                       Some (with_data c (data_step (ctx_data c) sr)) ∧
                     sr_step sr = step_name step ∧ sr_success sr = true ∧
                     sr_error sr = None
                 | _ => AgentWorkflow.context (obj w') = Some c
                 end) as Hhandler.
  { intros w1 δ1 Htr Hδ1 Hc1 Hrs1 Hrun.
    eapply run_handler_spec in Hrun as (δ & Htr' & Hrs & Hcalls & Ho); [|done].
    exists (δ1 ++ δ). rewrite Htr', Htr, app_assoc. split; [done|].
    split; [congruence|]. rewrite handler_calls_app, Hδ1, Hcalls. split; [done|].
    destruct o as [sr| |]; [|done|done]. by destruct Ho as (? & ? & ? & ? & ?). }
  destruct (condition step) as [cond|]; cycle 1.
  { apply (Hhandler w []); [by rewrite app_nil_r|done..]. }
  destruct w as [[octx ors] h t d tie rnd k tr]. simpl in Hctx. subst octx.
  unfold_M. unfold bind at 1. simpl. unfold bind at 1. simpl.
  unfold bind at 1. rewrite await_eq. simpl.
  destruct (cond c h) as [[h' ms] [b|e]]; simpl.
  - destruct (in_time _ _); simpl.
    + destruct b; simpl.
      * apply (Hhandler _ [LCondition (step_name step)]); done.
      * unfold bind, Date_now, ret. simpl. intros [= <- <-]. simpl.
        eexists. split; [done|]. simpl. split; [done|].
        split; [apply sublist_nil_l|].
        unfold data_step. simpl. by rewrite with_data_id.
    + intros [= <- <-]. simpl. eexists. split; [done|]. simpl.
      split; [done|]. split; [apply sublist_nil_l|done].
  - destruct (in_time _ _); simpl; intros [= <- <-]; simpl;
      (eexists; split; [done|]; simpl; split; [done|];
       split; [apply sublist_nil_l|done]).
Qed.

Lemma as_Error_is_Error error : instanceof_Error (AgentWorkflow.as_Error error) = true.
Proof.
  unfold AgentWorkflow.as_Error.
  by destruct (instanceof_Error error) eqn:He.
Qed.

Lemma as_Error_of_Error error :
  instanceof_Error error = true → AgentWorkflow.as_Error error = error.
Proof. unfold AgentWorkflow.as_Error. by intros ->. Qed.

Lemma executeStep_catch_spec step startTime error w w' o c :
  AgentWorkflow.context (obj w) = Some c →
  AgentWorkflow.executeStep_catch self step startTime error w = (w', o) →
  ∃ δ, trace w' = trace w ++ δ ∧
       AgentWorkflow.stepResults (obj w') = AgentWorkflow.stepResults (obj w) ∧
       handler_calls δ = [] ∧
       AgentWorkflow.context (obj w') = Some c ∧
       match o with
       | Res sr =>
           sr_step sr = step_name step ∧ sr_success sr = false ∧
           sr_data sr = None ∧
           sr_error sr = Some (AgentWorkflow.as_Error error)
       | Exn _ => False
       | Preempted => True
       end.
Proof.
  destruct w as [[octx ors] h t d tie rnd k tr]. simpl. intros ->.
  unfold AgentWorkflow.executeStep_catch. unfold_M.
  destruct (step_onError step) as [hook|].
  - unfold bind at 1, try_catch. unfold bind at 1. simpl.
    unfold bind at 1. simpl. rewrite await_eq. simpl.
    destruct (hook _ c h) as [[h' ms] [[]|e]]; simpl;
      (destruct (in_time _ _); simpl;
       [ unfold bind at 1; simpl; unfold bind at 1;
         rewrite workflow_emitEvent_quiet; simpl;
         intros [= <- <-]; simpl; eexists;
         (split; [by rewrite <- !app_assoc|]); done
       | intros [= <- <-]; simpl; by eexists ]).
  - unfold bind at 1. simpl. unfold bind at 1. simpl. unfold bind at 1.
    rewrite workflow_emitEvent_quiet. simpl.
    intros [= <- <-]. simpl. by eexists.
Qed.

(** One step, when no listener throws: it is never executeStep that
    throws; a failed step is a result. *)
Lemma executeStep_spec step w w' o c :
  AgentWorkflow.context (obj w) = Some c →
  AgentWorkflow.executeStep self step w = (w', o) →
  ∃ δ, trace w' = trace w ++ δ ∧
       AgentWorkflow.stepResults (obj w') = AgentWorkflow.stepResults (obj w) ∧
       handler_calls δ `sublist_of` [step_name step] ∧
       match o with
       | Res sr =>
           AgentWorkflow.context (obj w') =
             Some (with_data c (data_step (ctx_data c) sr)) ∧
           sr_step sr = step_name step ∧
           if sr_success sr then sr_error sr = None
           else sr_data sr = None ∧
                ∃ e, sr_error sr = Some e ∧ instanceof_Error e = true
       | Exn _ => False
       | Preempted => AgentWorkflow.context (obj w') = Some c
       end.
Proof.
  intros Hctx. unfold AgentWorkflow.executeStep. unfold_M.
  unfold bind at 1. simpl. unfold bind.
  rewrite workflow_emitEvent_quiet. unfold try_catch.
  set (w1 := set_heap _ _).
  assert (trace w1 = trace w ++ [LEmit {| ev_type := step_start;
                                          ev_timestamp := clock w;
                                          ev_data := Some (DStep (step_name step));
                                          ev_error := None |}]) as Htr1 by done.
  assert (AgentWorkflow.context (obj w1) = Some c) as Hctx1 by done.
  assert (AgentWorkflow.stepResults (obj w1) = AgentWorkflow.stepResults (obj w))
    as Hrs1 by done.
  clearbody w1.
  destruct (AgentWorkflow.executeStep_try self step (clock w) w1)
    as [w2 [sr|e|]] eqn:Htry;
    eapply executeStep_try_spec in Htry as (δ & Htr2 & Hrs2 & Hcalls & Ho);
    try exact Hctx1.
  - intros [= <- <-]. eexists (_ :: δ).
    rewrite Htr2, Htr1, <- app_assoc. split; [done|]. split; [congruence|].
    split; [exact Hcalls|].
    destruct Ho as (? & ? & -> & ?). done.
  - intros Hcatch.
    eapply executeStep_catch_spec in Hcatch as (δ' & Htr3 & Hrs3 & Hcalls' & Hctx3 & Ho');
      [|exact Ho].
    eexists (_ :: δ ++ δ').
    rewrite Htr3, Htr2, Htr1, <- !app_assoc. split; [done|]. split; [congruence|].
    split.
    { change (handler_calls (δ ++ δ') `sublist_of` [step_name step]).
      by rewrite handler_calls_app, Hcalls', app_nil_r. }
    destruct o as [sr| |]; [|done|done].
    destruct Ho' as (Hname & Hs & Hd & He). rewrite Hs.
    rewrite data_step_failed, with_data_id by done.
    repeat split; try done. eexists. split; [done|]. apply as_Error_is_Error.
  - intros [= <- <-]. eexists (_ :: δ).
    rewrite Htr2, Htr1, <- app_assoc. split; [done|]. split; [congruence|].
    split; [exact Hcalls|done].
Qed.

(** The loop over the steps, when no listener throws. *)
Lemma run_steps_spec todo : ∀ w w' o c,
  AgentWorkflow.context (obj w) = Some c →
  AgentWorkflow.run_steps self todo w = (w', o) →
  ∃ rs δ c',
    AgentWorkflow.stepResults (obj w') = AgentWorkflow.stepResults (obj w) ++ rs ∧
    trace w' = trace w ++ δ ∧
    AgentWorkflow.context (obj w') = Some c' ∧
    ctx_data c' = data_after (ctx_data c) rs ∧
    sr_step <$> rs = step_name <$> take (length rs) todo ∧
    match o with
    | Res _ =>
        length rs = length todo ∧
        handler_calls δ `sublist_of` (step_name <$> todo) ∧
        (AgentWorkflow.config_onError self ≠ Continue → Forall succeeded rs)
    | Exn e =>
        AgentWorkflow.config_onError self ≠ Continue ∧
        (length rs ≤ length todo)%nat ∧
        handler_calls δ `sublist_of` (step_name <$> take (length rs) todo) ∧
        ∃ rs0 sr, rs = rs0 ++ [sr] ∧ Forall succeeded rs0 ∧
                  sr_success sr = false ∧ sr_error sr = Some e ∧
                  instanceof_Error e = true
    | Preempted =>
        (length rs < length todo)%nat ∧
        handler_calls δ `sublist_of` (step_name <$> take (S (length rs)) todo) ∧
        (AgentWorkflow.config_onError self ≠ Continue → Forall succeeded rs)
    end.
Proof.
  induction todo as [|step rest IH]; intros w w' o c Hctx Hrun.
  - simpl in Hrun. injection Hrun as <- <-.
    exists [], [], c. rewrite !app_nil_r. repeat split; try done.
  - cbn [AgentWorkflow.run_steps] in Hrun. unfold_M. unfold bind at 1 in Hrun.
    destruct (AgentWorkflow.executeStep self step w) as [w1 o1] eqn:Hstep.
    pose proof (executeStep_spec _ _ _ _ _ Hctx Hstep)
      as (δ1 & Htr1 & Hrs1 & Hcalls1 & Ho1).
    clear Hstep. destruct o1 as [sr|e|]; [|done|]; cycle 1.
    { injection Hrun as <- <-. exists [], δ1, c. rewrite app_nil_r.
      repeat split; try done; simpl; lia. }
    destruct Ho1 as (Hctx1 & Hname & Hshape).
    destruct w1 as [[octx1 ors1] h1 t1 d1 tie1 rnd1 k1 tr1].
    simpl in Htr1, Hrs1, Hctx1. subst octx1 ors1 tr1.
    unfold bind at 1 in Hrun. simpl in Hrun.
    unfold bind at 1 in Hrun. simpl in Hrun.
    unfold bind at 1 in Hrun.
    set (c2 := {| ctx_id := _ |}) in Hrun.
    assert (ctx_data c2 = data_step (ctx_data c) sr) as Hdata2 by done.
    clearbody c2.
    destruct (sr_success sr) eqn:Hok; simpl in Hrun.
    + (* the step succeeded *)
      eapply IH in Hrun as (rs & δ & c' & Hrs & Htr & Hctx' & Hdata & Hnames & Ho);
        [|done].
      simpl in Hrs, Htr. exists (sr :: rs), (δ1 ++ δ), c'.
      rewrite Hrs, Htr, <- !app_assoc. split; [done|]. split; [done|].
      split; [done|]. split; [by rewrite Hdata, Hdata2|].
      split; [cbn [length take]; rewrite !fmap_cons; by rewrite Hname, Hnames|].
      rewrite handler_calls_app.
      destruct o as [[]|e|].
      * destruct Ho as (Hlen & Hcalls & Hall). split; [simpl; lia|].
        split; [cbn [length take]; rewrite fmap_cons; by apply (sublist_app _ [_])|].
        intros Hs. constructor; [done|auto].
      * destruct Ho as (Hs & Hlen & Hcalls & rs0 & sr' & -> & Hall & Hfail).
        split; [done|]. split; [simpl; lia|].
        split; [cbn [length take]; rewrite fmap_cons; by apply (sublist_app _ [_])|].
        exists (sr :: rs0), sr'. split; [done|]. split; [by constructor|done].
      * destruct Ho as (Hlen & Hcalls & Hall). split; [simpl; lia|].
        split; [cbn [length take]; rewrite fmap_cons; by apply (sublist_app _ [_])|].
        intros Hs. constructor; [done|auto].
    + (* the step failed *)
      destruct Hshape as (Hnodata & e & Herr & HisErr).
      assert (data_step (ctx_data c) sr = ctx_data c) as Hsame
        by by apply data_step_failed.
      destruct (AgentWorkflow.config_onError self) eqn:Hstrategy; simpl in Hrun.
      * (* stop *)
        unfold AgentWorkflow.throw_error in Hrun. rewrite Herr in Hrun.
        simpl in Hrun. unfold bind, throw in Hrun. simpl in Hrun.
        injection Hrun as <- <-. simpl.
        exists [sr], δ1, c2. split; [done|]. split; [done|]. split; [done|].
        split; [by rewrite Hdata2|]. split; [cbn [length take]; rewrite !fmap_cons; by rewrite Hname|].
        split; [done|]. split; [simpl; lia|]. split; [done|].
        exists [], sr. repeat split; try done; constructor.
      * (* continue *)
        eapply IH in Hrun as (rs & δ & c' & Hrs & Htr & Hctx' & Hdata & Hnames & Ho);
          [|done].
        simpl in Hrs, Htr. exists (sr :: rs), (δ1 ++ δ), c'.
        rewrite Hrs, Htr, <- !app_assoc. split; [done|]. split; [done|].
        split; [done|]. split; [by rewrite Hdata, Hdata2|].
        split; [cbn [length take]; rewrite !fmap_cons; by rewrite Hname, Hnames|].
        rewrite handler_calls_app.
        destruct o as [[]|e'|].
        -- destruct Ho as (Hlen & Hcalls & Hall). split; [simpl; lia|].
           split; [cbn [length take]; rewrite fmap_cons; by apply (sublist_app _ [_])|]. done.
        -- by destruct Ho as (Hs & _).
        -- destruct Ho as (Hlen & Hcalls & Hall). split; [simpl; lia|].
           split; [cbn [length take]; rewrite fmap_cons; by apply (sublist_app _ [_])|]. done.
      * (* rollback *)
        unfold AgentWorkflow.throw_error, AgentWorkflow.rollback in Hrun.
        rewrite Herr in Hrun. unfold_M.
        unfold bind, throw in Hrun. simpl in Hrun.
        injection Hrun as <- <-. simpl.
        exists [sr], (δ1 ++ [LConsoleWarn "Rollback not implemented yet"]), c2.
        split; [done|]. split; [by rewrite <- app_assoc|]. split; [done|].
        split; [by rewrite Hdata2|]. split; [cbn [length take]; rewrite !fmap_cons; by rewrite Hname|].
        split; [done|]. split; [simpl; lia|].
        split; [by rewrite handler_calls_app, app_nil_r|].
        exists [], sr. repeat split; try done; constructor.
Qed.

(** A step whose condition returns false: the result is a success with
    data null, the context is as it was, the handler is not called, and
    the only event is step:start. *)
Lemma executeStep_skip step cond w c h' ms :
  AgentWorkflow.context (obj w) = Some c →
  condition step = Some cond →
  let start := {| ev_type := step_start; ev_timestamp := clock w;
                  ev_data := Some (DStep (step_name step)); ev_error := None |} in
  cond c (heap_after_emitEvent (AgentWorkflow.listeners self) start (heap w))
    = (h', ms, Normal false) →
  in_time w (clock w + Z.max 0 ms) = true →
  ∃ w',
    AgentWorkflow.executeStep self step w =
      (w', Res {| sr_step := step_name step; sr_success := true;
                  sr_data := Some VNull; sr_error := None;
                  sr_startedAt := clock w;
                  sr_completedAt := clock w + Z.max 0 ms;
                  sr_duration := clock w + Z.max 0 ms - clock w |}) ∧
    trace w' = trace w ++ [LEmit start; LCondition (step_name step)] ∧
    obj w' = obj w ∧ heap w' = h'.
Proof.
  destruct w as [[octx ors] h t d tie rnd k tr]. simpl.
  intros -> Hcond Hskip Hin.
  unfold AgentWorkflow.executeStep. unfold_M.
  unfold bind at 1. simpl. unfold bind at 1.
  rewrite workflow_emitEvent_quiet. simpl.
  unfold try_catch, AgentWorkflow.executeStep_try. rewrite Hcond. unfold_M.
  unfold bind at 1. simpl. unfold bind at 1. simpl.
  unfold bind at 1. rewrite await_eq. simpl. rewrite Hskip.
  change (in_time _ (t + 0 `max` ms))
    with (in_time (World {| AgentWorkflow.context := Some c;
                            AgentWorkflow.stepResults := ors |}
                         h t d tie rnd k tr) (t + 0 `max` ms)).
  rewrite Hin. simpl. unfold bind, Date_now, ret. simpl.
  eexists. split; [reflexivity|]. simpl. by rewrite <- app_assoc.
Qed.

(** ** execute of AgentWorkflow *)

Lemma workflow_execute_catch_eq startTime error w :
  let result :=
    {| wr_success := false; wr_data := None;
       wr_steps := AgentWorkflow.stepResults (obj w);
       wr_error := Some (AgentWorkflow.as_Error error);
       wr_executionTime := clock w - startTime |} in
  let event :=
    {| ev_type := workflow_error; ev_timestamp := clock w;
       ev_data := Some (DWorkflowResult result);
       ev_error := Some (AgentWorkflow.as_Error error) |} in
  AgentWorkflow.execute_catch self startTime error w =
    (set_heap (heap_after_emitEvent (AgentWorkflow.listeners self) event (heap w))
              (add_log [LEmit event] w), Res result).
Proof.
  intros r ev. unfold AgentWorkflow.execute_catch. unfold_M.
  unfold bind at 1. simpl. unfold bind at 1. simpl. unfold bind.
  fold r. fold ev. by rewrite workflow_emitEvent_quiet.
Qed.

(** How the try block of execute ends: with the successful result, or
    with the error of the step that failed, or with the timeout. *)
Lemma workflow_execute_try_spec startTime w w' o c :
  AgentWorkflow.context (obj w) = Some c →
  AgentWorkflow.stepResults (obj w) = [] →
  AgentWorkflow.execute_try self startTime w = (w', o) →
  ∃ δ, trace w' = trace w ++ δ ∧
    let rs := AgentWorkflow.stepResults (obj w') in
    sr_step <$> rs = step_name <$> take (length rs) (AgentWorkflow.steps self) ∧
    match o with
    | Res r =>
        wr_success r = true ∧ wr_steps r = rs ∧ wr_error r = None ∧
        wr_data r = Some (data_after (ctx_data c) rs) ∧
        length rs = length (AgentWorkflow.steps self) ∧
        handler_calls δ `sublist_of` (step_name <$> AgentWorkflow.steps self) ∧
        (AgentWorkflow.config_onError self ≠ Continue → Forall succeeded rs) ∧
        last δ = Some (LEmit {| ev_type := workflow_complete;
                                ev_timestamp := clock w';
                                ev_data := Some (DWorkflowResult r);
                                ev_error := None |})
    | Exn e =>
        instanceof_Error e = true ∧
        ((e = timeout_error ∧
          (length rs < length (AgentWorkflow.steps self))%nat ∧
          handler_calls δ `sublist_of`
            (step_name <$> take (S (length rs)) (AgentWorkflow.steps self)) ∧
          (AgentWorkflow.config_onError self ≠ Continue → Forall succeeded rs))
         ∨
         (AgentWorkflow.config_onError self ≠ Continue ∧
          handler_calls δ `sublist_of`
            (step_name <$> take (length rs) (AgentWorkflow.steps self)) ∧
          ∃ rs0 sr, rs = rs0 ++ [sr] ∧ Forall succeeded rs0 ∧
                    sr_success sr = false ∧ sr_error sr = Some e))
    | Preempted => False
    end.
Proof.
  intros Hctx Hrs0. unfold AgentWorkflow.execute_try. unfold_M.
  unfold bind at 1. unfold AgentWorkflow.executeWithTimeout. rewrite race_eq.
  set (w0 := add_log _ _).
  destruct (AgentWorkflow.run_steps self (AgentWorkflow.steps self) w0)
    as [w1 o1] eqn:Hloop.
  eapply (run_steps_spec _ _ _ _ c) in Hloop
      as (rs & δ & c' & Hrs & Htr & Hctx' & Hdata & Hnames & Ho); [|done].
  change (trace w0) with (trace w ++ [LRace (AgentWorkflow.config_timeout self)]) in Htr.
  change (AgentWorkflow.stepResults (obj w0))
    with (AgentWorkflow.stepResults (obj w)) in Hrs.
  rewrite Hrs0 in Hrs. simpl in Hrs. clearbody w0.
  destruct w1 as [[octx1 ors1] h1 t1 d1 tie1 rnd1 k1 tr1].
  simpl in Hrs, Htr, Hctx'. subst octx1 ors1 tr1.
  destruct o1 as [[]|e|].
  - destruct Ho as (Hlen & Hcalls & Hall).
    unfold bind at 1. simpl. unfold bind at 1. simpl. unfold bind at 1. simpl.
    unfold bind at 1. rewrite workflow_emitEvent_quiet. simpl.
    intros [= <- <-]. simpl. eexists. split; [by rewrite <- !app_assoc|].
    split; [done|]. rewrite Hdata. repeat split; try done.
    + rewrite handler_calls_app. simpl. rewrite handler_calls_app. simpl.
      by rewrite app_nil_r.
    + by rewrite !app_assoc, last_snoc.
  - destruct Ho as (Hs & Hlen & Hcalls & rs0 & sr & -> & Hall & Hfail & Herr & HisErr).
    intros [= <- <-]. simpl. eexists. split; [by rewrite <- !app_assoc|].
    split; [done|]. split; [done|]. right. split; [done|]. split; [done|].
    by exists rs0, sr.
  - destruct Ho as (Hlen & Hcalls & Hall).
    intros [= <- <-]. simpl. eexists. split; [by rewrite <- !app_assoc|].
    split; [done|]. split; [done|]. by left.
Qed.

Lemma workflow_execute_prologue input pc w :
  ∃ w1 c start,
    AgentWorkflow.execute self input pc w =
      try_catch (AgentWorkflow.execute_try self (clock w))
                (AgentWorkflow.execute_catch self (clock w)) w1 ∧
    AgentWorkflow.context (obj w1) = Some c ∧
    AgentWorkflow.stepResults (obj w1) = [] ∧
    ctx_data c = input ∧
    trace w1 = trace w ++ [LEmit start] ∧
    ev_type start = workflow_start.
Proof.
  destruct w as [o h t d tie rnd k tr].
  unfold AgentWorkflow.execute. unfold_M.
  unfold bind at 1. simpl. unfold bind at 1. simpl. unfold bind at 1. simpl.
  unfold bind at 1. simpl. unfold bind at 1. simpl. unfold bind at 1.
  rewrite workflow_emitEvent_quiet. simpl.
  eexists _, _, _. split; [reflexivity|]. done.
Qed.

(** What execute returns and leaves in the log, when no listener
    throws. *)
Lemma workflow_execute_spec input pc w :
  ∃ w' r δ,
    AgentWorkflow.execute self input pc w = (w', Res r) ∧
    trace w' = trace w ++ δ ∧
    sr_step <$> wr_steps r =
      step_name <$> take (length (wr_steps r)) (AgentWorkflow.steps self) ∧
    last δ = Some (LEmit {| ev_type := if wr_success r then workflow_complete
                                       else workflow_error;
                            ev_timestamp := clock w';
                            ev_data := Some (DWorkflowResult r);
                            ev_error := wr_error r |}) ∧
    if wr_success r
    then
      wr_error r = None ∧
      wr_data r = Some (data_after input (wr_steps r)) ∧
      length (wr_steps r) = length (AgentWorkflow.steps self) ∧
      handler_calls δ `sublist_of` (step_name <$> AgentWorkflow.steps self) ∧
      (AgentWorkflow.config_onError self ≠ Continue →
       Forall succeeded (wr_steps r))
    else
      wr_data r = None ∧
      ∃ e, wr_error r = Some e ∧ instanceof_Error e = true ∧
        ((e = timeout_error ∧
          (length (wr_steps r) < length (AgentWorkflow.steps self))%nat ∧
          handler_calls δ `sublist_of`
            (step_name <$> take (S (length (wr_steps r))) (AgentWorkflow.steps self)) ∧
          (AgentWorkflow.config_onError self ≠ Continue →
           Forall succeeded (wr_steps r)))
         ∨
         (AgentWorkflow.config_onError self ≠ Continue ∧
          handler_calls δ `sublist_of`
            (step_name <$> take (length (wr_steps r)) (AgentWorkflow.steps self)) ∧
          ∃ rs0 sr, wr_steps r = rs0 ++ [sr] ∧ Forall succeeded rs0 ∧
                    sr_success sr = false ∧ sr_error sr = Some e)).
Proof.
  destruct (workflow_execute_prologue input pc w)
    as (w1 & c & start & -> & Hctx & Hrs & Hdata & Htr & _).
  unfold try_catch.
  destruct (AgentWorkflow.execute_try self (clock w) w1) as [w2 o] eqn:Htry.
  eapply workflow_execute_try_spec in Htry as (δ & Htr2 & Hnames & Ho); try done.
  destruct o as [r|e|]; [| |done].
  - destruct Ho as (Hs & Hsteps & Herr & Hd & Hlen & Hcalls & Hall & Hlast).
    exists w2, r, (LEmit start :: δ). split; [done|].
    rewrite Htr2, Htr, <- app_assoc. split; [done|].
    rewrite Hsteps, Hs, Herr, Hd, <- Hdata. split; [done|].
    split. { destruct δ; [done|]. by rewrite last_cons, Hlast. }
    done.
  - destruct Ho as (HisErr & Ho).
    rewrite workflow_execute_catch_eq. eexists _, _, (LEmit start :: δ ++ [_]).
    split; [reflexivity|]. simpl.
    split; [by rewrite Htr2, Htr, <- !app_assoc|]. split; [done|].
    split. { by rewrite last_cons, last_snoc. }
    split; [done|]. rewrite as_Error_of_Error by done.
    exists e. split; [done|]. split; [done|].
    rewrite handler_calls_app. simpl. rewrite app_nil_r.
    destruct Ho as [(-> & ? & ? & ?) | (? & ? & ?)]; [left|right]; done.
Qed.
End WorkflowSteps.

(** ** The strategy rollback *)

Section EmitTrace.
Context {O : Type}.
Implicit Types w : world O.

(** Listeners neither read nor write the log. *)
Lemma call_listeners_set_trace (fns : list EventListener) ev tr w :
  call_listeners fns ev (set_trace tr w) =
    (set_trace tr (call_listeners fns ev w).1, (call_listeners fns ev w).2) ∧
  trace (call_listeners fns ev w).1 = trace w.
Proof.
  revert w. induction fns as [|fn fns IH]; intros w; [done|].
  cbn [call_listeners]. unfold_M. unfold bind, call. simpl.
  destruct (fn ev (heap w)) as [h [[]|e]]; simpl; [|done].
  destruct (IH (set_heap h w)) as [IH1 IH2]. split; [|done].
  by rewrite <- IH1.
Qed.

Lemma emitEvent_eq (ls : Listeners) ev w :
  emitEvent ls ev w =
    match call_listeners (snd <$> filter (λ p, fst p = ChEvent) ls) ev
                         (add_log [LEmit ev] w) with
    | (w', Res _) =>
        call_listeners (snd <$> filter (λ p, fst p = ChType (ev_type ev)) ls) ev w'
    | (w', Exn e) => (w', Exn e)
    | (w', Preempted) => (w', Preempted)
    end.
Proof. by destruct w. Qed.

Lemma emitEvent_add_log (ls : Listeners) ev x w :
  emitEvent ls ev (add_log [x] w) =
    (set_trace (trace w ++ [x; LEmit ev]) (emitEvent ls ev w).1,
     (emitEvent ls ev w).2) ∧
  trace (emitEvent ls ev w).1 = trace w ++ [LEmit ev].
Proof.
  rewrite !emitEvent_eq.
  set (fns1 := snd <$> filter _ ls). set (fns2 := snd <$> filter _ ls).
  replace (add_log [LEmit ev] (add_log [x] w))
    with (set_trace (trace w ++ [x; LEmit ev]) (add_log [LEmit ev] w))
    by (destruct w; unfold set_trace, add_log; simpl; by rewrite <- app_assoc).
  destruct (call_listeners_set_trace fns1 ev (trace w ++ [x; LEmit ev])
              (add_log [LEmit ev] w)) as [-> Htr1].
  destruct (call_listeners fns1 ev (add_log [LEmit ev] w)) as [w2 [[]|e|]];
    simpl in *; [|done|done].
  destruct (call_listeners_set_trace fns2 ev (trace w ++ [x; LEmit ev]) w2)
    as [-> Htr2].
  by rewrite Htr2, Htr1.
Qed.
End EmitTrace.

Section Rollback.
Variable self : AgentWorkflow.t.

Local Abbreviation stopping := (AgentWorkflow.with_onError self Stop).
Local Abbreviation rolling := (AgentWorkflow.with_onError self Rollback).

Implicit Types w : world AgentWorkflow.state.

(** A step does not look at the strategy. *)
Lemma executeStep_with_onError s step :
  AgentWorkflow.executeStep (AgentWorkflow.with_onError self s) step
  = AgentWorkflow.executeStep self step.
Proof. reflexivity. Qed.

Lemma run_steps_rollback todo : ∀ w,
  same_or_warned (AgentWorkflow.run_steps rolling todo w)
                 (AgentWorkflow.run_steps stopping todo w).
Proof.
  induction todo as [|step rest IH]; intros w; [by left|].
  cbn [AgentWorkflow.run_steps]. unfold_M.
  change (AgentWorkflow.executeStep rolling step)
    with (AgentWorkflow.executeStep self step).
  change (AgentWorkflow.executeStep stopping step)
    with (AgentWorkflow.executeStep self step).
  destruct (AgentWorkflow.executeStep self step w) as [w1 [sr|e|]] eqn:Hstep.
  - rewrite !(bind_Res _ _ _ _ _ Hstep).
    destruct w1 as [[[c|] ors] h t d tie rnd k tr]; [|by left].
    unfold bind at 1 4. simpl. unfold bind at 1 3. simpl.
    destruct (sr_success sr); simpl.
    + apply IH.
    + right. by eexists _, _.
  - rewrite !(bind_Exn _ _ _ _ _ Hstep). by left.
  - rewrite !(bind_Preempted _ _ _ _ Hstep). by left.
Qed.

Lemma race_warned {A} message (fr fs : M AgentWorkflow.state A) timeout w :
  (∀ w0, same_or_warned (fr w0) (fs w0)) →
  same_or_warned (race message fr timeout w) (race message fs timeout w).
Proof.
  intros Hrel. rewrite !race_eq.
  destruct (Hrel (add_log [LRace timeout]
                    (set_deadline (Some (clock w + 0 `max` timeout)) w)))
    as [-> | (w1 & e & -> & ->)]; [by left|].
  right. by eexists _, _.
Qed.

Lemma execute_try_rollback startTime w :
  same_or_warned (AgentWorkflow.execute_try rolling startTime w)
                 (AgentWorkflow.execute_try stopping startTime w).
Proof.
  unfold AgentWorkflow.execute_try, AgentWorkflow.executeWithTimeout.
  unfold_M. unfold bind at 1 6.
  destruct (race_warned "Workflow timeout"
              (AgentWorkflow.run_steps rolling (AgentWorkflow.steps self))
              (AgentWorkflow.run_steps stopping (AgentWorkflow.steps self))
              (AgentWorkflow.config_timeout self) w
              (run_steps_rollback (AgentWorkflow.steps self)))
    as [Heq | (w1 & e & Hs & Hr)].
  - simpl in Heq |- *. rewrite Heq. by left.
  - simpl in Hs, Hr |- *. rewrite Hs, Hr. right. by eexists _, _.
Qed.

Lemma execute_catch_unfold X startTime error w :
  AgentWorkflow.execute_catch X startTime error w =
    match emitEvent (AgentWorkflow.listeners X) (catch_event startTime error w) w with
    | (w', Res _) => (w', Res (catch_result startTime error w))
    | (w', Exn e) => (w', Exn e)
    | (w', Preempted) => (w', Preempted)
    end.
Proof. by destruct w. Qed.

Lemma execute_catch_add_log X startTime error x w :
  AgentWorkflow.execute_catch X startTime error (add_log [x] w) =
    (set_trace (trace w ++ [x; LEmit (catch_event startTime error w)])
               (AgentWorkflow.execute_catch X startTime error w).1,
     (AgentWorkflow.execute_catch X startTime error w).2) ∧
  trace (AgentWorkflow.execute_catch X startTime error w).1
    = trace w ++ [LEmit (catch_event startTime error w)].
Proof.
  rewrite !execute_catch_unfold.
  change (catch_event startTime error (add_log [x] w))
    with (catch_event startTime error w).
  change (catch_result startTime error (add_log [x] w))
    with (catch_result startTime error w).
  destruct (emitEvent_add_log (AgentWorkflow.listeners X)
              (catch_event startTime error w) x w) as [-> Htr].
  by destruct (emitEvent _ _ w) as [w1 [[]|e|]].
Qed.

(** What execute does before its try block, whatever the listeners. *)
Lemma execute_unfold X input pc w :
  ∃ w0 start,
    AgentWorkflow.execute X input pc w =
      match emitEvent (AgentWorkflow.listeners X) start w0 with
      | (w1, Res _) =>
          try_catch (AgentWorkflow.execute_try X (clock w))
                    (AgentWorkflow.execute_catch X (clock w)) w1
      | (w1, Exn e) => (w1, Exn e)
      | (w1, Preempted) => (w1, Preempted)
      end ∧
    w0 = World {| AgentWorkflow.context :=
                    Some {| ctx_id := AgentWorkflow.config_name X +:+ "-"
                                      +:+ pretty (clock w) +:+ "-"
                                      +:+ random w (draws w);
                            ctx_data := input;
                            ctx_metadata := default ∅ (pc ≫= p_metadata);
                            ctx_history := [];
                            ctx_timestamp := clock w |};
                  AgentWorkflow.stepResults := [] |}
               (heap w) (clock w) (deadline w) (work_wins_ties w)
               (random w) (S (draws w)) (trace w) ∧
    start = {| ev_type := workflow_start; ev_timestamp := clock w;
               ev_data := Some (DWorkflow (AgentWorkflow.config_name X)
                                          (length (AgentWorkflow.steps X)));
               ev_error := None |}.
Proof. destruct w. by eexists _, _. Qed.
End Rollback.

(** ** Listeners *)

Section ListenerFacts.
Context {O : Type}.
Implicit Types w : world O.

(** The first listener that throws ends the emission with its
    exception. *)
Lemma call_listeners_throw (quiet_fns : list EventListener) fn rest ev e w :
  Forall (λ fn : EventListener, ∀ ev h, (fn ev h).2 = Normal tt) quiet_fns →
  (∀ h, (fn ev h).2 = Throw e) →
  (call_listeners quiet_fns ev w).2 = Res tt ∧
  (call_listeners (quiet_fns ++ fn :: rest) ev w).2 = Exn e.
Proof.
  intros Hq Hthrow. revert w.
  induction Hq as [|q qs Hquiet _ IH]; intros w; simpl; unfold_M; unfold bind, call.
  - split; [done|]. specialize (Hthrow (heap w)).
    destruct (fn ev (heap w)) as [h c]. simpl in *. by subst c.
  - specialize (Hquiet ev (heap w)).
    destruct (q ev (heap w)) as [h c]. simpl in *. subst c. simpl. apply IH.
Qed.

Lemma emitEvent_throw (pre : Listeners) fn rest ev e w :
  quiet pre →
  (∀ h, (fn ev h).2 = Throw e) →
  (emitEvent (pre ++ (ChEvent, fn) :: rest) ev w).2 = Exn e.
Proof.
  intros Hq Hthrow. rewrite emitEvent_eq.
  rewrite filter_app, filter_cons_True, fmap_app, fmap_cons by done. simpl.
  destruct (call_listeners_throw (snd <$> filter (λ p, p.1 = ChEvent) pre) fn
              (snd <$> filter (λ p, p.1 = ChEvent) rest) ev e
              (add_log [LEmit ev] w)) as [_ Hexn]; [by apply quiet_on|done|].
  by destruct (call_listeners _ ev _) as [w1 [[]|e1|]]; simpl in *; try congruence.
Qed.

(** Listeners that neither throw nor write to the heap might as well
    not be there. *)
Lemma heap_after_calls_passive (fns : list EventListener) ev h :
  Forall (λ fn : EventListener, ∀ ev h, (fn ev h).1 = h) fns →
  heap_after_calls fns ev h = h.
Proof.
  induction 1 as [|fn fns Hfn _ IH]; simpl; [done|]. by rewrite Hfn.
Qed.

Lemma heap_after_emitEvent_passive (ls : Listeners) ev h :
  passive ls → heap_after_emitEvent ls ev h = h.
Proof.
  intros Hp. unfold heap_after_emitEvent, heap_after_emit.
  assert (∀ ch, Forall (λ fn : EventListener, ∀ ev h, (fn ev h).1 = h)
                       (snd <$> filter (λ p, p.1 = ch) ls)) as Hfns.
  { intros ch. apply Forall_fmap, Forall_forall. intros p Hin.
    apply list_elem_of_filter in Hin as [_ Hin]. by eapply Forall_forall in Hp. }
  by rewrite !heap_after_calls_passive.
Qed.

Lemma emitEvent_passive (ls : Listeners) :
  quiet ls → passive ls → emitEvent (O := O) ls = emitEvent [].
Proof.
  intros Hq Hp. extensionality ev. extensionality w.
  rewrite !emitEvent_quiet by (done || constructor).
  by rewrite heap_after_emitEvent_passive.
Qed.
End ListenerFacts.

Section AgentListeners.
Variable self : BaseAgent.t.
Hypothesis Hquiet : quiet (BaseAgent.listeners self).
Hypothesis Hpassive : passive (BaseAgent.listeners self).

Local Abbreviation bare := (BaseAgent.with_listeners self []).

Lemma agent_emitEvent_passive : BaseAgent.emitEvent self = BaseAgent.emitEvent bare.
Proof. unfold BaseAgent.emitEvent. simpl. by apply emitEvent_passive. Qed.

Lemma retry_loop_bare : BaseAgent.retry_loop self = BaseAgent.retry_loop bare.
Proof.
  extensionality ctx. extensionality attempts.
  induction attempts as [|attempt rest IH]; [done|].
  extensionality lastError. cbn [BaseAgent.retry_loop]. by rewrite IH.
Qed.

Lemma agent_execute_bare input pc :
  BaseAgent.execute self input pc = BaseAgent.execute bare input pc.
Proof.
  unfold BaseAgent.execute, BaseAgent.initialize, BaseAgent.execute_try,
    BaseAgent.execute_catch, BaseAgent.executeWithRetry.
  by rewrite agent_emitEvent_passive, retry_loop_bare.
Qed.
End AgentListeners.

Section WorkflowListeners.
Variable self : AgentWorkflow.t.
Hypothesis Hquiet : quiet (AgentWorkflow.listeners self).
Hypothesis Hpassive : passive (AgentWorkflow.listeners self).

Local Abbreviation bare := (AgentWorkflow.with_listeners self []).

Lemma workflow_emitEvent_passive :
  AgentWorkflow.emitEvent self = AgentWorkflow.emitEvent bare.
Proof. unfold AgentWorkflow.emitEvent. simpl. by apply emitEvent_passive. Qed.

Lemma executeStep_bare :
  AgentWorkflow.executeStep self = AgentWorkflow.executeStep bare.
Proof.
  extensionality step.
  unfold AgentWorkflow.executeStep, AgentWorkflow.executeStep_try,
    AgentWorkflow.executeStep_catch, AgentWorkflow.run_handler.
  by rewrite workflow_emitEvent_passive.
Qed.

Lemma run_steps_bare : AgentWorkflow.run_steps self = AgentWorkflow.run_steps bare.
Proof.
  extensionality todo.
  induction todo as [|step rest IH]; [done|].
  cbn [AgentWorkflow.run_steps]. by rewrite executeStep_bare, IH.
Qed.

Lemma workflow_execute_bare input pc :
  AgentWorkflow.execute self input pc = AgentWorkflow.execute bare input pc.
Proof.
  unfold AgentWorkflow.execute, AgentWorkflow.execute_try,
    AgentWorkflow.execute_catch.
  by rewrite workflow_emitEvent_passive, run_steps_bare.
Qed.
End WorkflowListeners.

(** ** More on the retry loop *)

Lemma events_app δ1 δ2 : events (δ1 ++ δ2) = events δ1 ++ events δ2.
Proof. apply omap_app. Qed.

Lemma sleeps_app δ1 δ2 : sleeps (δ1 ++ δ2) = sleeps δ1 ++ sleeps δ2.
Proof. apply omap_app. Qed.

Lemma run_calls_app δ1 δ2 : run_calls (δ1 ++ δ2) = run_calls δ1 ++ run_calls δ2.
Proof. apply omap_app. Qed.

Lemma run_outcomes_app δ1 δ2 :
  run_outcomes (δ1 ++ δ2) = run_outcomes δ1 ++ run_outcomes δ2.
Proof. apply omap_app. Qed.

Section RetryMore.
Variable self : BaseAgent.t.
Variable ctx : AgentContext.

(** The loop emits no event and leaves the field [initialized] alone. *)
Lemma retry_loop_frame attempts : ∀ lastError (w w' : world bool) o,
  BaseAgent.retry_loop self ctx attempts lastError w = (w', o) →
  events (trace w') = events (trace w) ∧ obj w' = obj w.
Proof.
  induction attempts as [|attempt rest IH]; intros lastError w w' o Hrun.
  - simpl in Hrun. unfold throw in Hrun. by injection Hrun as <- <-.
  - cbn [BaseAgent.retry_loop] in Hrun. unfold try_catch in Hrun.
    rewrite call_run_eq in Hrun.
    destruct (BaseAgent.run self ctx (heap w)) as [[h ms] c]. cbv zeta in Hrun.
    destruct (in_time w _).
    + destruct c as [v|e]; simpl in Hrun.
      * injection Hrun as <- <-. simpl. by rewrite events_app, app_nil_r.
      * unfold_M. unfold bind in Hrun.
        destruct (attempt <? _).
        -- rewrite sleep_eq in Hrun. cbv zeta in Hrun.
           destruct (in_time _ _).
           ++ apply IH in Hrun as [-> ->]. simpl.
              by rewrite !events_app, !app_nil_r.
           ++ injection Hrun as <- <-. simpl.
              by rewrite !events_app, !app_nil_r.
        -- simpl in Hrun. apply IH in Hrun as [-> ->]. simpl.
           by rewrite !events_app, !app_nil_r.
    + injection Hrun as <- <-. simpl. by rewrite events_app, app_nil_r.
Qed.

(** The waits of the loop, counted from attempt [a] with [n] attempts to
    go: one after each call that threw but the last possible one. *)
Lemma retry_loop_sleeps n : ∀ a lastError (w w' : world bool) o,
  1 ≤ a →
  a + Z.of_nat n = Z.max 0 (maxAttempts (BaseAgent.config_retry self)) + 1 →
  BaseAgent.retry_loop self ctx (seqZ a (Z.of_nat n)) lastError w = (w', o) →
  o ≠ Preempted →
  ∃ calls : nat,
    (calls ≤ n)%nat ∧ (n ≠ 0 → calls ≠ 0)%nat ∧
    run_calls (trace w') = run_calls (trace w) ++ replicate calls ctx ∧
    sleeps (trace w') =
      sleeps (trace w) ++
        ((λ attempt, BaseAgent.calculateRetryDelay attempt (BaseAgent.config_retry self))
           <$> seqZ a (Z.of_nat calls - 1)).
Proof.
  induction n as [|n IH]; intros a lastError w w' o Ha Hn Hrun Hends.
  - simpl in Hrun. unfold throw in Hrun. injection Hrun as <- <-.
    exists 0%nat. simpl. by rewrite !app_nil_r.
  - rewrite seqZ_cons in Hrun by lia.
    replace (Z.pred (Z.of_nat (S n))) with (Z.of_nat n) in Hrun by lia.
    cbn [BaseAgent.retry_loop] in Hrun. unfold try_catch in Hrun.
    rewrite call_run_eq in Hrun.
    destruct (BaseAgent.run self ctx (heap w)) as [[h ms] c]. cbv zeta in Hrun.
    destruct (in_time w _); [|by injection Hrun as <- <-].
    destruct c as [v|e]; simpl in Hrun.
    + injection Hrun as <- <-. exists 1%nat. simpl.
      rewrite run_calls_app, sleeps_app. simpl. rewrite !app_nil_r.
      split; [lia|]. split; [lia|]. done.
    + unfold_M. unfold bind in Hrun.
      destruct (Z.ltb_spec a (maxAttempts (BaseAgent.config_retry self))) as [Hlt|Hge].
      * rewrite sleep_eq in Hrun. cbv zeta in Hrun.
        destruct (in_time _ _); [|by injection Hrun as <- <-].
        apply IH in Hrun as (calls & Hle & Hpos & Hcalls & Hsleeps);
          [|lia|lia|done].
        exists (S calls). split; [lia|]. split; [lia|].
        rewrite Hcalls, Hsleeps. simpl.
        rewrite !run_calls_app, !sleeps_app. simpl. rewrite !app_nil_r.
        split; [by rewrite <- app_assoc|].
        rewrite <- app_assoc. f_equal.
        rewrite (seqZ_cons a) by lia. simpl. do 3 f_equal. lia.
      * simpl in Hrun.
        apply IH in Hrun as (calls & Hle & Hpos & Hcalls & Hsleeps);
          [|lia|lia|done].
        assert (n = 0%nat) as -> by lia. assert (calls = 0%nat) as -> by lia.
        exists 1%nat. split; [lia|]. split; [lia|].
        rewrite Hcalls, Hsleeps. simpl.
        rewrite !run_calls_app, !sleeps_app. simpl. by rewrite !app_nil_r.
Qed.

Lemma executeWithRetry_sleeps (w w' : world bool) o :
  BaseAgent.executeWithRetry self ctx w = (w', o) →
  o ≠ Preempted →
  ∃ calls : nat,
    run_calls (trace w') = run_calls (trace w) ++ replicate calls ctx ∧
    sleeps (trace w') =
      sleeps (trace w)
        ++ retry_delays (BaseAgent.config_retry self) (Z.of_nat calls - 1).
Proof.
  unfold BaseAgent.executeWithRetry. intros Hrun Hends.
  replace (seqZ 1 (maxAttempts (BaseAgent.config_retry self)))
    with (seqZ 1 (Z.of_nat (Z.to_nat (maxAttempts (BaseAgent.config_retry self)))))
    in Hrun by (unfold seqZ; by rewrite Nat2Z.id).
  apply retry_loop_sleeps in Hrun as (calls & _ & _ & Hcalls & Hsleeps);
    [|lia|lia|done].
  by exists calls.
Qed.

(** No attempt to make: the loop is not entered. *)
Lemma executeWithRetry_no_attempts (w : world bool) :
  maxAttempts (BaseAgent.config_retry self) ≤ 0 →
  BaseAgent.executeWithRetry self ctx w = (w, Exn execution_failed_error).
Proof.
  intros Hmax. unfold BaseAgent.executeWithRetry.
  replace (seqZ 1 (maxAttempts (BaseAgent.config_retry self))) with (@nil Z); [done|].
  unfold seqZ. by replace (Z.to_nat _) with 0%nat by lia.
Qed.
End RetryMore.

(** ** More on execute of BaseAgent *)

Section AgentExecuteMore.
Variable self : BaseAgent.t.
Hypothesis Hquiet : quiet (BaseAgent.listeners self).

(** What execute does before its try block, in full. *)
Lemma execute_enters_try input pc (w : world bool) :
  ∃ w1 : world bool,
    BaseAgent.execute self input pc w =
      try_catch
        (BaseAgent.execute_try self input (execution_context self input pc w) (clock w))
        (BaseAgent.execute_catch self (execution_context self input pc w) (clock w))
        w1 ∧
    obj w1 = true ∧ clock w1 = clock w ∧ deadline w1 = deadline w ∧
    trace w1 =
      trace w ++
        (if obj w then []
         else [LEmit {| ev_type := agent_start; ev_timestamp := clock w;
                        ev_data := Some (DAgent (BaseAgent.config_name self));
                        ev_error := None |}]).
Proof.
  destruct w as [init h t d tie rnd k tr].
  unfold BaseAgent.execute. unfold_M. unfold bind at 1. simpl.
  destruct init; simpl.
  - unfold bind at 1. simpl. unfold bind at 1. simpl. unfold bind at 1. simpl.
    unfold bind at 1. simpl.
    eexists. split; [reflexivity|]. simpl. by rewrite app_nil_r.
  - unfold bind at 1, BaseAgent.initialize. unfold_M.
    unfold bind at 1. simpl. unfold bind at 1. simpl.
    rewrite agent_emitEvent_quiet by done. simpl.
    unfold bind at 1. simpl. unfold bind at 1. simpl. unfold bind at 1. simpl.
    eexists. split; [reflexivity|]. done.
Qed.

(** The try block on an input that passes validation. *)
Lemma execute_try_detail input ectx startTime (w w' : world bool) o :
  nullish input = false →
  BaseAgent.execute_try self input ectx startTime w = (w', o) →
  obj w' = obj w ∧
  ∃ calls : nat,
    run_calls (trace w') = run_calls (trace w) ++ replicate calls ectx ∧
    (Z.of_nat calls ≤ Z.max 0 (maxAttempts (BaseAgent.config_retry self))) ∧
    match o with
    | Res r =>
        events (trace w') =
          events (trace w) ++
            [{| ev_type := agent_complete; ev_timestamp := clock w';
                ev_data := Some (DAgentResult r); ev_error := None |}] ∧
        ar_metadata r = ctx_metadata ectx ∧
        ar_executionTime r = clock w' - startTime ∧
        sleeps (trace w') =
          sleeps (trace w)
            ++ retry_delays (BaseAgent.config_retry self) (Z.of_nat calls - 1)
    | Exn e =>
        events (trace w') = events (trace w) ∧
        (e = execution_timeout_error ∨
         (sleeps (trace w') =
            sleeps (trace w)
              ++ retry_delays (BaseAgent.config_retry self) (Z.of_nat calls - 1) ∧
          Z.of_nat calls = Z.max 0 (maxAttempts (BaseAgent.config_retry self)) ∧
          ((calls = 0%nat ∧ e = execution_failed_error) ∨
           (∃ e_last, last (run_outcomes (trace w')) = Some (Throw e_last) ∧
                      e = exhausted e_last))))
    | Preempted => False
    end.
Proof.
  intros Hnull. unfold BaseAgent.execute_try, BaseAgent.validateInput.
  rewrite Hnull. unfold_M. unfold bind at 1, ret. unfold bind at 1.
  unfold BaseAgent.executeWithTimeout. rewrite race_eq.
  set (w0 := add_log _ _).
  assert (events (trace w0) = events (trace w)) as Hev0
    by (unfold w0; simpl; by rewrite events_app, app_nil_r).
  assert (run_calls (trace w0) = run_calls (trace w)) as Hcalls0
    by (unfold w0; simpl; by rewrite run_calls_app, app_nil_r).
  assert (sleeps (trace w0) = sleeps (trace w)) as Hsleeps0
    by (unfold w0; simpl; by rewrite sleeps_app, app_nil_r).
  assert (obj w0 = obj w) as Hobj0 by done.
  clearbody w0.
  destruct (BaseAgent.executeWithRetry self ectx w0) as [w1 o1] eqn:Hretry.
  pose proof Hretry as Hframe. unfold BaseAgent.executeWithRetry in Hframe.
  pose proof Hframe as Hspec.
  apply retry_loop_frame in Hframe as [Hev1 Hobj1].
  apply retry_loop_spec in Hspec as (fails & Hout & Hspec).
  rewrite length_seqZ in Hspec.
  destruct o1 as [v|e|].
  - apply executeWithRetry_sleeps in Hretry as (calls & Hcalls & Hsleeps); [|done].
    destruct Hspec as [Hlen Hcalls'].
    assert (calls = S (length fails)) as ->.
    { rewrite Hcalls in Hcalls'. apply app_inv_head in Hcalls'.
      apply (f_equal length) in Hcalls'. by rewrite !length_replicate in Hcalls'. }
    unfold bind at 1. simpl. unfold bind.
    rewrite agent_emitEvent_quiet by done. intros [= <- <-]. simpl.
    split; [congruence|]. exists (S (length fails)).
    rewrite run_calls_app, events_app, sleeps_app. simpl. rewrite !app_nil_r.
    split; [by rewrite Hcalls, Hcalls0|]. split; [lia|].
    split; [by rewrite Hev1, Hev0|].
    split; [done|]. split; [done|]. by rewrite Hsleeps, Hsleeps0.
  - apply executeWithRetry_sleeps in Hretry as (calls & Hcalls & Hsleeps); [|done].
    destruct Hspec as (Hlen & Hcalls' & ->).
    assert (calls = length fails) as ->.
    { rewrite Hcalls in Hcalls'. apply app_inv_head in Hcalls'.
      apply (f_equal length) in Hcalls'. by rewrite !length_replicate in Hcalls'. }
    intros [= <- <-]. simpl. split; [congruence|]. exists (length fails).
    split; [congruence|]. split; [lia|]. split; [congruence|]. right.
    split; [congruence|]. split; [lia|].
    induction fails as [|e_last init _] using rev_ind; [by left|right].
    exists e_last. rewrite Hout, fmap_app, app_nil_r, last_last. simpl.
    by rewrite !app_assoc, last_snoc.
  - destruct Hspec as (n & Hn & Hlen & Hcalls).
    intros [= <- <-]. simpl. split; [congruence|]. exists n.
    split; [congruence|]. split; [lia|]. split; [congruence|]. by left.
Qed.

(** One execute, from beginning to end. *)
Lemma agent_execute_detail input pc (w : world bool) :
  ∃ w' r (calls : nat),
    BaseAgent.execute self input pc w = (w', Res r) ∧
    obj w' = true ∧
    events (trace w') =
      events (trace w)
        ++ (if obj w then []
            else [{| ev_type := agent_start; ev_timestamp := clock w;
                     ev_data := Some (DAgent (BaseAgent.config_name self));
                     ev_error := None |}])
        ++ [{| ev_type := if ar_success r then agent_complete else agent_error;
               ev_timestamp := clock w';
               ev_data := Some (DAgentResult r);
               ev_error := ar_error r |}] ∧
    ar_metadata r = default ∅ (pc ≫= p_metadata) ∧
    ar_executionTime r = clock w' - clock w ∧
    run_calls (trace w') =
      run_calls (trace w) ++ replicate calls (execution_context self input pc w) ∧
    Z.of_nat calls ≤ Z.max 0 (maxAttempts (BaseAgent.config_retry self)) ∧
    (ar_error r ≠ Some execution_timeout_error →
     sleeps (trace w') =
       sleeps (trace w)
         ++ retry_delays (BaseAgent.config_retry self) (Z.of_nat calls - 1)) ∧
    if ar_success r
    then nullish input = false ∧ ar_error r = None
    else
      (nullish input = true ∧ calls = 0%nat ∧
       ar_error r = Some invalid_input_error) ∨
      (nullish input = false ∧ ar_error r = Some execution_timeout_error) ∨
      (nullish input = false ∧
       Z.of_nat calls = Z.max 0 (maxAttempts (BaseAgent.config_retry self)) ∧
       ((calls = 0%nat ∧ ar_error r = Some execution_failed_error) ∨
        (∃ e_last,
           last (run_outcomes (trace w')) = Some (Throw e_last) ∧
           ar_error r = Some (BaseAgent.normalizeError (exhausted e_last))))).
Proof.
  destruct (execute_enters_try input pc w) as (w1 & -> & Hobj1 & Hclock1 & _ & Htr1).
  set (ectx := execution_context self input pc w).
  assert (events (trace w1) =
            events (trace w)
              ++ (if obj w then []
                  else [{| ev_type := agent_start; ev_timestamp := clock w;
                           ev_data := Some (DAgent (BaseAgent.config_name self));
                           ev_error := None |}])) as Hev1.
  { rewrite Htr1, events_app. by destruct (obj w). }
  assert (run_calls (trace w1) = run_calls (trace w)) as Hcalls1.
  { rewrite Htr1, run_calls_app. destruct (obj w); simpl; by rewrite app_nil_r. }
  assert (sleeps (trace w1) = sleeps (trace w)) as Hsleeps1.
  { rewrite Htr1, sleeps_app. destruct (obj w); simpl; by rewrite app_nil_r. }
  clear Htr1. unfold try_catch.
  destruct (nullish input) eqn:Hnull.
  - rewrite execute_try_invalid by done. rewrite execute_catch_eq by done.
    eexists _, _, 0%nat. split; [reflexivity|]. simpl.
    rewrite events_app, run_calls_app, sleeps_app, Hev1, Hcalls1, Hsleeps1.
    simpl. rewrite !app_nil_r, <- app_assoc, Hclock1.
    split; [done|]. split; [done|]. split; [done|]. split; [done|].
    split; [done|]. split; [lia|]. split; [done|]. by left.
  - destruct (BaseAgent.execute_try self input ectx (clock w) w1)
      as [w2 o] eqn:Htry.
    pose proof (execute_try_cases self Hquiet _ _ _ _ _ _ Htry) as Hcases.
    apply execute_try_detail in Htry as (Hobj2 & calls & Hcalls2 & Hle & Ho);
      [|done].
    destruct o as [r|e|]; [| |done].
    + destruct Hcases as (_ & Hs & He & _).
      destruct Ho as (Hev2 & Hmeta & Htime & Hsleeps2).
      exists w2, r, calls. rewrite Hs, He.
      split; [done|]. split; [congruence|].
      split; [by rewrite Hev2, Hev1, <- app_assoc|].
      split; [done|]. split; [done|].
      split; [by rewrite Hcalls2, Hcalls1|]. split; [done|].
      split; [intros _; by rewrite Hsleeps2, Hsleeps1|]. done.
    + destruct Ho as (Hev2 & Ho).
      rewrite execute_catch_eq by done.
      eexists _, _, calls. split; [reflexivity|]. simpl.
      rewrite events_app, run_calls_app, sleeps_app, run_outcomes_app.
      simpl. rewrite !app_nil_r.
      split; [congruence|].
      split; [by rewrite Hev2, Hev1, <- app_assoc|].
      split; [done|]. split; [done|].
      split; [by rewrite Hcalls2, Hcalls1|]. split; [done|].
      destruct Ho as [-> | (Hsleeps2 & Hcalls & Hlast)].
      * split; [done|]. right. by left.
      * split; [intros _; by rewrite Hsleeps2, Hsleeps1|].
        right. right. split; [done|]. split; [done|].
        destruct Hlast as [[-> ->] | (e_last & Hlast & ->)]; [by left|right].
        by exists e_last.
Qed.
End AgentExecuteMore.

(** ** More on execute of AgentWorkflow *)

Section WorkflowMore.
Variable self : AgentWorkflow.t.
Hypothesis Hquiet : quiet (AgentWorkflow.listeners self).

Implicit Types w : world AgentWorkflow.state.

(** The loop pushes every result on the history of the context and on
    [stepResults] alike, and touches nothing else of the context but its
    data. *)
Lemma run_steps_history todo : ∀ w w' o c,
  AgentWorkflow.context (obj w) = Some c →
  ctx_history c = AgentWorkflow.stepResults (obj w) →
  AgentWorkflow.run_steps self todo w = (w', o) →
  ∃ c', AgentWorkflow.context (obj w') = Some c' ∧
        ctx_history c' = AgentWorkflow.stepResults (obj w') ∧
        ctx_id c' = ctx_id c ∧ ctx_metadata c' = ctx_metadata c ∧
        ctx_timestamp c' = ctx_timestamp c.
Proof.
  induction todo as [|step rest IH]; intros w w' o c Hctx Hhist Hrun.
  - simpl in Hrun. injection Hrun as <- <-. by exists c.
  - cbn [AgentWorkflow.run_steps] in Hrun. unfold_M. unfold bind at 1 in Hrun.
    destruct (AgentWorkflow.executeStep self step w) as [w1 o1] eqn:Hstep.
    pose proof (executeStep_spec self Hquiet _ _ _ _ _ Hctx Hstep)
      as (δ1 & Htr1 & Hrs1 & Hcalls1 & Ho1).
    clear Hstep. destruct o1 as [sr|e|]; [|done|]; cycle 1.
    { injection Hrun as <- <-. exists c. by rewrite Hrs1. }
    destruct Ho1 as (Hctx1 & _).
    destruct w1 as [[octx1 ors1] h1 t1 d1 tie1 rnd1 k1 tr1].
    simpl in Htr1, Hrs1, Hctx1. subst octx1 ors1 tr1.
    unfold bind at 1 in Hrun. simpl in Hrun.
    unfold bind at 1 in Hrun. simpl in Hrun.
    unfold bind at 1 in Hrun.
    set (c2 := {| ctx_id := _ |}) in Hrun.
    assert (ctx_history c2 = AgentWorkflow.stepResults (obj w) ++ [sr]) as Hhist2
      by (simpl; by rewrite Hhist).
    assert (ctx_id c2 = ctx_id c ∧ ctx_metadata c2 = ctx_metadata c ∧
            ctx_timestamp c2 = ctx_timestamp c) as (Hid2 & Hmeta2 & Hts2) by done.
    clearbody c2.
    destruct (sr_success sr) eqn:Hok; simpl in Hrun.
    + eapply IH in Hrun as (c' & Hctx' & Hhist' & Hid' & Hmeta' & Hts');
        [|done|done].
      exists c'. repeat split; congruence.
    + destruct (AgentWorkflow.config_onError self); simpl in Hrun.
      * unfold AgentWorkflow.throw_error, bind, throw in Hrun. simpl in Hrun.
        injection Hrun as <- <-. by exists c2.
      * eapply IH in Hrun as (c' & Hctx' & Hhist' & Hid' & Hmeta' & Hts');
          [|done|done].
        exists c'. repeat split; congruence.
      * unfold AgentWorkflow.throw_error, AgentWorkflow.rollback in Hrun.
        unfold_M. unfold bind, throw in Hrun. simpl in Hrun.
        injection Hrun as <- <-. by exists c2.
Qed.

(** What execute does before its try block, in full. *)
Lemma workflow_execute_enters_try input pc w :
  ∃ w1,
    AgentWorkflow.execute self input pc w =
      try_catch (AgentWorkflow.execute_try self (clock w))
                (AgentWorkflow.execute_catch self (clock w)) w1 ∧
    obj w1 =
      {| AgentWorkflow.context :=
           Some {| ctx_id := AgentWorkflow.config_name self +:+ "-"
                               +:+ pretty (clock w) +:+ "-" +:+ random w (draws w);
                   ctx_data := input;
                   ctx_metadata := default ∅ (pc ≫= p_metadata);
                   ctx_history := [];
                   ctx_timestamp := clock w |};
         AgentWorkflow.stepResults := [] |} ∧
    clock w1 = clock w ∧ deadline w1 = deadline w ∧
    trace w1 =
      trace w ++
        [LEmit {| ev_type := workflow_start; ev_timestamp := clock w;
                  ev_data := Some (DWorkflow (AgentWorkflow.config_name self)
                                             (length (AgentWorkflow.steps self)));
                  ev_error := None |}].
Proof.
  destruct w as [o h t d tie rnd k tr].
  unfold AgentWorkflow.execute. unfold_M.
  unfold bind at 1. simpl. unfold bind at 1. simpl. unfold bind at 1. simpl.
  unfold bind at 1. simpl. unfold bind at 1. simpl. unfold bind at 1.
  rewrite workflow_emitEvent_quiet by done. simpl.
  eexists. split; [reflexivity|]. done.
Qed.

(** The context and the results that execute leaves in the object. *)
Lemma workflow_execute_leaves input pc w :
  ∃ w' r c',
    AgentWorkflow.execute self input pc w = (w', Res r) ∧
    AgentWorkflow.context (obj w') = Some c' ∧
    AgentWorkflow.stepResults (obj w') = wr_steps r ∧
    ctx_history c' = wr_steps r ∧
    ctx_data c' = data_after input (wr_steps r) ∧
    ctx_metadata c' = default ∅ (pc ≫= p_metadata) ∧
    ctx_timestamp c' = clock w ∧
    ctx_id c' = AgentWorkflow.config_name self +:+ "-" +:+ pretty (clock w) +:+ "-"
                  +:+ random w (draws w) ∧
    sr_step <$> wr_steps r =
      step_name <$> take (length (wr_steps r)) (AgentWorkflow.steps self).
Proof.
  destruct (workflow_execute_enters_try input pc w)
    as (w1 & -> & Hobj1 & _ & _ & _).
  set (c := {| ctx_id := _ |}) in Hobj1.
  unfold try_catch, AgentWorkflow.execute_try. unfold_M.
  unfold bind at 1. unfold AgentWorkflow.executeWithTimeout. rewrite race_eq.
  set (w0 := add_log _ _).
  assert (obj w0 = obj w1) as Hobj0 by done. clearbody w0.
  destruct (AgentWorkflow.run_steps self (AgentWorkflow.steps self) w0)
    as [w2 o2] eqn:Hloop.
  pose proof Hloop as Hhist.
  eapply (run_steps_history _ _ _ _ c) in Hhist
      as (c' & Hctx' & Hhist' & Hid' & Hmeta' & Hts');
    [|by rewrite Hobj0, Hobj1..].
  eapply (run_steps_spec self Hquiet _ _ _ _ c) in Hloop
      as (rs & δ & c'' & Hrs & _ & Hctx'' & Hdata & Hnames & _);
    [|by rewrite Hobj0, Hobj1].
  rewrite Hctx' in Hctx''. injection Hctx'' as <-.
  rewrite Hobj0, Hobj1 in Hrs. simpl in Hrs.
  destruct w2 as [[octx2 ors2] h2 t2 d2 tie2 rnd2 k2 tr2].
  simpl in Hctx', Hhist', Hrs. subst octx2 rs. subst c. simpl in *.
  destruct o2 as [[]|e|].
  - unfold bind at 1. simpl. unfold bind at 1. simpl. unfold bind at 1. simpl.
    unfold bind at 1. rewrite workflow_emitEvent_quiet by done. simpl.
    by eexists _, _, c'.
  - rewrite workflow_execute_catch_eq by done. by eexists _, _, c'.
  - rewrite workflow_execute_catch_eq by done. by eexists _, _, c'.
Qed.

(** A workflow without steps. *)
Lemma workflow_execute_no_steps input pc w :
  AgentWorkflow.steps self = [] →
  ∃ w' r,
    AgentWorkflow.execute self input pc w = (w', Res r) ∧
    wr_success r = true ∧ wr_data r = Some input ∧ wr_steps r = [] ∧
    wr_error r = None ∧
    ev_type <$> events (trace w') =
      (ev_type <$> events (trace w)) ++ [workflow_start; workflow_complete] ∧
    handler_calls (trace w') = handler_calls (trace w).
Proof.
  intros Hnone.
  destruct (workflow_execute_enters_try input pc w)
    as (w1 & -> & Hobj1 & _ & _ & Htr1).
  destruct w1 as [o1 h1 t1 d1 tie1 rnd1 k1 tr1]. simpl in Hobj1, Htr1. subst o1 tr1.
  unfold try_catch, AgentWorkflow.execute_try. unfold_M.
  unfold bind at 1. unfold AgentWorkflow.executeWithTimeout. rewrite race_eq.
  rewrite Hnone. simpl.
  unfold bind at 1. simpl. unfold bind at 1. simpl. unfold bind at 1. simpl.
  unfold bind at 1. rewrite workflow_emitEvent_quiet by done. simpl.
  eexists _, _. split; [reflexivity|]. simpl.
  rewrite !events_app, !handler_calls_app, !fmap_app. simpl.
  by rewrite !app_nil_r, <- !app_assoc.
Qed.

(** The catch block of executeStep: the hook is called with the error
    as an Error and the context; what it throws is logged and dropped. *)
Lemma executeStep_catch_detail step startTime error w w' o c :
  AgentWorkflow.context (obj w) = Some c →
  AgentWorkflow.executeStep_catch self step startTime error w = (w', o) →
  obj w' = obj w ∧
  (deadline w = None → o ≠ Preempted) ∧
  match o with
  | Res sr =>
      sr = failed_result step error startTime (clock w') ∧
      trace w' =
        trace w ++ hook_log step (AgentWorkflow.as_Error error) c (heap w)
                ++ [LEmit (step_error_event sr)]
  | Exn _ => False
  | Preempted => True
  end.
Proof.
  destruct w as [[octx ors] h t d tie rnd k tr]. simpl. intros ->.
  unfold AgentWorkflow.executeStep_catch, hook_log. unfold_M.
  destruct (step_onError step) as [hook|].
  - unfold bind at 1, try_catch. unfold bind at 1. simpl.
    unfold bind at 1. simpl. rewrite await_eq. simpl.
    destruct (hook _ c h) as [[h' ms] [[]|e]]; simpl;
      (destruct (in_time _ _) eqn:Hin; simpl;
       [ unfold bind at 1; simpl; unfold bind at 1;
         rewrite workflow_emitEvent_quiet by done; simpl;
         intros [= <- <-]; simpl;
         split; [done|]; split; [done|]; split; [done|];
         by rewrite <- !app_assoc
       | intros [= <- <-]; simpl; split; [done|]; split; [|done];
         intros ->; by unfold in_time in Hin ]).
  - unfold bind at 1. simpl. unfold bind at 1. simpl. unfold bind at 1.
    rewrite workflow_emitEvent_quiet by done. simpl.
    intros [= <- <-]. by simpl.
Qed.
End WorkflowMore.

(** ** CRMAgent *)

Section CRM.
Variable self : CRMAgent.t.

Implicit Types w : world bool.

(** An initialized CRM agent executes as its BaseAgent part does. *)
Lemma crm_execute_initialized input pc w :
  obj w = true →
  CRMAgent.execute self input pc w = BaseAgent.execute (CRMAgent.agent self) input pc w.
Proof. destruct w as [init h t d tie rnd k tr]. simpl. by intros ->. Qed.

(** The provider cannot be brought up: its exception leaves execute. *)
Lemma crm_execute_init_fails input pc w e :
  obj w = false → deadline w = None →
  (∀ h, (CRMAgent.provider_initialize self h).2 = Throw e) →
  ∃ w', CRMAgent.execute self input pc w = (w', Exn e) ∧
        obj w' = false ∧ trace w' = trace w.
Proof.
  destruct w as [init h t d tie rnd k tr]. simpl. intros -> -> Hthrow.
  unfold CRMAgent.execute. unfold_M. unfold bind at 1. simpl.
  unfold bind at 1, CRMAgent.initialize. unfold_M.
  unfold bind at 1. rewrite await_eq. simpl. specialize (Hthrow h).
  destruct (CRMAgent.provider_initialize self h) as [[h' ms] c].
  simpl in Hthrow. subst c. simpl. by eexists.
Qed.

(** The provider comes up: execute goes on as that of the BaseAgent
    part, once the provider has settled. *)
Lemma crm_execute_init_ok input pc w :
  obj w = false → deadline w = None →
  (∀ h, (CRMAgent.provider_initialize self h).2 = Normal tt) →
  ∃ w0, CRMAgent.execute self input pc w
          = BaseAgent.execute (CRMAgent.agent self) input pc w0 ∧
        obj w0 = false ∧ trace w0 = trace w ∧ deadline w0 = None.
Proof.
  destruct w as [init h t d tie rnd k tr]. simpl. intros -> -> Hok.
  unfold CRMAgent.execute, BaseAgent.execute. unfold_M.
  unfold bind at 1. simpl. unfold bind at 1, CRMAgent.initialize. unfold_M.
  unfold bind at 1. rewrite await_eq. simpl. specialize (Hok h).
  destruct (CRMAgent.provider_initialize self h) as [[h' ms] c].
  simpl in Hok. subst c. simpl.
  exists (World false h' (t + 0 `max` ms) None tie rnd k tr).
  split; [|done]. unfold bind at 3. simpl. reflexivity.
Qed.

Hypothesis Hquiet : quiet (BaseAgent.listeners (CRMAgent.agent self)).

(** execute of a CRM agent whose provider is up or comes up. *)
Lemma crm_execute_detail input pc w :
  (obj w = false →
   deadline w = None ∧ ∀ h, (CRMAgent.provider_initialize self h).2 = Normal tt) →
  ∃ w' r (calls : nat),
    CRMAgent.execute self input pc w = (w', Res r) ∧
    obj w' = true ∧
    length (run_calls (trace w')) = (length (run_calls (trace w)) + calls)%nat ∧
    if ar_success r
    then nullish input = false ∧ ar_error r = None ∧
         ∃ v, ar_data r = Some v ∧
              last (run_outcomes (trace w')) = Some (Normal v)
    else
      (nullish input = true ∧ calls = 0%nat ∧
       ar_error r = Some invalid_input_error) ∨
      (nullish input = false ∧ ar_error r = Some execution_timeout_error) ∨
      (nullish input = false ∧
       Z.of_nat calls
         = Z.max 0 (maxAttempts (BaseAgent.config_retry (CRMAgent.agent self))) ∧
       ((calls = 0%nat ∧ ar_error r = Some execution_failed_error) ∨
        (∃ e_last,
           last (run_outcomes (trace w')) = Some (Throw e_last) ∧
           ar_error r = Some (BaseAgent.normalizeError (exhausted e_last))))).
Proof.
  intros Hinit.
  assert (∃ w0, CRMAgent.execute self input pc w
                  = BaseAgent.execute (CRMAgent.agent self) input pc w0 ∧
                trace w0 = trace w) as (w0 & -> & Htr0).
  { destruct (obj w) eqn:Hobj.
    - exists w. by rewrite crm_execute_initialized.
    - destruct Hinit as [Hnone Hok]; [done|].
      destruct (crm_execute_init_ok input pc w Hobj Hnone Hok)
        as (w0 & Heq & _ & Htr & _).
      by exists w0. }
  destruct (agent_execute_detail _ Hquiet input pc w0)
    as (w' & r & calls & Hexec & Hobj' & _ & _ & _ & Hcalls & _ & _ & Hcases).
  destruct (agent_execute_returns _ Hquiet input pc w0)
    as (w2 & r2 & Hexec2 & Hreturns).
  rewrite Hexec in Hexec2. injection Hexec2 as <- <-.
  exists w', r, calls. split; [done|]. split; [done|].
  split; [by rewrite Hcalls, length_app, length_replicate, Htr0|].
  destruct (ar_success r); [|done].
  destruct Hcases as [Hnull Herr]. by destruct Hreturns as (_ & _ & Hv).
Qed.
End CRM.

(** ** The events of a workflow *)

Section WorkflowEvents.
Variable self : AgentWorkflow.t.
Hypothesis Hquiet : quiet (AgentWorkflow.listeners self).

Implicit Types w : world AgentWorkflow.state.

Lemma run_handler_events step startTime w w' o c :
  AgentWorkflow.context (obj w) = Some c →
  AgentWorkflow.run_handler self step startTime w = (w', o) →
  match o with
  | Res sr =>
      sr_step sr = step_name step ∧ sr_startedAt sr = startTime ∧
      sr_success sr = true ∧
      events (trace w') = events (trace w) ++ [step_complete_event sr]
  | _ => events (trace w') = events (trace w)
  end.
Proof.
  destruct w as [[octx ors] h t d tie rnd k tr]. simpl. intros ->.
  unfold AgentWorkflow.run_handler. unfold_M.
  unfold bind at 1. simpl. unfold bind at 1. simpl.
  unfold bind at 1. rewrite await_eq. simpl.
  destruct (handler step c h) as [[h' ms] [v|e]]; simpl.
  - destruct (in_time _ _); simpl.
    + unfold bind at 1.
      destruct (nullish v) eqn:Hnull; simpl;
        unfold bind at 1; simpl; unfold bind at 1;
        rewrite workflow_emitEvent_quiet by done; simpl;
        intros [= <- <-]; simpl;
        rewrite !events_app; simpl; by rewrite app_nil_r.
    + intros [= <- <-]. simpl. by rewrite events_app, app_nil_r.
  - destruct (in_time _ _); simpl; intros [= <- <-]; simpl;
      by rewrite events_app, app_nil_r.
Qed.

Lemma executeStep_try_events step startTime w w' o c :
  AgentWorkflow.context (obj w) = Some c →
  AgentWorkflow.executeStep_try self step startTime w = (w', o) →
  match o with
  | Res sr =>
      sr_step sr = step_name step ∧ sr_startedAt sr = startTime ∧
      sr_success sr = true ∧
      (events (trace w') = events (trace w) ++ [step_complete_event sr] ∨
       (events (trace w') = events (trace w) ∧ sr_data sr = Some VNull))
  | _ => events (trace w') = events (trace w)
  end.
Proof.
  intros Hctx. unfold AgentWorkflow.executeStep_try.
  assert (∀ w1, events (trace w1) = events (trace w) →
            AgentWorkflow.context (obj w1) = Some c →
            AgentWorkflow.run_handler self step startTime w1 = (w', o) →
            match o with
            | Res sr =>
                sr_step sr = step_name step ∧ sr_startedAt sr = startTime ∧
                sr_success sr = true ∧
                (events (trace w') = events (trace w) ++ [step_complete_event sr] ∨
                 (events (trace w') = events (trace w) ∧ sr_data sr = Some VNull))
            | _ => events (trace w') = events (trace w)
            end) as Hhandler.
  { intros w1 Hev1 Hc1 Hrun.
    eapply run_handler_events in Hrun; [|done].
    destruct o as [sr| |]; [|congruence|congruence].
    destruct Hrun as (? & ? & ? & Hev). rewrite Hev, Hev1. by eauto. }
  destruct (condition step) as [cond|]; [|by apply Hhandler].
  destruct w as [[octx ors] h t d tie rnd k tr]. simpl in Hctx. subst octx.
  unfold_M. unfold bind at 1. simpl. unfold bind at 1. simpl.
  unfold bind at 1. rewrite await_eq. simpl.
  destruct (cond c h) as [[h' ms] [b|e]]; simpl.
  - destruct (in_time _ _); simpl.
    + destruct b; simpl.
      * apply Hhandler; [|done]. simpl. by rewrite events_app, app_nil_r.
      * unfold bind, Date_now, ret. simpl. intros [= <- <-]. simpl.
        repeat split; try done. right.
        by rewrite events_app, app_nil_r.
    + intros [= <- <-]. simpl. by rewrite events_app, app_nil_r.
  - destruct (in_time _ _); simpl; intros [= <- <-]; simpl;
      by rewrite events_app, app_nil_r.
Qed.

Lemma executeStep_catch_events step startTime error w w' o c :
  AgentWorkflow.context (obj w) = Some c →
  AgentWorkflow.executeStep_catch self step startTime error w = (w', o) →
  match o with
  | Res sr =>
      sr = failed_result step error startTime (clock w') ∧
      events (trace w') = events (trace w) ++ [step_error_event sr]
  | Exn _ => False
  | Preempted => events (trace w') = events (trace w)
  end.
Proof.
  destruct w as [[octx ors] h t d tie rnd k tr]. simpl. intros ->.
  unfold AgentWorkflow.executeStep_catch. unfold_M.
  destruct (step_onError step) as [hook|].
  - unfold bind at 1, try_catch. unfold bind at 1. simpl.
    unfold bind at 1. simpl. rewrite await_eq. simpl.
    destruct (hook _ c h) as [[h' ms] [[]|e]]; simpl;
      (destruct (in_time _ _) eqn:Hin; simpl;
       [ unfold bind at 1; simpl; unfold bind at 1;
         rewrite workflow_emitEvent_quiet by done; simpl;
         intros [= <- <-]; simpl; split; [done|];
         rewrite !events_app; simpl; by rewrite !app_nil_r
       | intros [= <- <-]; simpl; by rewrite events_app, app_nil_r ]).
  - unfold bind at 1. simpl. unfold bind at 1. simpl. unfold bind at 1.
    rewrite workflow_emitEvent_quiet by done. simpl.
    intros [= <- <-]. simpl. split; [done|]. by rewrite events_app.
Qed.

(** The events of one step. *)
Lemma executeStep_events step w w' o c :
  AgentWorkflow.context (obj w) = Some c →
  AgentWorkflow.executeStep self step w = (w', o) →
  match o with
  | Res sr =>
      ∃ evs, events (trace w') = events (trace w) ++ evs ∧ events_of_step sr evs
  | Exn _ => False
  | Preempted =>
      events (trace w') = events (trace w) ++ [step_start_event step (clock w)]
  end.
Proof.
  intros Hctx. unfold AgentWorkflow.executeStep. unfold_M.
  unfold bind at 1. simpl. unfold bind.
  rewrite workflow_emitEvent_quiet by done. unfold try_catch.
  set (w1 := set_heap _ _).
  assert (events (trace w1)
          = events (trace w) ++ [step_start_event step (clock w)]) as Hev1
    by (unfold w1; simpl; by rewrite events_app).
  assert (AgentWorkflow.context (obj w1) = Some c) as Hctx1 by done.
  clearbody w1.
  destruct (AgentWorkflow.executeStep_try self step (clock w) w1)
    as [w2 [sr|e|]] eqn:Htry.
  - eapply executeStep_try_events in Htry as (Hname & Hstart & Hok & Hev);
      [|done].
    intros [= <- <-]. unfold events_of_step. rewrite Hok.
    assert (step_start_event step (clock w) = step_started_event sr) as Hsame
      by (unfold step_start_event, step_started_event; by rewrite Hname, Hstart).
    destruct Hev as [Hev | [Hev Hnull]]; rewrite Hev, Hev1, Hsame.
    + eexists. split; [by rewrite <- app_assoc|]. by left.
    + eexists. split; [done|]. by right.
  - pose proof Htry as Htry'.
    eapply executeStep_try_events in Htry' as Hev2; [|done].
    eapply executeStep_try_spec in Htry as (_ & _ & _ & _ & Hctx2); [|done..].
    intros Hcatch.
    eapply executeStep_catch_events in Hcatch; [|done].
    destruct o as [sr| |]; [|done|].
    + destruct Hcatch as [-> Hev3].
      eexists. rewrite Hev3, Hev2, Hev1, <- app_assoc. split; [done|].
      unfold events_of_step. simpl. done.
    + by rewrite Hcatch, Hev2, Hev1.
  - eapply executeStep_try_events in Htry; [|done].
    intros [= <- <-]. by rewrite Htry, Hev1.
Qed.

(** The events of the loop over the steps: those of each step that left
    a result, in order, and the step:start of the step that the race
    timer cut short, if it did. *)
Lemma run_steps_events todo : ∀ w w' o c,
  AgentWorkflow.context (obj w) = Some c →
  AgentWorkflow.run_steps self todo w = (w', o) →
  ∃ rs chunks tail,
    AgentWorkflow.stepResults (obj w') = AgentWorkflow.stepResults (obj w) ++ rs ∧
    events (trace w') = events (trace w) ++ concat chunks ++ tail ∧
    Forall2 events_of_step rs chunks ∧
    match o with
    | Preempted => ∃ step t, step ∈ todo ∧ tail = [step_start_event step t]
    | _ => tail = []
    end.
Proof.
  induction todo as [|step rest IH]; intros w w' o c Hctx Hrun.
  - simpl in Hrun. injection Hrun as <- <-.
    exists [], [], []. simpl. rewrite !app_nil_r. by repeat split.
  - cbn [AgentWorkflow.run_steps] in Hrun. unfold_M. unfold bind at 1 in Hrun.
    destruct (AgentWorkflow.executeStep self step w) as [w1 o1] eqn:Hstep.
    pose proof (executeStep_spec self Hquiet _ _ _ _ _ Hctx Hstep)
      as (δ1 & Htr1 & Hrs1 & Hcalls1 & Ho1).
    pose proof (executeStep_events _ _ _ _ _ Hctx Hstep) as Hev1.
    clear Hstep. destruct o1 as [sr|e|]; [|done|]; cycle 1.
    { injection Hrun as <- <-. exists [], [], [step_start_event step (clock w)].
      rewrite app_nil_r. split; [done|]. split; [done|]. split; [constructor|].
      exists step, (clock w). split; [apply list_elem_of_here|done]. }
    destruct Ho1 as (Hctx1 & _). destruct Hev1 as (evs & Hev1 & Hchunk).
    destruct w1 as [[octx1 ors1] h1 t1 d1 tie1 rnd1 k1 tr1].
    simpl in Htr1, Hrs1, Hctx1, Hev1. subst octx1 ors1. clear Htr1.
    unfold bind at 1 in Hrun. simpl in Hrun.
    unfold bind at 1 in Hrun. simpl in Hrun.
    unfold bind at 1 in Hrun.
    set (c2 := {| ctx_id := _ |}) in Hrun. clearbody c2.
    assert (∀ w2 o2,
              AgentWorkflow.stepResults (obj w2)
                = AgentWorkflow.stepResults (obj w) ++ [sr] →
              events (trace w2) = events (trace w) ++ evs →
              AgentWorkflow.context (obj w2) = Some c2 →
              AgentWorkflow.run_steps self rest w2 = (w', o2) →
              ∃ rs chunks tail,
                AgentWorkflow.stepResults (obj w')
                  = AgentWorkflow.stepResults (obj w) ++ rs ∧
                events (trace w') = events (trace w) ++ concat chunks ++ tail ∧
                Forall2 events_of_step rs chunks ∧
                match o2 with
                | Preempted =>
                    ∃ step' t, step' ∈ step :: rest ∧
                               tail = [step_start_event step' t]
                | _ => tail = []
                end) as Hnext.
    { intros w2 o2 Hrs2 Hev2 Hctx2 Hloop.
      eapply IH in Hloop as (rs & chunks & tail & Hrs & Hev & Hall & Ho); [|done].
      exists (sr :: rs), (evs :: chunks), tail.
      rewrite Hrs, Hrs2, Hev, Hev2, <- !app_assoc. simpl.
      rewrite <- !app_assoc.
      split; [done|]. split; [done|]. split; [by constructor|].
      destruct o2 as [| |]; [done|done|].
      destruct Ho as (step' & t & Hin & ->). exists step', t.
      split; [by apply list_elem_of_further|done]. }
    assert (∀ tr2 e,
              events tr2 = events (trace w) ++ evs →
              (World {| AgentWorkflow.context := Some c2;
                        AgentWorkflow.stepResults :=
                          AgentWorkflow.stepResults (obj w) ++ [sr] |}
                     h1 t1 d1 tie1 rnd1 k1 tr2, Exn e) = (w', o) →
              ∃ rs chunks tail,
                AgentWorkflow.stepResults (obj w')
                  = AgentWorkflow.stepResults (obj w) ++ rs ∧
                events (trace w') = events (trace w) ++ concat chunks ++ tail ∧
                Forall2 events_of_step rs chunks ∧
                match o with
                | Preempted =>
                    ∃ step' t, step' ∈ step :: rest ∧
                               tail = [step_start_event step' t]
                | _ => tail = []
                end) as Hstop.
    { intros tr2 e Hev2 [= <- <-]. exists [sr], [evs], []. simpl.
      rewrite !app_nil_r. split; [done|]. split; [done|].
      split; [by repeat constructor|done]. }
    destruct (sr_success sr) eqn:Hok; simpl in Hrun.
    + eapply Hnext; [| | |exact Hrun]; done.
    + destruct (AgentWorkflow.config_onError self); simpl in Hrun.
      * unfold AgentWorkflow.throw_error, bind, throw in Hrun. simpl in Hrun.
        eapply Hstop; [|exact Hrun]. done.
      * eapply Hnext; [| | |exact Hrun]; done.
      * unfold AgentWorkflow.throw_error, AgentWorkflow.rollback in Hrun.
        unfold_M. unfold bind, throw in Hrun. simpl in Hrun.
        eapply Hstop; [|exact Hrun]. by rewrite events_app, app_nil_r.
Qed.
End WorkflowEvents.

(** ** What execute of AgentWorkflow leaves alone *)

Section WorkflowKeeps.
Variable self : AgentWorkflow.t.
Variable P : store → Prop.

Hypothesis Hlisteners : listeners_keep P (AgentWorkflow.listeners self).

Local Abbreviation G := any_entry.

Local Hint Extern 1 (any_entry _) => exact I : keeps.
Local Hint Resolve Hlisteners : keeps.

Lemma keeps_workflow_emitEvent ev : keeps P G (AgentWorkflow.emitEvent self ev).
Proof. unfold AgentWorkflow.emitEvent. eauto with keeps. Qed.

Lemma keeps_the_context : keeps P G AgentWorkflow.the_context.
Proof.
  unfold AgentWorkflow.the_context. apply keeps_mbind; [eauto with keeps|].
  intros s. destruct (AgentWorkflow.context s); eauto with keeps.
Qed.

Local Hint Resolve keeps_workflow_emitEvent keeps_the_context : keeps.

Lemma keeps_set_context_data result :
  keeps P G (AgentWorkflow.set_context_data result).
Proof. unfold AgentWorkflow.set_context_data. repeat keeps_step. Qed.

Lemma keeps_push_history sr : keeps P G (AgentWorkflow.push_history sr).
Proof. unfold AgentWorkflow.push_history. repeat keeps_step. Qed.

Lemma keeps_push_stepResult sr : keeps P G (AgentWorkflow.push_stepResult sr).
Proof. unfold AgentWorkflow.push_stepResult. repeat keeps_step. Qed.

Local Hint Resolve keeps_set_context_data keeps_push_history
  keeps_push_stepResult : keeps.

Lemma keeps_executeStep step :
  step_keeps P step → keeps P G (AgentWorkflow.executeStep self step).
Proof.
  intros (Hhandler & Hcond & Hhook).
  assert (∀ startTime, keeps P G (AgentWorkflow.run_handler self step startTime))
    as Hrun.
  { intros startTime. unfold AgentWorkflow.run_handler. repeat keeps_step. }
  unfold AgentWorkflow.executeStep. repeat keeps_step.
  - unfold AgentWorkflow.executeStep_try.
    destruct (condition step) as [cond|] eqn:Hc; [|apply Hrun].
    repeat keeps_step; try apply Hrun; by apply keeps_await, Hcond.
  - unfold AgentWorkflow.executeStep_catch.
    destruct (step_onError step) as [hook|] eqn:Hh; repeat keeps_step;
      by apply keeps_await, Hhook.
Qed.

Lemma keeps_run_steps todo :
  Forall (step_keeps P) todo → keeps P G (AgentWorkflow.run_steps self todo).
Proof.
  induction 1 as [|step rest Hstep _ IH]; simpl; [eauto with keeps|].
  apply keeps_mbind; [by apply keeps_executeStep|]. intros sr.
  repeat keeps_step; try exact IH.
  all: unfold AgentWorkflow.throw_error, AgentWorkflow.rollback;
    destruct (AgentWorkflow.config_onError self); repeat keeps_step.
Qed.

Lemma keeps_workflow_execute input pc :
  Forall (step_keeps P) (AgentWorkflow.steps self) →
  keeps P G (AgentWorkflow.execute self input pc).
Proof.
  intros Hsteps.
  unfold AgentWorkflow.execute, AgentWorkflow.generateWorkflowId,
    AgentWorkflow.execute_try, AgentWorkflow.execute_catch,
    AgentWorkflow.executeWithTimeout.
  repeat keeps_step.
  apply keeps_race; [done|]. by apply keeps_run_steps.
Qed.
End WorkflowKeeps.

(** ** The error strategy matters only when a step fails *)

Section Strategies.
Variable self : AgentWorkflow.t.
Variable s : ErrorStrategy.
Hypothesis Hquiet : quiet (AgentWorkflow.listeners self).

Local Abbreviation other := (AgentWorkflow.with_onError self s).

Implicit Types w : world AgentWorkflow.state.

Lemma run_steps_any_strategy todo : ∀ w w' o c rs,
  AgentWorkflow.context (obj w) = Some c →
  AgentWorkflow.run_steps self todo w = (w', o) →
  AgentWorkflow.stepResults (obj w') = AgentWorkflow.stepResults (obj w) ++ rs →
  Forall succeeded rs →
  AgentWorkflow.run_steps other todo w = (w', o).
Proof.
  induction todo as [|step rest IH]; intros w w' o c rs Hctx Hrun Hrs Hall;
    [done|].
  cbn [AgentWorkflow.run_steps] in Hrun |- *. unfold_M.
  change (AgentWorkflow.executeStep other step)
    with (AgentWorkflow.executeStep self step).
  unfold bind at 1 in Hrun. unfold bind at 1.
  destruct (AgentWorkflow.executeStep self step w) as [w1 o1] eqn:Hstep.
  pose proof (executeStep_spec self Hquiet _ _ _ _ _ Hctx Hstep)
    as (δ1 & Htr1 & Hrs1 & _ & Ho1).
  clear Hstep. destruct o1 as [sr|e|]; [|done|done].
  destruct Ho1 as (Hctx1 & _).
  destruct w1 as [[octx1 ors1] h1 t1 d1 tie1 rnd1 k1 tr1].
  simpl in Htr1, Hrs1, Hctx1. subst octx1 ors1. clear Htr1.
  unfold bind at 1 in Hrun. simpl in Hrun.
  unfold bind at 1 in Hrun. simpl in Hrun.
  unfold bind at 1 in Hrun.
  unfold bind at 1. simpl. unfold bind at 1. simpl. unfold bind at 1.
  set (c2 := {| ctx_id := _ |}) in *. clearbody c2.
  set (w2 := World _ h1 t1 d1 tie1 rnd1 k1 tr1) in *.
  assert (AgentWorkflow.context (obj w2) = Some c2) as Hctx2 by done.
  assert (AgentWorkflow.stepResults (obj w2)
          = AgentWorkflow.stepResults (obj w) ++ [sr]) as Hrs2 by done.
  clearbody w2.
  destruct (sr_success sr) eqn:Hok; simpl in Hrun |- *.
  - pose proof Hrun as Hspec.
    eapply run_steps_spec in Hspec as (rs' & _ & _ & Hrs' & _); [|done..].
    rewrite Hrs', Hrs2, <- app_assoc in Hrs. apply app_inv_head in Hrs.
    subst rs. eapply IH; [done | exact Hrun | exact Hrs' | by inversion Hall].
  - exfalso.
    assert (∃ rs', AgentWorkflow.stepResults (obj w')
                   = AgentWorkflow.stepResults (obj w2) ++ rs') as [rs' Hrs'].
    { destruct (AgentWorkflow.config_onError self); simpl in Hrun.
      - unfold AgentWorkflow.throw_error, bind, throw in Hrun.
        injection Hrun as <- <-. exists []. by rewrite app_nil_r.
      - eapply run_steps_spec in Hrun as (rs' & _ & _ & Hrs' & _); [|done..].
        by exists rs'.
      - unfold AgentWorkflow.throw_error, AgentWorkflow.rollback in Hrun.
        unfold_M. unfold bind, throw in Hrun. simpl in Hrun.
        injection Hrun as <- <-. exists []. by rewrite app_nil_r. }
    rewrite Hrs', Hrs2, <- app_assoc in Hrs. apply app_inv_head in Hrs.
    subst rs. inversion Hall as [|?? Hsr _]. unfold succeeded in Hsr. congruence.
Qed.

End Strategies.

(** * The claims *)







(** C3, at a step whose condition is false: after the score of 65 the
    step for scores of 100 or more is skipped.  Its StepResult is a
    success with data null, the data of the context stays 65 and its
    handler is not called, but the only event for it is step:start: no
    step:complete follows. *)
Theorem skipped_step_emits_no_step_complete :
  let r := AgentWorkflow.execute escalation_workflow (VStr "lead") None fresh_workflow in
  ∃ res skipped,
    r.2 = Res res ∧
    wr_steps res !! 1%nat = Some skipped ∧
    sr_step skipped = "escalate" ∧
    sr_success skipped = true ∧
    sr_data skipped = Some VNull ∧
    wr_data res = Some (VNum 65) ∧
    handler_calls (trace r.1) = ["calculate-score"] ∧
    step_events (trace r.1)
      = [(step_start, "calculate-score"); (step_complete, "calculate-score");
         (step_start, "escalate")] ∧
    ev_type <$> events (trace r.1)
      = [workflow_start; step_start; step_complete; step_start; workflow_complete].
Proof. vm_compute. eexists _, _. by repeat split. Qed.

(** C4, at a retry configuration whose maxDelay is 0: the delay before
    the retry after attempt 1 of an exponential backoff with delay 1000 is
    1000, not min(1000 * 2^0, 0) = 0.  The cap is read through
    [retry.maxDelay || delay], which takes a cap of 0 for a missing one. *)
Theorem calculateRetryDelay_ignores_zero_cap :
  BaseAgent.calculateRetryDelay 1 capped_at_zero = 1000 ∧
  BaseAgent.calculateRetryDelay 1 capped_at_zero
    ≠ Z.min (delay capped_at_zero * 2 ^ (1 - 1)) 0.
Proof. split; [reflexivity | discriminate]. Qed.



(** The flaky work function under the default timeout: two failures, waits
    of 100ms and 200ms, and success on the third call, 315ms in all. *)
Example flaky_agent_succeeds_on_the_third_call :
  let r := BaseAgent.execute flaky_agent (VStr "lead") None (fresh false) in
  ∃ res, r.2 = Res res ∧
    ar_success res = true ∧ ar_data res = Some (VStr "done") ∧
    ar_executionTime res = 315 ∧
    length (run_calls (trace r.1)) = 3%nat ∧
    sleeps (trace r.1) = [100; 200].
Proof. vm_compute. eexists. by repeat split. Qed.

(** C6: when the input is null or undefined and no listener throws,
    execute returns a failure whose error is the INVALID_INPUT error of
    validateInput; all it adds to the log is the emission of its events
    (agent:start if the agent was not initialized, then agent:error): the
    work function is not called, no retry sleeps and no race is started. *)
Theorem execute_rejects_null_input self input pc (w : world bool) :
  input = VNull ∨ input = VUndefined →
  quiet (BaseAgent.listeners self) →
  ∃ w' r evs,
    BaseAgent.execute self input pc w = (w', Res r) ∧
    ar_success r = false ∧
    ar_error r = Some (VAgentError "Input cannot be null or undefined"
                                   "INVALID_INPUT" VUndefined) ∧
    trace w' = trace w ++ (LEmit <$> evs) ∧
    ev_type <$> evs = (if obj w then [] else [agent_start]) ++ [agent_error] ∧
    run_calls (trace w') = run_calls (trace w).
Proof.
  intros Hnull Hquiet.
  assert (nullish input = true) as Hn by by destruct Hnull as [-> | ->].
  destruct (execute_prologue self Hquiet input pc w)
    as (w1 & ectx & -> & _ & _ & evs & Htr & Hty).
  unfold try_catch. rewrite execute_try_invalid by done.
  rewrite (execute_catch_eq self Hquiet). eexists _, _, (evs ++ [_]).
  split; [reflexivity|]. simpl. split; [done|]. split; [done|].
  split; [by rewrite Htr, fmap_app, app_assoc|].
  split; [by rewrite fmap_app, Hty|].
  unfold run_calls. rewrite Htr, !omap_app. simpl. rewrite app_nil_r.
  replace (omap _ (LEmit <$> evs)) with (@nil AgentContext); [by rewrite app_nil_r|].
  clear. induction evs; simpl; [done|]. done.
Qed.

Lemma execute_rejects_null_input_witness :
  ∃ w' r evs,
    BaseAgent.execute flaky_agent VNull None (fresh false) = (w', Res r) ∧
    ar_success r = false ∧
    ar_error r = Some (VAgentError "Input cannot be null or undefined"
                                   "INVALID_INPUT" VUndefined) ∧
    trace w' = trace (fresh false) ++ (LEmit <$> evs) ∧
    ev_type <$> evs = (if obj (fresh false) then [] else [agent_start]) ++ [agent_error] ∧
    run_calls (trace w') = run_calls (trace (fresh false)).
Proof.
  apply (execute_rejects_null_input flaky_agent VNull None (fresh false)).
  - by left.
  - repeat constructor.
Defined.



(** The pipeline under the default strategy: the score is computed, the
    validation fails on it, and the qualify step is never reached. *)
Example stop_aborts_the_pipeline :
  let r := AgentWorkflow.execute (scoring_pipeline None) (VRef 7%nat) None fresh_workflow in
  ∃ res, r.2 = Res res ∧
    wr_success res = false ∧
    wr_error res = Some (VError "Email and company are required") ∧
    sr_step <$> wr_steps res = ["calculate-score"; "validate-lead"] ∧
    sr_success <$> wr_steps res = [true; false] ∧
    handler_calls (trace r.1) = ["calculate-score"; "validate-lead"] ∧
    ev_type <$> events (trace r.1)
      = [workflow_start; step_start; step_complete; step_start; step_error;
         workflow_error].
Proof. vm_compute. eexists. by repeat split. Qed.


(** The pipeline under rollback: the result of the run under stop, and
    the warning in the log. *)
Example rollback_warns :
  let s := AgentWorkflow.execute (scoring_pipeline (Some Stop)) (VRef 7%nat) None
                                 fresh_workflow in
  let r := AgentWorkflow.execute (scoring_pipeline (Some Rollback)) (VRef 7%nat) None
                                 fresh_workflow in
  r.2 = s.2 ∧
  filter (λ e, is_warning e = true) (trace s.1) = [] ∧
  filter (λ e, is_warning e = true) (trace r.1) = [rollback_warning].
Proof. vm_compute. by repeat split. Qed.

(** C9, as the code has it: execute makes no copy of the input.  The
    context it builds holds the input itself, so a work function that
    writes to [context.data] writes to the caller's object: here the lead
    at address 7 has gained a status when execute returns. *)
Lemma execute_input_is_shared :
  let r := BaseAgent.execute tagging_agent (VRef 7%nat) None world_with_lead in
  (∃ res, r.2 = Res res ∧ ar_success res = true ∧ ar_data res = Some (VRef 7%nat)) ∧
  run_calls (trace r.1)
    = [ {| ctx_id := "tagger-0-k3x9p2q1z"; ctx_data := VRef 7%nat;
           ctx_metadata := ∅; ctx_history := []; ctx_timestamp := 0 |} ] ∧
  heap world_with_lead !! 7%nat ≫= (.!! "status") = None ∧
  heap r.1 !! 7%nat ≫= (.!! "status") = Some (VStr "contacted").
Proof. vm_compute. split; [by eexists|]. by repeat split. Qed.

(** C9, amended: execute itself writes nothing to the heap, and it hands
    the work function the input, not a copy of it.  Whatever property of
    the heap the work function and the listeners keep (such as the
    contents of the input object) still holds when execute is done; and
    every call of the work function that execute makes gets a context
    whose data is the input. *)
Theorem execute_leaves_input_to_user_code self input pc (w : world bool)
    (P : store → Prop) :
  (∀ ctx, async_keeps P (BaseAgent.run self ctx)) →
  listeners_keep P (BaseAgent.listeners self) →
  P (heap w) →
  let w' := (BaseAgent.execute self input pc w).1 in
  P (heap w') ∧
  ∀ ctx, ctx ∈ run_calls (trace w') →
         ctx ∈ run_calls (trace w) ∨ ctx_data ctx = input.
Proof.
  intros Hrun Hls HP w'.
  set (G := λ e, match e with
                 | LRun ctx => ctx ∈ run_calls (trace w) ∨ ctx_data ctx = input
                 | _ => True
                 end).
  destruct (keeps_execute self P G input Hrun Hls) with (pc := pc) (w := w)
    as [HP' HG'].
  - intros e He. destruct e; try done. by destruct (He ctx).
  - intros ctx Hctx. by right.
  - done.
  - apply Forall_forall. intros e He. destruct e; try done. left.
    apply list_elem_of_omap. by exists (LRun ctx).
  - split; [done|]. intros ctx Hin.
    apply list_elem_of_omap in Hin as (e & He & Hsome).
    eapply Forall_forall in HG'; [|exact He].
    destruct e; try done. by injection Hsome as ->.
Qed.

Lemma execute_leaves_input_to_user_code_witness :
  let P := λ h : store, h !! 7%nat = Some lead in
  let w' := (BaseAgent.execute steady_agent (VRef 7%nat) None world_with_lead).1 in
  P (heap w') ∧
  ∀ ctx, ctx ∈ run_calls (trace w') →
         ctx ∈ run_calls (trace world_with_lead) ∨ ctx_data ctx = VRef 7%nat.
Proof.
  intros P.
  apply (execute_leaves_input_to_user_code steady_agent (VRef 7%nat) None
           world_with_lead P).
  - intros ctx h HP. exact HP.
  - repeat constructor. intros ev h HP. exact HP.
  - apply lookup_singleton_eq.
Defined.



(** The pipeline under continue: the validation fails, the run goes on,
    and the result is a success with the data of the last handler. *)
Example continue_finishes_the_pipeline :
  let r := AgentWorkflow.execute (scoring_pipeline (Some Continue)) (VRef 7%nat)
                                 None fresh_workflow in
  ∃ res, r.2 = Res res ∧
    wr_success res = true ∧
    sr_success <$> wr_steps res = [true; false; true] ∧
    wr_data res = Some (VStr "Qualified") ∧
    ev_type <$> events (trace r.1)
      = [workflow_start; step_start; step_complete; step_start; step_error;
         step_start; step_complete; workflow_complete].
Proof. vm_compute. eexists. by repeat split. Qed.

(** * Further properties of the engine *)

(** ** The retry delay *)

Lemma pow2_pos n : 0 ≤ n → 1 ≤ 2 ^ n.
Proof. intros Hn. pose proof (Z.pow_pos_nonneg 2 n). lia. Qed.

(** X1: for a delay that is not negative and an attempt number of 1 or
    more, the delay before the next attempt never exceeds
    delay * 2^(attempt-1); under exponential backoff with a maxDelay
    other than 0 it never exceeds maxDelay; and it is negative only if
    maxDelay is. *)
Theorem calculateRetryDelay_bounds attempt retry :
  0 ≤ delay retry → 1 ≤ attempt →
  BaseAgent.calculateRetryDelay attempt retry ≤ delay retry * 2 ^ (attempt - 1) ∧
  (∀ m, backoff retry = Some Exponential → maxDelay retry = Some m → m ≠ 0 →
        BaseAgent.calculateRetryDelay attempt retry ≤ m) ∧
  ((∀ m, maxDelay retry = Some m → 0 ≤ m) →
   0 ≤ BaseAgent.calculateRetryDelay attempt retry).
Proof.
  intros Hdelay Hattempt.
  pose proof (pow2_pos (attempt - 1)) as Hpow.
  assert (delay retry ≤ delay retry * 2 ^ (attempt - 1)) as Hgrow by nia.
  unfold BaseAgent.calculateRetryDelay, BaseAgent.maxDelay_or.
  destruct (backoff retry) as [[]|]; destruct (maxDelay retry) as [m|]; simpl.
  - split; [done|]. split; [done|]. intros _. lia.
  - split; [done|]. split; [done|]. intros _. lia.
  - destruct (Z.eqb_spec m 0) as [->|Hm]; simpl.
    + split; [lia|]. split; [by intros ? _ [= <-]|]. lia.
    + split; [lia|]. split; [intros ? _ [= <-] _; lia|].
      intros Hcap. specialize (Hcap m eq_refl). lia.
  - split; [lia|]. split; [done|]. lia.
  - split; [done|]. split; [done|]. intros _. lia.
  - split; [done|]. split; [done|]. intros _. lia.
Qed.

Lemma calculateRetryDelay_bounds_witness :
  BaseAgent.calculateRetryDelay 3 capped_retry ≤ delay capped_retry * 2 ^ (3 - 1) ∧
  BaseAgent.calculateRetryDelay 3 capped_retry ≤ 2500 ∧
  0 ≤ BaseAgent.calculateRetryDelay 3 capped_retry.
Proof.
  destruct (calculateRetryDelay_bounds 3 capped_retry) as (Hraw & Hcap & Hpos);
    [simpl; lia | lia |].
  split; [exact Hraw|]. split.
  - apply Hcap; [reflexivity | reflexivity | discriminate].
  - apply Hpos. intros m [= <-]. lia.
Defined.

(** X2: for a delay that is not negative, the delay before the next
    attempt never shrinks from one attempt to a later one, whatever the
    backoff and the cap. *)
Theorem calculateRetryDelay_monotone attempt later retry :
  0 ≤ delay retry → 1 ≤ attempt ≤ later →
  BaseAgent.calculateRetryDelay attempt retry
  ≤ BaseAgent.calculateRetryDelay later retry.
Proof.
  intros Hdelay Hattempt.
  assert (2 ^ (attempt - 1) ≤ 2 ^ (later - 1)) as Hpow
    by (apply Z.pow_le_mono_r; lia).
  assert (delay retry * 2 ^ (attempt - 1) ≤ delay retry * 2 ^ (later - 1)) as Hgrow
    by (by apply Z.mul_le_mono_nonneg_l).
  unfold BaseAgent.calculateRetryDelay, BaseAgent.maxDelay_or.
  destruct (backoff retry) as [[]|]; [lia| |lia].
  destruct (maxDelay retry) as [m|]; simpl; [|lia].
  destruct (m =? 0); simpl; lia.
Qed.

Lemma calculateRetryDelay_monotone_witness :
  BaseAgent.calculateRetryDelay 2 capped_retry
  ≤ BaseAgent.calculateRetryDelay 4 capped_retry.
Proof. apply (calculateRetryDelay_monotone 2 4 capped_retry); simpl; lia. Defined.

(** ** The configuration *)

(** X3: the constructor and updateConfig merge the configuration key by
    key and not below: a retry configuration given by the caller replaces
    the default one whole.  So a retry that names no backoff waits the
    constant delay between attempts, and getConfig shows it as given; the
    exponential backoff from 1000ms applies only when the caller gives no
    retry at all. *)
Theorem retry_configuration_is_replaced_whole config run self update r attempt :
  backoff r = None →
  (retry config = Some r →
   retry (BaseAgent.getConfig (BaseAgent.new config run)) = Some r ∧
   BaseAgent.calculateRetryDelay attempt
     (BaseAgent.config_retry (BaseAgent.new config run)) = delay r) ∧
  (BaseAgent.new_retry update = Some r →
   retry (BaseAgent.getConfig (BaseAgent.updateConfig self update)) = Some r ∧
   BaseAgent.calculateRetryDelay attempt
     (BaseAgent.config_retry (BaseAgent.updateConfig self update)) = delay r) ∧
  (retry config = None →
   BaseAgent.calculateRetryDelay attempt
     (BaseAgent.config_retry (BaseAgent.new config run)) = 1000 * 2 ^ (attempt - 1)).
Proof.
  intros Hnone. split; [|split].
  - intros Hr. unfold BaseAgent.getConfig, BaseAgent.new,
      BaseAgent.calculateRetryDelay. simpl. rewrite Hr. simpl. by rewrite Hnone.
  - intros Hr. unfold BaseAgent.getConfig, BaseAgent.updateConfig,
      BaseAgent.calculateRetryDelay. simpl. rewrite Hr. simpl. by rewrite Hnone.
  - intros Hr. unfold BaseAgent.new. simpl. rewrite Hr. simpl.
    by apply calculateRetryDelay_uncapped.
Qed.

Lemma retry_configuration_is_replaced_whole_witness :
  BaseAgent.calculateRetryDelay 3
    (BaseAgent.config_retry
       (BaseAgent.updateConfig flaky_agent
          {| BaseAgent.new_name := None; BaseAgent.new_timeout := None;
             BaseAgent.new_retry := Some plain_retry |})) = 500.
Proof.
  destruct (retry_configuration_is_replaced_whole
              {| name := "flaky"; timeout := None; retry := None |} flaky_run
              flaky_agent
              {| BaseAgent.new_name := None; BaseAgent.new_timeout := None;
                 BaseAgent.new_retry := Some plain_retry |}
              plain_retry 3) as (_ & Hupdate & _); [reflexivity|].
  apply Hupdate. reflexivity.
Defined.

(** ** execute of BaseAgent *)

(** X4: when no listener throws, one execute emits agent:start first if
    and only if the agent was not initialized, and then exactly one more
    event: agent:complete for a success, agent:error for a failure,
    carrying the result it returns (and its error).  The agent is
    initialized afterwards, the metadata of the result is the caller's
    (or empty), and the execution time is the time that passed since
    execute was entered. *)
Theorem execute_event_sequence self input pc (w : world bool) :
  quiet (BaseAgent.listeners self) →
  ∃ w' r,
    BaseAgent.execute self input pc w = (w', Res r) ∧
    obj w' = true ∧
    events (trace w') =
      events (trace w)
        ++ (if obj w then []
            else [{| ev_type := agent_start; ev_timestamp := clock w;
                     ev_data := Some (DAgent (BaseAgent.config_name self));
                     ev_error := None |}])
        ++ [{| ev_type := if ar_success r then agent_complete else agent_error;
               ev_timestamp := clock w';
               ev_data := Some (DAgentResult r);
               ev_error := ar_error r |}] ∧
    ar_metadata r = default ∅ (pc ≫= p_metadata) ∧
    ar_executionTime r = clock w' - clock w.
Proof.
  intros Hquiet.
  destruct (agent_execute_detail self Hquiet input pc w)
    as (w' & r & calls & Hexec & Hobj & Hev & Hmeta & Htime & _).
  by exists w', r.
Qed.

Lemma execute_event_sequence_witness :
  ∃ w' r,
    BaseAgent.execute flaky_agent (VStr "lead") None (fresh false) = (w', Res r) ∧
    obj w' = true ∧
    ev_type <$> events (trace w') = [agent_start; agent_complete].
Proof.
  destruct (execute_event_sequence flaky_agent (VStr "lead") None (fresh false))
    as (w' & r & Hexec & Hobj & Hev & _); [repeat constructor|].
  exists w', r. split; [exact Hexec|]. split; [exact Hobj|].
  rewrite Hev. clear Hev.
  replace (ar_success r) with true; [reflexivity|].
  revert Hexec. vm_compute. by intros [= <- <-].
Defined.



(** X6: when no listener throws, every call of the work function that one
    execute makes gets the same context: the id made of the agent's name,
    the clock and the random suffix at entry, the input as data and the
    caller's metadata and history (or empty ones).  There are at most
    maxAttempts calls, and unless the result is the TIMEOUT error the
    retry loop slept exactly once between two consecutive calls, for the
    delays of the attempts 1, 2, ... in this order, and not after the
    last call. *)
Theorem execute_retry_schedule self input pc (w : world bool) :
  quiet (BaseAgent.listeners self) →
  ∃ w' r (calls : nat),
    BaseAgent.execute self input pc w = (w', Res r) ∧
    run_calls (trace w') =
      run_calls (trace w) ++ replicate calls (execution_context self input pc w) ∧
    Z.of_nat calls ≤ Z.max 0 (maxAttempts (BaseAgent.config_retry self)) ∧
    (ar_error r ≠ Some execution_timeout_error →
     sleeps (trace w') =
       sleeps (trace w)
         ++ retry_delays (BaseAgent.config_retry self) (Z.of_nat calls - 1)).
Proof.
  intros Hquiet.
  destruct (agent_execute_detail self Hquiet input pc w)
    as (w' & r & calls & Hexec & _ & _ & _ & _ & Hcalls & Hle & Hsleeps & _).
  by exists w', r, calls.
Qed.

Lemma execute_retry_schedule_witness :
  ∃ w' r,
    BaseAgent.execute broken_agent (VStr "lead") None (fresh false) = (w', Res r) ∧
    run_calls (trace w') =
      replicate 3 (execution_context broken_agent (VStr "lead") None (fresh false)) ∧
    sleeps (trace w') = [100; 150].
Proof.
  destruct (execute_retry_schedule broken_agent (VStr "lead") None (fresh false))
    as (w' & r & calls & Hexec & Hcalls & _ & _); [repeat constructor|].
  exists w', r. split; [exact Hexec|].
  revert Hexec. vm_compute. by intros [= <- <-].
Defined.

(** X7: with maxAttempts of 0 or less and an input that passes
    validation, execute fails with the EXECUTION_FAILED error without
    calling the work function and without sleeping (when no listener
    throws). *)
Theorem execute_without_attempts self input pc (w : world bool) :
  quiet (BaseAgent.listeners self) →
  nullish input = false →
  maxAttempts (BaseAgent.config_retry self) ≤ 0 →
  ∃ w' r,
    BaseAgent.execute self input pc w = (w', Res r) ∧
    ar_success r = false ∧ ar_data r = None ∧
    ar_error r = Some execution_failed_error ∧
    run_calls (trace w') = run_calls (trace w) ∧
    sleeps (trace w') = sleeps (trace w).
Proof.
  intros Hquiet.
  intros Hnull Hmax.
  destruct (execute_enters_try self Hquiet input pc w) as (w1 & -> & _ & _ & _ & Htr1).
  unfold try_catch, BaseAgent.execute_try, BaseAgent.validateInput.
  rewrite Hnull. unfold_M. unfold bind at 1, ret. unfold bind at 1.
  unfold BaseAgent.executeWithTimeout. rewrite race_eq.
  rewrite executeWithRetry_no_attempts by done.
  rewrite execute_catch_eq by done.
  eexists _, _. split; [reflexivity|]. simpl.
  rewrite Htr1, !run_calls_app, !sleeps_app. simpl.
  destruct (obj w); simpl; by rewrite !app_nil_r.
Qed.

Lemma execute_without_attempts_witness :
  ∃ w' r,
    BaseAgent.execute idle_agent (VStr "lead") None (fresh false) = (w', Res r) ∧
    ar_success r = false ∧ ar_data r = None ∧
    ar_error r = Some execution_failed_error ∧
    run_calls (trace w') = run_calls (trace (fresh false)) ∧
    sleeps (trace w') = sleeps (trace (fresh false)).
Proof.
  apply (execute_without_attempts idle_agent (VStr "lead") None (fresh false));
    [repeat constructor | reflexivity | simpl; lia].
Defined.



(** X9: after close the agent has no listeners and is not initialized.
    The next execute therefore returns a result whatever the listeners
    were (none is left to throw), and it initializes the agent again:
    it emits agent:start and then agent:complete or agent:error. *)
Theorem close_then_execute self input pc (w : world bool) :
  BaseAgent.listeners (BaseAgent.close self).1 = [] ∧
  ∃ w' r,
    ((BaseAgent.close self).2 ;; BaseAgent.execute (BaseAgent.close self).1 input pc) w
      = (w', Res r) ∧
    obj w' = true ∧
    ev_type <$> events (trace w') =
      (ev_type <$> events (trace w))
        ++ [agent_start; if ar_success r then agent_complete else agent_error].
Proof.
  split; [done|].
  assert (quiet (BaseAgent.listeners (BaseAgent.close self).1)) as Hquiet
    by constructor.
  unfold_M. unfold bind. simpl.
  destruct (agent_execute_detail _ Hquiet input pc
              (World false (heap w) (clock w) (deadline w) (work_wins_ties w)
                     (random w) (draws w) (trace w)))
    as (w' & r & calls & Hexec & Hobj & Hev & _).
  exists w', r. split; [exact Hexec|]. split; [done|].
  rewrite Hev. simpl. by rewrite fmap_app.
Qed.

(** ** execute of AgentWorkflow *)

(** X10: when no listener throws, what execute returns is also what it
    leaves in the workflow: getContext then gives a context whose history
    is the list of StepResults of the result (a history passed in the
    initial context is not taken over), whose data is the input as
    replaced, in order, by each value other than null and undefined that
    a successful step produced (the data of a successful result), and
    whose metadata is the caller's (or empty).  The results are those of
    the first registered steps, in registration order. *)
Theorem execute_records_the_run_in_the_context self input pc
    (w : world AgentWorkflow.state) :
  quiet (AgentWorkflow.listeners self) →
  ∃ w' r c,
    AgentWorkflow.execute self input pc w = (w', Res r) ∧
    AgentWorkflow.getContext w' = (w', Res (Some c)) ∧
    ctx_history c = wr_steps r ∧
    ctx_data c = data_after input (wr_steps r) ∧
    (wr_success r = true → wr_data r = Some (ctx_data c)) ∧
    ctx_metadata c = default ∅ (pc ≫= p_metadata) ∧
    ctx_timestamp c = clock w ∧
    sr_step <$> wr_steps r =
      step_name <$> take (length (wr_steps r)) (AgentWorkflow.steps self).
Proof.
  intros Hquiet.
  destruct (workflow_execute_leaves self Hquiet input pc w)
    as (w' & r & c & Hexec & Hctx & _ & Hhist & Hdata & Hmeta & Hts & _ & Hnames).
  exists w', r, c. split; [done|].
  split.
  { unfold AgentWorkflow.getContext. unfold_M. unfold bind, get_obj, ret.
    by rewrite Hctx. }
  split; [done|]. split; [done|]. split; [|done].
  intros Hok.
  destruct (workflow_execute_spec self Hquiet input pc w)
    as (w2 & r2 & δ & Hexec2 & _ & _ & _ & Hcases).
  rewrite Hexec in Hexec2. injection Hexec2 as <- <-.
  rewrite Hok in Hcases. destruct Hcases as (_ & -> & _). by rewrite Hdata.
Qed.

Lemma execute_records_the_run_in_the_context_witness :
  ∃ w' r c,
    AgentWorkflow.execute (scoring_pipeline (Some Continue)) (VRef 7%nat) None
                          fresh_workflow = (w', Res r) ∧
    AgentWorkflow.getContext w' = (w', Res (Some c)) ∧
    ctx_history c = wr_steps r ∧
    ctx_data c = VStr "Qualified".
Proof.
  destruct (execute_records_the_run_in_the_context
              (scoring_pipeline (Some Continue)) (VRef 7%nat) None fresh_workflow)
    as (w' & r & c & Hexec & Hget & Hhist & Hdata & _); [repeat constructor|].
  exists w', r, c. split; [exact Hexec|]. split; [exact Hget|].
  split; [exact Hhist|]. rewrite Hdata. clear Hget Hhist Hdata.
  revert Hexec. vm_compute. by intros [= <- <-].
Defined.

(** X11: a workflow without steps succeeds at once, whatever its error
    strategy and its timeout: the result has the input as data and no
    StepResult, no handler is called, and the only events are
    workflow:start and workflow:complete (when no listener throws). *)
Theorem empty_workflow_returns_the_input self input pc
    (w : world AgentWorkflow.state) :
  quiet (AgentWorkflow.listeners self) →
  AgentWorkflow.steps self = [] →
  ∃ w' r,
    AgentWorkflow.execute self input pc w = (w', Res r) ∧
    wr_success r = true ∧ wr_data r = Some input ∧ wr_steps r = [] ∧
    wr_error r = None ∧
    ev_type <$> events (trace w') =
      (ev_type <$> events (trace w)) ++ [workflow_start; workflow_complete] ∧
    handler_calls (trace w') = handler_calls (trace w).
Proof. intros Hquiet. by apply workflow_execute_no_steps. Qed.

Lemma empty_workflow_returns_the_input_witness :
  ∃ w' r,
    AgentWorkflow.execute empty_workflow VNull None fresh_workflow = (w', Res r) ∧
    wr_success r = true ∧ wr_data r = Some VNull ∧ wr_steps r = [] ∧
    wr_error r = None ∧
    ev_type <$> events (trace w') =
      (ev_type <$> events (trace fresh_workflow))
        ++ [workflow_start; workflow_complete] ∧
    handler_calls (trace w') = handler_calls (trace fresh_workflow).
Proof.
  apply (empty_workflow_returns_the_input empty_workflow VNull None fresh_workflow);
    [constructor | reflexivity].
Defined.

(** X12: clear removes the steps and the context and keeps the
    configuration and the listeners: right after it getContext gives
    null, and the next execute runs no step and returns a success with
    its input as data (when no listener throws). *)
Theorem clear_empties_the_workflow self input pc (w : world AgentWorkflow.state) :
  quiet (AgentWorkflow.listeners self) →
  AgentWorkflow.getConfig (AgentWorkflow.clear self).1 = AgentWorkflow.getConfig self ∧
  AgentWorkflow.listeners (AgentWorkflow.clear self).1 = AgentWorkflow.listeners self ∧
  (∃ w0, ((AgentWorkflow.clear self).2 ;; AgentWorkflow.getContext) w = (w0, Res None)) ∧
  ∃ w' r,
    ((AgentWorkflow.clear self).2 ;;
     AgentWorkflow.execute (AgentWorkflow.clear self).1 input pc) w = (w', Res r) ∧
    wr_success r = true ∧ wr_data r = Some input ∧ wr_steps r = [] ∧
    handler_calls (trace w') = handler_calls (trace w).
Proof.
  intros Hquiet. split; [done|]. split; [done|]. split.
  { by eexists. }
  unfold_M. unfold bind at 1. simpl.
  match goal with
  | |- context [AgentWorkflow.execute ?s input pc ?w0] =>
      destruct (workflow_execute_no_steps s Hquiet input pc w0)
        as (w' & r & Hexec & Hok & Hdata & Hsteps & _ & _ & Hcalls); [done|]
  end.
  by exists w', r.
Qed.

Lemma clear_empties_the_workflow_witness :
  ∃ w' r,
    ((AgentWorkflow.clear (scoring_pipeline None)).2 ;;
     AgentWorkflow.execute (AgentWorkflow.clear (scoring_pipeline None)).1
                           (VStr "lead") None) fresh_workflow = (w', Res r) ∧
    wr_success r = true ∧ wr_data r = Some (VStr "lead") ∧ wr_steps r = [] ∧
    handler_calls (trace w') = handler_calls (trace fresh_workflow).
Proof.
  destruct (clear_empties_the_workflow (scoring_pipeline None) (VStr "lead") None
              fresh_workflow) as (_ & _ & _ & Hrun); [repeat constructor|].
  exact Hrun.
Defined.

(** X13: every execute starts a fresh run.  The context and the results
    that an earlier run left in the workflow have no part in it: from two
    worlds that differ in them only, execute gives the same result and
    the same final world. *)
Theorem execute_starts_a_fresh_run self input pc (w : world AgentWorkflow.state)
    (left_over : AgentWorkflow.state) :
  AgentWorkflow.execute self input pc (with_obj left_over w)
  = AgentWorkflow.execute self input pc w.
Proof. by destruct w. Qed.

(** ** Failed steps *)

(** X14: a step without condition whose handler throws is a failed
    StepResult, not an exception of executeStep (when no listener
    throws): its error is what the handler threw, made an Error if it
    was none, and it carries no data.  The context and the results so far
    are as they were.  The step's error hook, if it has one, is called
    once, between the handler and the step:error event; if the hook throws
    that is written to the console and changes nothing else.  Only a
    pending race timer can cut the step short. *)
Theorem failed_handler_is_a_failed_result self step
    (w : world AgentWorkflow.state) c e :
  quiet (AgentWorkflow.listeners self) →
  AgentWorkflow.context (obj w) = Some c →
  condition step = None →
  (∀ h, (handler step c h).2 = Throw e) →
  ∃ w' o h,
    AgentWorkflow.executeStep self step w = (w', o) ∧
    obj w' = obj w ∧
    (deadline w = None → o ≠ Preempted) ∧
    match o with
    | Res sr =>
        sr = failed_result step e (clock w) (clock w') ∧
        trace w' =
          trace w
            ++ [LEmit (step_start_event step (clock w)); LHandler (step_name step)]
            ++ hook_log step (AgentWorkflow.as_Error e) c h
            ++ [LEmit (step_error_event sr)]
    | Exn _ => False
    | Preempted => True
    end.
Proof.
  intros Hquiet.
  destruct w as [[octx ors] h t d tie rnd k tr]. simpl. intros -> Hnone Hthrow.
  unfold AgentWorkflow.executeStep. unfold_M.
  unfold bind at 1. simpl. unfold bind at 1.
  rewrite workflow_emitEvent_quiet by done. simpl.
  unfold try_catch at 1, AgentWorkflow.executeStep_try. rewrite Hnone.
  unfold AgentWorkflow.run_handler. unfold_M.
  unfold bind at 1. simpl. unfold bind at 1. simpl.
  unfold bind at 1. rewrite await_eq. simpl.
  specialize (Hthrow (heap_after_emitEvent (AgentWorkflow.listeners self)
                        (step_start_event step t) h)).
  unfold step_start_event in Hthrow.
  destruct (handler step c _) as [[h' ms] cpl]. simpl in Hthrow. subst cpl.
  destruct (in_time _ _) eqn:Hin; simpl.
  - destruct (AgentWorkflow.executeStep_catch self step t e _) as [w' o] eqn:Hcatch.
    eapply executeStep_catch_detail in Hcatch as (Hobj & Hends & Ho); [|done..].
    exists w', o, h'. split; [done|]. split; [done|]. split; [done|].
    destruct o as [sr| |]; [|done|done].
    destruct Ho as [-> Htr]. split; [done|].
    rewrite Htr. simpl. by rewrite <- !app_assoc.
  - eexists _, _, h. split; [reflexivity|]. split; [done|]. split; [|done].
    simpl. intros ->. by unfold in_time in Hin.
Qed.

Lemma failed_handler_is_a_failed_result_witness :
  ∃ w' sr,
    AgentWorkflow.executeStep empty_workflow hooked_step world_in_step
      = (w', Res sr) ∧
    sr_error sr = Some (VError "no such lead") ∧
    hook_calls (trace w') = ["create-in-crm"] ∧
    console_errors (trace w') = ["Error handler failed:"].
Proof.
  destruct (failed_handler_is_a_failed_result empty_workflow hooked_step
              world_in_step flaky_context (VStr "no such lead"))
    as (w' & o & h & Hexec & _ & Hends & Ho);
    [constructor | reflexivity | reflexivity | reflexivity |].
  destruct o as [sr| |]; [|destruct Ho|destruct (Hends eq_refl eq_refl)].
  exists w', sr. split; [exact Hexec|]. destruct Ho as [-> ->].
  repeat split.
Defined.

(** X15: a step whose condition throws is not skipped: it is a failed
    StepResult with what the condition threw as its error (when no
    listener throws).  The handler is not called, the error hook is, and
    step:error is emitted; the context is as it was. *)
Theorem throwing_condition_fails_the_step self step cond
    (w : world AgentWorkflow.state) c e :
  quiet (AgentWorkflow.listeners self) →
  AgentWorkflow.context (obj w) = Some c →
  condition step = Some cond →
  (∀ h, (cond c h).2 = Throw e) →
  ∃ w' o h,
    AgentWorkflow.executeStep self step w = (w', o) ∧
    obj w' = obj w ∧
    (deadline w = None → o ≠ Preempted) ∧
    match o with
    | Res sr =>
        sr = failed_result step e (clock w) (clock w') ∧
        trace w' =
          trace w
            ++ [LEmit (step_start_event step (clock w)); LCondition (step_name step)]
            ++ hook_log step (AgentWorkflow.as_Error e) c h
            ++ [LEmit (step_error_event sr)]
    | Exn _ => False
    | Preempted => True
    end.
Proof.
  intros Hquiet.
  destruct w as [[octx ors] h t d tie rnd k tr]. simpl. intros -> Hcond Hthrow.
  unfold AgentWorkflow.executeStep. unfold_M.
  unfold bind at 1. simpl. unfold bind at 1.
  rewrite workflow_emitEvent_quiet by done. simpl.
  unfold try_catch at 1, AgentWorkflow.executeStep_try. rewrite Hcond.
  unfold_M.
  unfold bind at 1. simpl. unfold bind at 1. simpl.
  unfold bind at 1. rewrite await_eq. simpl.
  specialize (Hthrow (heap_after_emitEvent (AgentWorkflow.listeners self)
                        (step_start_event step t) h)).
  unfold step_start_event in Hthrow.
  destruct (cond c _) as [[h' ms] cpl]. simpl in Hthrow. subst cpl.
  destruct (in_time _ _) eqn:Hin; simpl.
  - destruct (AgentWorkflow.executeStep_catch self step t e _) as [w' o] eqn:Hcatch.
    eapply executeStep_catch_detail in Hcatch as (Hobj & Hends & Ho); [|done..].
    exists w', o, h'. split; [done|]. split; [done|]. split; [done|].
    destruct o as [sr| |]; [|done|done].
    destruct Ho as [-> Htr]. split; [done|].
    rewrite Htr. simpl. by rewrite <- !app_assoc.
  - eexists _, _, h. split; [reflexivity|]. split; [done|]. split; [|done].
    simpl. intros ->. by unfold in_time in Hin.
Qed.

Lemma throwing_condition_fails_the_step_witness :
  ∃ w' sr,
    AgentWorkflow.executeStep empty_workflow guarded_step world_in_step
      = (w', Res sr) ∧
    sr_success sr = false ∧
    sr_error sr = Some (VError "no score") ∧
    handler_calls (trace w') = [].
Proof.
  destruct (throwing_condition_fails_the_step empty_workflow guarded_step
              (λ _ h, (h, 0, Throw (VError "no score")))
              world_in_step flaky_context (VError "no score"))
    as (w' & o & h & Hexec & _ & Hends & Ho);
    [constructor | reflexivity | reflexivity | reflexivity |].
  destruct o as [sr| |]; [|destruct Ho|destruct (Hends eq_refl eq_refl)].
  exists w', sr. split; [exact Hexec|]. destruct Ho as [-> ->].
  repeat split.
Defined.



(** ** CRMAgent *)

(** X17: the lazy initialization of execute is outside its try block, and
    a CRM agent initializes its provider there.  So when the agent is not
    initialized and its provider fails to come up, execute does not
    return a failure: the provider's exception leaves execute as it is,
    and with it every convenience method, such as createLead.  No event
    is emitted, the work function is not called, and the agent stays
    uninitialized. *)
Theorem provider_failure_escapes_execute self input pc lead (w : world bool) e :
  obj w = false → deadline w = None →
  (∀ h, (CRMAgent.provider_initialize self h).2 = Throw e) →
  (∃ w', CRMAgent.execute self input pc w = (w', Exn e) ∧
         obj w' = false ∧ trace w' = trace w) ∧
  (∃ w', CRMAgent.createLead self lead w = (w', Exn e) ∧
         obj w' = false ∧ trace w' = trace w).
Proof.
  intros Hobj Hnone Hthrow. split; [by apply crm_execute_init_fails|].
  unfold CRMAgent.createLead, CRMAgent.operation. unfold_M.
  unfold bind at 1, CRMAgent.object. cbv zeta.
  set (w1 := set_heap _ w). set (request := VRef _).
  destruct (crm_execute_init_fails self request None w1 e) as (w' & Hexec & Hrest);
    [done..|].
  exists w'. unfold bind. by rewrite Hexec.
Qed.

Lemma provider_failure_escapes_execute_witness :
  (CRMAgent.execute unreachable_crm (VStr "lead") None (fresh false)).2
    = Exn (VError "Failed to initialize Salesforce") ∧
  (CRMAgent.createLead unreachable_crm (VRef 7%nat) (fresh false)).2
    = Exn (VError "Failed to initialize Salesforce").
Proof.
  destruct (provider_failure_escapes_execute unreachable_crm (VStr "lead") None
              (VRef 7%nat) (fresh false) (VError "Failed to initialize Salesforce"))
    as [(w1 & -> & _) (w2 & -> & _)]; [reflexivity..|].
  split; reflexivity.
Defined.

(** X18: a convenience method of a CRM agent whose provider is up, or
    comes up, never returns a failure (when no listener throws): it
    returns the value that the last call of the work function returned,
    or it throws the error of the failed result.  That error is never the
    one of validateInput, since the method passes an object of its own
    making: it is the TIMEOUT error, or what normalizeError makes of the
    last error of the work function once all attempts are made
    (EXECUTION_FAILED if no attempt is allowed).  The agent is
    initialized afterwards. *)
Theorem convenience_method_returns_or_throws self name data (w : world bool) :
  quiet (BaseAgent.listeners (CRMAgent.agent self)) →
  (obj w = false →
   deadline w = None ∧ ∀ h, (CRMAgent.provider_initialize self h).2 = Normal tt) →
  ∃ w' o (calls : nat),
    CRMAgent.operation self name data w = (w', o) ∧
    obj w' = true ∧
    length (run_calls (trace w')) = (length (run_calls (trace w)) + calls)%nat ∧
    match o with
    | Res v => last (run_outcomes (trace w')) = Some (Normal v)
    | Exn e =>
        e = execution_timeout_error ∨
        (Z.of_nat calls
           = Z.max 0 (maxAttempts (BaseAgent.config_retry (CRMAgent.agent self))) ∧
         ((calls = 0%nat ∧ e = execution_failed_error) ∨
          (∃ e_last,
             last (run_outcomes (trace w')) = Some (Throw e_last) ∧
             e = BaseAgent.normalizeError (exhausted e_last))))
    | Preempted => False
    end.
Proof.
  intros Hquiet.
  intros Hinit. unfold CRMAgent.operation. unfold_M.
  unfold bind at 1, CRMAgent.object. cbv zeta.
  set (w1 := set_heap _ w). set (input := VRef _).
  destruct (crm_execute_detail self Hquiet input None w1 Hinit)
    as (w' & r & calls & Hexec & Hobj & Hcalls & Hcases).
  unfold bind. rewrite Hexec. unfold CRMAgent.unwrap.
  destruct (ar_success r); simpl.
  - destruct Hcases as (_ & _ & v & -> & Hlast).
    by exists w', (Res v), calls.
  - destruct Hcases as [(Hnull & _) | [(_ & ->) | (_ & Hmax & Hlast)]]; [done| |].
    + exists w', (Exn execution_timeout_error), calls. repeat split; try done.
      by left.
    + destruct Hlast as [[-> ->] | (e_last & Hlast & ->)].
      * exists w', (Exn execution_failed_error), 0%nat. repeat split; try done.
        right. split; [done|]. by left.
      * eexists w', (Exn _), calls. repeat split; try done.
        right. split; [done|]. right. by exists e_last.
Qed.

Lemma convenience_method_returns_or_throws_witness :
  ∃ w',
    CRMAgent.createLead sticky_crm (VRef 7%nat) (fresh false)
      = (w', Res (VStr "done")) ∧
    obj w' = true ∧
    length (run_calls (trace w')) = 3%nat.
Proof.
  destruct (convenience_method_returns_or_throws sticky_crm "createLead"
              (VRef 7%nat) (fresh false)) as (w' & o & calls & Hexec & Hobj & _);
    [repeat constructor | intros _; split; reflexivity |].
  exists w'. change (CRMAgent.createLead sticky_crm (VRef 7%nat))
    with (CRMAgent.operation sticky_crm "createLead" (VRef 7%nat)).
  rewrite Hexec. clear Hobj.
  revert Hexec. vm_compute. by intros [= <- <-].
Defined.

(** X19: close of a CRM agent closes the provider first.  If the provider
    fails to close, its exception leaves close before the agent's own
    clean-up: the agent stays initialized (and keeps its listeners).  If
    the provider closes, the agent is left without listeners and
    uninitialized.  Nothing is emitted either way. *)
Theorem crm_close_closes_the_provider_first self (w : world bool) :
  deadline w = None →
  (∀ e, (∀ h, (CRMAgent.provider_close self h).2 = Throw e) →
        ∃ w', CRMAgent.close self w = (w', Exn e) ∧
              obj w' = obj w ∧ trace w' = trace w) ∧
  ((∀ h, (CRMAgent.provider_close self h).2 = Normal tt) →
   ∃ w' closed,
     CRMAgent.close self w = (w', Res closed) ∧
     obj w' = false ∧ trace w' = trace w ∧
     BaseAgent.listeners (CRMAgent.agent closed) = [] ∧
     BaseAgent.getConfig (CRMAgent.agent closed)
       = BaseAgent.getConfig (CRMAgent.agent self)).
Proof.
  destruct w as [init h t d tie rnd k tr]. simpl. intros ->.
  unfold CRMAgent.close. unfold_M. unfold bind at 1 3. rewrite await_eq. simpl.
  split.
  - intros e Hthrow. specialize (Hthrow h).
    destruct (CRMAgent.provider_close self h) as [[h' ms] c].
    simpl in Hthrow. subst c. simpl. by eexists.
  - intros Hok. specialize (Hok h).
    destruct (CRMAgent.provider_close self h) as [[h' ms] c].
    simpl in Hok. subst c. simpl. by eexists _, _.
Qed.

Lemma crm_close_closes_the_provider_first_witness :
  ∃ w', CRMAgent.close sticky_crm (fresh true) = (w', Exn (VError "logout failed")) ∧
        obj w' = true.
Proof.
  destruct (crm_close_closes_the_provider_first sticky_crm (fresh true))
    as [Hfails _]; [reflexivity|].
  destruct (Hfails (VError "logout failed")) as (w' & Hclose & Hobj & _);
    [reflexivity|].
  exists w'. split; [exact Hclose | exact Hobj].
Defined.

(** ** The events of a workflow *)



(** ** The error strategy and the heap *)

(** X21: the error strategy of a workflow matters only when a step
    fails.  If a run returns a result none of whose StepResults is a
    failure (be it a success or a timeout), then the same workflow under
    any other strategy returns the same result from the same state, and
    leaves the same final state (when no listener throws). *)
Theorem strategies_agree_without_failed_steps self s input pc
    (w w' : world AgentWorkflow.state) r :
  quiet (AgentWorkflow.listeners self) →
  AgentWorkflow.execute self input pc w = (w', Res r) →
  Forall succeeded (wr_steps r) →
  AgentWorkflow.execute (AgentWorkflow.with_onError self s) input pc w = (w', Res r).
Proof.
  intros Hquiet Hexec Hall.
  destruct (execute_unfold self input pc w) as (w0 & start & Heq & Hw0 & Hstart).
  destruct (execute_unfold (AgentWorkflow.with_onError self s) input pc w) as (w0' & start' & Heq' & Hw0' & Hstart').
  assert (w0' = w0) as -> by (by rewrite Hw0, Hw0').
  assert (start' = start) as -> by (by rewrite Hstart, Hstart').
  change (AgentWorkflow.listeners (AgentWorkflow.with_onError self s)) with (AgentWorkflow.listeners self) in Heq'.
  rewrite Heq'. rewrite Heq in Hexec. clear Heq Heq'.
  rewrite emitEvent_quiet in Hexec |- * by done.
  set (w1 := set_heap (heap_after_emitEvent _ _ _) (add_log [LEmit start] w0)) in *.
  unfold try_catch, AgentWorkflow.execute_try in Hexec |- *. unfold_M.
  unfold bind at 1 in Hexec. unfold bind at 1.
  unfold AgentWorkflow.executeWithTimeout in Hexec |- *.
  rewrite race_eq in Hexec. rewrite race_eq.
  change (AgentWorkflow.steps (AgentWorkflow.with_onError self s)) with (AgentWorkflow.steps self).
  change (AgentWorkflow.config_timeout (AgentWorkflow.with_onError self s)) with (AgentWorkflow.config_timeout self).
  set (wr := add_log [LRace _] _) in *.
  destruct (AgentWorkflow.run_steps self (AgentWorkflow.steps self) wr)
    as [w2 o2] eqn:Hloop.
  assert (AgentWorkflow.run_steps (AgentWorkflow.with_onError self s) (AgentWorkflow.steps self) wr = (w2, o2))
    as ->; [|exact Hexec].
  pose proof Hloop as Hspec.
  assert (obj wr = obj w0) as Hobj by done.
  eapply run_steps_spec in Hspec as (rs & _ & _ & Hrs & _);
    [|done|by rewrite Hobj, Hw0].
  eapply (run_steps_any_strategy self s Hquiet);
    [by rewrite Hobj, Hw0 | exact Hloop | exact Hrs |].
  assert (wr_steps r = AgentWorkflow.stepResults (obj w2)) as Hsteps.
  { clear Hloop. destruct w2 as [[octx2 ors2] h2 t2 d2 tie2 rnd2 k2 tr2].
    destruct o2 as [[]|e|].
    - revert Hexec.
      unfold bind at 1. simpl. unfold bind at 1. simpl.
      destruct octx2 as [c2|]; simpl.
      + unfold bind at 1. simpl. unfold bind at 1.
        rewrite workflow_emitEvent_quiet by done. simpl. by intros [= <- <-].
      + rewrite workflow_execute_catch_eq by done. by intros [= <- <-].
    - revert Hexec. rewrite workflow_execute_catch_eq by done.
      by intros [= <- <-].
    - revert Hexec. rewrite workflow_execute_catch_eq by done.
      by intros [= <- <-]. }
  by rewrite Hsteps, Hrs, Hobj, Hw0 in Hall.
Qed.

Lemma strategies_agree_without_failed_steps_witness :
  AgentWorkflow.execute (AgentWorkflow.with_onError escalation_workflow Continue)
                        (VStr "lead") None fresh_workflow
  = AgentWorkflow.execute escalation_workflow (VStr "lead") None fresh_workflow.
Proof.
  assert (∃ w' r,
            AgentWorkflow.execute escalation_workflow (VStr "lead") None
                                  fresh_workflow = (w', Res r) ∧
            Forall succeeded (wr_steps r)) as (w' & r & Hexec & Hall).
  { vm_compute. eexists _, _. split; [reflexivity|]. by repeat constructor. }
  rewrite Hexec.
  apply (strategies_agree_without_failed_steps escalation_workflow Continue
           (VStr "lead") None fresh_workflow w' r);
    [constructor | exact Hexec | exact Hall].
Defined.

(** X22: execute of a workflow writes nothing to the heap itself.  Any
    property of the heap that the user code of every registered step
    (handler, condition, error hook) and the listeners keep still holds
    when execute is done, however the run ends. *)
Theorem workflow_execute_keeps_heap_invariants self input pc
    (w : world AgentWorkflow.state) (P : store → Prop) :
  Forall (step_keeps P) (AgentWorkflow.steps self) →
  listeners_keep P (AgentWorkflow.listeners self) →
  P (heap w) →
  P (heap (AgentWorkflow.execute self input pc w).1).
Proof.
  intros Hsteps Hlisteners HP.
  destruct (keeps_workflow_execute self P Hlisteners input pc Hsteps w HP)
    as [HP' _]; [|done].
  by apply Forall_forall.
Qed.

Lemma workflow_execute_keeps_heap_invariants_witness :
  heap (AgentWorkflow.execute (scoring_pipeline (Some Continue)) (VRef 7%nat) None
                              workflow_with_lead).1 !! 7%nat = Some lead.
Proof.
  apply (workflow_execute_keeps_heap_invariants (scoring_pipeline (Some Continue))
           (VRef 7%nat) None workflow_with_lead (λ h, h !! 7%nat = Some lead)).
  - apply Forall_cons; split; [|apply Forall_cons; split;
                               [|apply Forall_cons; split; [|done]]].
    + split; [intros c h HP; exact HP|]. split; [intros cond [=]|intros hook [=]].
    + split; [|split; [intros cond [=]|intros hook [=]]].
      intros c h HP. unfold validate_lead. simpl. repeat case_match; exact HP.
    + split; [intros c h HP; exact HP|].
      split; [intros cond [= <-] c h HP; exact HP|intros hook [=]].
  - repeat constructor. intros ev h HP. exact HP.
  - apply lookup_singleton_eq.
Defined.
